(** * 2028WW3 publishing pipeline: cleaner, synchronizer, publisher

    A shallow embedding of the three command-line scripts of the repository
    (scripts/clean-chapters.js, scripts/sync-chapters.js and
    scripts/publish-to-wp.js) and the properties stated about them.

    JavaScript strings are sequences of UTF-16 code units; they are modelled
    as lists of [N].  Regular expressions are modelled by a local matcher
    (what the expression matches when anchored at a given position) that is
    driven by the generic left-to-right search and global replacement of
    [String.prototype.match] / [String.prototype.replace].

    JavaScript numbers are doubles.  Those of the scripts have integer
    values: they are modelled by their value, with the rounding of the
    arithmetic and of the conversions from and to text written out where a
    number comes from a text (chapter numbers, identifiers).  The counters
    of files, which count the elements of arrays, are kept as integers.

    The file system and the network are explicit: the synchronizer and the
    cleaner work on maps from file names to contents, the asset mirroring
    returns the list of the file-system calls it makes, and the publisher is
    a state and exception monad over a runtime that provides the built-ins,
    the files and the remote site.  The progress lines of the synchronizer
    and of the cleaner are left out.  Nothing that the publisher's [main]
    sends or prints depends on [convertInlineImages] and [markdownToHtml]:
    the first is modelled on its own, the second is left out. *)

From Stdlib Require Import ZArith NArith Lia List Bool Ascii String.
From stdpp Require Import base option list gmap.

Set Warnings "-register-all".

Local Open Scope list_scope.
Local Open Scope nat_scope.

(** ** JavaScript strings *)

Module Js.

Abbreviation char := N (only parsing).
Abbreviation str := (list N) (only parsing).

(** An ASCII literal as a JavaScript string. *)
Definition lit (s : string) : str := List.map N_of_ascii (list_ascii_of_string s).

Definition LF : char := 10%N.
Definition CR : char := 13%N.

Definition char_eqb (a b : char) : bool := N.eqb a b.

(** [\d] *)
Definition is_digit (c : char) : bool := (48 <=? c)%N && (c <=? 57)%N.

(** [[A-Z]] *)
Definition is_upper (c : char) : bool := (65 <=? c)%N && (c <=? 90)%N.

(** Line terminators: the characters [.] does not match, and the places
    where [^] and [$] match under the [m] flag. *)
Definition is_line_terminator (c : char) : bool :=
  (c =? 10)%N || (c =? 13)%N || (c =? 8232)%N || (c =? 8233)%N.

(** [.] *)
Definition is_dot (c : char) : bool := negb (is_line_terminator c).

(** [\s]: WhiteSpace and LineTerminator of ECMAScript; the same set is
    stripped by [String.prototype.trim]. *)
Definition is_space (c : char) : bool :=
  ((9 <=? c)%N && (c <=? 13)%N) || (c =? 32)%N || (c =? 160)%N || (c =? 5760)%N
  || ((8192 <=? c)%N && (c <=? 8202)%N) || (c =? 8232)%N || (c =? 8233)%N
  || (c =? 8239)%N || (c =? 8287)%N || (c =? 12288)%N || (c =? 65279)%N.

(** A double or a single quote: the class of the quote-stripping
    expression. *)
Definition is_quote (c : char) : bool := (c =? 34)%N || (c =? 39)%N.

Fixpoint str_eqb (a b : str) : bool :=
  match a, b with
  | [], [] => true
  | x :: a', y :: b' => char_eqb x y && str_eqb a' b'
  | _, _ => false
  end.

(** [s.startsWith(p)] *)
Fixpoint startsWith (p s : str) : bool :=
  match p, s with
  | [], _ => true
  | x :: p', y :: s' => char_eqb x y && startsWith p' s'
  | _ :: _, [] => false
  end.

(** [s.endsWith(p)] *)
Definition endsWith (p s : str) : bool :=
  (length p <=? length s) && str_eqb (drop (length s - length p) s) p.

(** The longest prefix whose characters satisfy [f]: a greedy [[f]*]. *)
Fixpoint span (f : char -> bool) (s : str) : str :=
  match s with
  | c :: t => if f c then c :: span f t else []
  | [] => []
  end.

(** [s.trimStart()], [s.trimEnd()], [s.trim()] *)
Fixpoint trimStart (s : str) : str :=
  match s with
  | c :: t => if is_space c then trimStart t else s
  | [] => []
  end.

Definition trimEnd (s : str) : str := rev (trimStart (rev s)).

Definition trim (s : str) : str := trimEnd (trimStart s).

(** [s.indexOf(p)], [None] for -1. *)
Fixpoint indexOf (p s : str) : option nat :=
  if startsWith p s then Some 0
  else match s with
       | [] => None
       | _ :: t => S <$> indexOf p t
       end.

(** [s.includes(p)] *)
Definition includes (p s : str) : bool := bool_decide (is_Some (indexOf p s)).

(** [s.split(sep)] for a one-character separator. *)
Fixpoint split (sep : char) (s : str) : list str :=
  match s with
  | [] => [[]]
  | c :: t =>
      if char_eqb c sep then [] :: split sep t
      else match split sep t with
           | l :: ls => (c :: l) :: ls
           | [] => [[c]]
           end
  end.

(** [parts.join(sep)] *)
Fixpoint join (sep : str) (parts : list str) : str :=
  match parts with
  | [] => []
  | [p] => p
  | p :: ps => p ++ sep ++ join sep ps
  end.

(** *** Numbers

    A JavaScript number is an IEEE 754 double.  The numbers of the scripts
    are integers, or infinite: [Finite z] is the double whose value is the
    integer [z].  Every integer up to 2^53 in absolute value is a double;
    beyond, the doubles are the integers of 53 significant bits.  The
    operations below return doubles. *)
Inductive number :=
| Finite (z : Z)
| PlusInfinity
| MinusInfinity
| NotANumber.

(** The double nearest to an integer [a] above 2^53, a tie going to the
    even significand; [None] when the rounded value does not fit the
    exponent range, from 2^1024 on. *)
Definition nearest_double (a : Z) : option Z :=
  let e := (Z.log2 a - 52)%Z in
  let q := Z.shiftr a e in
  let r := Z.land a (Z.ones e) in
  let half := Z.shiftl 1 (e - 1) in
  let q' := if (half <? r)%Z || ((r =? half)%Z && Z.odd q) then (q + 1)%Z else q in
  let v := Z.shiftl q' e in
  if (2 ^ 1024 <=? v)%Z then None else Some v.

(** The number value of a mathematical integer. *)
Definition number_of (z : Z) : number :=
  if (Z.abs z <=? 2 ^ 53)%Z then Finite z
  else match nearest_double (Z.abs z) with
       | Some v => Finite (Z.sgn z * v)
       | None => if (z <? 0)%Z then MinusInfinity else PlusInfinity
       end.

Definition num_sign (x : number) : Z :=
  match x with
  | Finite z => Z.sgn z
  | PlusInfinity => 1%Z
  | MinusInfinity => (-1)%Z
  | NotANumber => 0%Z
  end.

(** [x * y] and [x + y]: the exact result, rounded. *)
Definition num_mul (x y : number) : number :=
  match x, y with
  | NotANumber, _ | _, NotANumber => NotANumber
  | Finite a, Finite b => number_of (a * b)
  | _, _ =>
      match (num_sign x * num_sign y)%Z with
      | Z0 => NotANumber
      | Zpos _ => PlusInfinity
      | Zneg _ => MinusInfinity
      end
  end.

Definition num_add (x y : number) : number :=
  match x, y with
  | NotANumber, _ | _, NotANumber => NotANumber
  | Finite a, Finite b => number_of (a + b)
  | PlusInfinity, MinusInfinity | MinusInfinity, PlusInfinity => NotANumber
  | PlusInfinity, _ | _, PlusInfinity => PlusInfinity
  | MinusInfinity, _ | _, MinusInfinity => MinusInfinity
  end.

(** [parseInt(ds, 10)] on a string of decimal digits: the number value of
    the integer the digits write.  (Beyond 20 significant digits the
    language lets an implementation approximate that integer; Node rounds
    the exact one.) *)
Definition digit_value (c : char) : Z := (Z.of_N c - 48)%Z.

Definition integer_of (ds : str) : Z :=
  fold_left (fun acc c => acc * 10 + digit_value c)%Z ds 0%Z.

Definition parseInt (ds : str) : number := number_of (integer_of ds).

(** The decimal digits of a non-negative integer. *)
Fixpoint digits_fuel (fuel : nat) (n : N) (acc : str) : str :=
  match fuel with
  | O => acc
  | S f =>
      let acc' := (48 + n mod 10)%N :: acc in
      if (n <? 10)%N then acc' else digits_fuel f (n / 10)%N acc'
  end.

Definition decimal (z : Z) : str :=
  digits_fuel (S (N.to_nat (N.log2 (Z.to_N z)))) (Z.to_N z) [].

(** The integer [v] reads as the double [x]. *)
Definition rounds_to (v x : Z) : bool :=
  match number_of v with
  | Finite w => (w =? x)%Z
  | _ => false
  end.

(** [String(x)] for a number, as a template shows it.  The digits are those
    of the shortest decimal [s * 10^e] that reads back as [x]: for [k] = 1,
    2, ... digits, the two decimals of [k] digits around [x] are tried, and
    of two that read back as [x] the closer one is taken (the one with the
    even last digit if they are as close).  [nx] is the number of digits of
    [x]. *)
Fixpoint shortest_from (fuel : nat) (k : Z) (x nx : Z) : Z * Z :=
  match fuel with
  | O => (x, 0%Z)
  | S fuel' =>
      let e := (nx - k)%Z in
      if (e <=? 0)%Z then (x, 0%Z)
      else
        let p := (10 ^ e)%Z in
        let lo := (x / p)%Z in
        let hi := (lo + 1)%Z in
        match rounds_to (lo * p) x, rounds_to (hi * p) x with
        | true, true =>
            let below := (x - lo * p)%Z in
            let above := (hi * p - x)%Z in
            if (below <? above)%Z || ((below =? above)%Z && Z.even lo)
            then (lo, e) else (hi, e)
        | true, false => (lo, e)
        | false, true => (hi, e)
        | false, false => shortest_from fuel' (k + 1)%Z x nx
        end
  end.

(** A power of ten reached from below is written with one digit. *)
Fixpoint strip_zeros (fuel : nat) (s e : Z) : Z * Z :=
  match fuel with
  | O => (s, e)
  | S fuel' =>
      if (0 <? s)%Z && (s mod 10 =? 0)%Z then strip_zeros fuel' (s / 10)%Z (e + 1)%Z
      else (s, e)
  end.

Definition shortest (x : Z) : Z * Z :=
  let nx := length (decimal x) in
  let (s, e) := shortest_from nx 1%Z x (Z.of_nat nx) in
  strip_zeros nx s e.

(** The digits followed by zeros up to 21 digits, and the exponent notation
    beyond. *)
Definition positive_to_string (x : Z) : str :=
  let (s, e) := shortest x in
  let ds := decimal s in
  let n := (Z.of_nat (length ds) + e)%Z in
  if (n <=? 21)%Z then ds ++ repeat 48%N (Z.to_nat e)
  else
    match ds with
    | [] => []
    | [d] => d :: lit "e+" ++ decimal (n - 1)
    | d :: more => d :: lit "." ++ more ++ lit "e+" ++ decimal (n - 1)
    end.

Definition Number_toString (x : number) : str :=
  match x with
  | NotANumber => lit "NaN"
  | PlusInfinity => lit "Infinity"
  | MinusInfinity => lit "-Infinity"
  | Finite Z0 => lit "0"
  | Finite (Zpos p) => positive_to_string (Zpos p)
  | Finite (Zneg p) => lit "-" ++ positive_to_string (Zpos p)
  end.

(** The text of an integer that the script holds as a number (an
    identifier of a JSON answer, a status code, a length). *)
Definition number_to_string (z : Z) : str := Number_toString (number_of z).

(** *** Regular expressions

    A [matcher] tells, for the text [s] that starts at the current position
    and the character [prev] just before it ([None] at the start of the
    input), how many characters the expression matches there, if it matches.
    Captures, where a script uses them, are returned by a matcher of its
    own. *)

Definition matcher := option char -> str -> option nat.

(** Leftmost match of a non-global expression ([s.match(re)],
    [s.replace(re, ..)] without [g]): the text before the match and the
    result of the local matcher. *)
Fixpoint search_from {A} (m : option char -> str -> option A)
    (prev : option char) (s : str) : option (str * A) :=
  match m prev s with
  | Some a => Some ([], a)
  | None =>
      match s with
      | [] => None
      | c :: t =>
          match search_from m (Some c) t with
          | Some (pre, a) => Some (c :: pre, a)
          | None => None
          end
      end
  end.

Definition search {A} (m : option char -> str -> option A) (s : str)
  : option (str * A) := search_from m None s.

(** [s.replace(re, r)] for a non-global [re]: only the leftmost match is
    replaced. *)
Definition replace_first (m : matcher) (r : str -> str) (s : str) : str :=
  match search m s with
  | Some (pre, n) =>
      pre ++ r (take n (drop (length pre) s)) ++ drop (length pre + n) s
  | None => s
  end.

(** [s.replace(re, r)] for a global [re]: matches are found from left to
    right, each search starting where the previous match ended (one
    character further after an empty match).  [skip] counts the characters
    of the current match that are still to be passed over. *)
Fixpoint gsub_from (m : matcher) (r : str -> str)
    (prev : option char) (skip : nat) (s : str) : str :=
  match s with
  | [] =>
      match skip, m prev [] with
      | O, Some _ => r []
      | _, _ => []
      end
  | c :: t =>
      match skip with
      | S k => gsub_from m r (Some c) k t
      | O =>
          match m prev s with
          | Some (S n) => r (take (S n) s) ++ gsub_from m r (Some c) n t
          | Some O => r [] ++ c :: gsub_from m r (Some c) O t
          | None => c :: gsub_from m r (Some c) O t
          end
      end
  end.

Definition gsub (m : matcher) (r : str -> str) (s : str) : str :=
  gsub_from m r None 0 s.

(** [s.replace(p, r)] for a string pattern [p]: first occurrence only. *)
Definition replace_string (p r s : str) : str :=
  match indexOf p s with
  | Some i => take i s ++ r ++ drop (i + length p) s
  | None => s
  end.

(** Start-of-line and end-of-line assertions under the [m] flag. *)
Definition at_line_start (prev : option char) : bool :=
  match prev with
  | None => true
  | Some c => is_line_terminator c
  end.

Definition at_line_end (s : str) : bool :=
  match s with
  | [] => true
  | c :: _ => is_line_terminator c
  end.

End Js.

Import Js.

(** ** scripts/sync-chapters.js *)

Module Sync.

(** [/Chap_(\d+)(?:-([A-Z]))?/] anchored at the current position: the
    digits of group 1 and the letter of group 2, if it took part. *)
Definition chap_at (_ : option char) (s : str) : option (str * option char) :=
  if startsWith (lit "Chap_") s then
    let r := drop 5 s in
    let ds := span is_digit r in
    match ds with
    | [] => None
    | _ :: _ =>
        match drop (length ds) r with
        | d :: l :: _ =>
            if char_eqb d 45%N && is_upper l then Some (ds, Some l)
            else Some (ds, None)
        | _ => Some (ds, None)
        end
    end
  else None.

(** Chapter order mapping based on file naming convention. *)
Definition getChapterOrder (filename : str) : number :=
  match search chap_at filename with
  | None => Finite 999
  | Some (_, (ds, sub)) =>
      let mainNum := parseInt ds in
      let subNum := match sub with
                    | Some l => Finite (Z.of_N l - 64)
                    | None => Finite 0
                    end in
      num_add (num_mul mainNum (Finite 10)) subNum
  end.

(** Extract frontmatter from markdown: [/^---\n([\s\S]*?)\n---/] can only
    match at index 0; the lazy group ends at the first line feed that is
    followed by three dashes.  The result is group 1 and the length of the
    whole match. *)
Definition frontmatter_at (content : str) : option (str * nat) :=
  if startsWith (lit "---" ++ [LF]) content then
    let rest := drop 4 content in
    match indexOf (LF :: lit "---") rest with
    | Some i => Some (take i rest, 4 + i + 4)
    | None => None
    end
  else None.

Record parsed := { frontmatter : option str; body : str }.

Definition parseFrontmatter (content : str) : parsed :=
  match frontmatter_at content with
  | Some (fm, n) => {| frontmatter := Some fm; body := trim (drop n content) |}
  | None => {| frontmatter := None; body := content |}
  end.

(** The quote-stripping expression of the front-matter parsers, global:
    first alternative a quote at the start of the input, second alternative
    a quote at its end. *)
Definition quote_edge : matcher := fun prev s =>
  match s with
  | c :: t =>
      if is_quote c && (bool_decide (prev = None) || bool_decide (t = []))
      then Some 1 else None
  | [] => None
  end.

Definition strip_quotes (s : str) : str := gsub quote_edge (fun _ => []) s.

(** [obj[key] = value] on an object created by [{}]: assigning a string to
    [__proto__] goes to the inherited setter, which ignores it. *)
Definition obj_set (key value : str) (obj : gmap str str) : gmap str str :=
  if str_eqb key (lit "__proto__") then obj else <[key := value]> obj.

Definition parse_line (obj : gmap str str) (line : str) : gmap str str :=
  match indexOf (lit ":") line with
  | Some (S i) =>
      let colonIdx := S i in
      let key := trim (take colonIdx line) in
      let value := strip_quotes (trim (drop (colonIdx + 1) line)) in
      obj_set key value obj
  | _ => obj
  end.

(** Parse existing YAML frontmatter into object. *)
Definition parseYamlFrontmatter (frontmatterStr : option str) : gmap str str :=
  match frontmatterStr with
  | None | Some [] => ∅
  | Some fm => fold_left parse_line (split LF fm) ∅
  end.

(** [obj.key] used as a condition or as the left operand of [||]: absent
    and empty values are falsy. *)
Definition truthy (obj : gmap str str) (key : str) : option str :=
  match obj !! key with
  | Some (c :: v) => Some (c :: v)
  | _ => None
  end.

(** [/Chap_\d+(?:-[A-Z])?_[^_]+_(.+)\.md$/] anchored at the current
    position: group 1.  No shorter choice of a greedy part can succeed where
    the longest fails: the character after the digits, after the optional
    letter and after the author code would not be the underscore the
    expression asks for. *)
Definition title_at (_ : option char) (s : str) : option str :=
  if startsWith (lit "Chap_") s then
    let r := drop 5 s in
    let ds := span is_digit r in
    match ds with
    | [] => None
    | _ :: _ =>
        let r1 := drop (length ds) r in
        let r2 := match r1 with
                  | d :: l :: r' =>
                      if char_eqb d 45%N && is_upper l then r' else r1
                  | _ => r1
                  end in
        match r2 with
        | u :: r3 =>
            let code := span (fun c => negb (char_eqb c 95%N)) r3 in
            match code, drop (length code) r3 with
            | _ :: _, u' :: r4 =>
                let t := take (length r4 - 3) r4 in
                if char_eqb u 95%N && char_eqb u' 95%N
                   && (4 <=? length r4) && endsWith (lit ".md") r4
                   && forallb is_dot t
                then Some t else None
            | _, _ => None
            end
        | [] => None
        end
    end
  else None.

(** [/_/g] *)
Definition underscore : matcher := fun _ s =>
  match s with
  | c :: _ => if char_eqb c 95%N then Some 1 else None
  | [] => None
  end.

Definition defaultTitle (filename : str) : str :=
  match search title_at filename with
  | Some (_, t) => gsub underscore (fun _ => lit " ") t
  | None => replace_string (lit ".md") [] filename
  end.

(** Values of the generated front matter: [order] is a number, the other
    fields are strings. *)
Inductive value := VNum (n : number) | VStr (s : str).

(** The [fields] object of [generateFrontmatter], as [Object.entries]
    lists it: in the order the properties were added. *)
Definition fields_of (filename : str) (existing : gmap str str)
  : list (str * value) :=
  let order := getChapterOrder filename in
  let keep key :=
    match truthy existing key with
    | Some v => [(key, VStr v)]
    | None => []
    end in
  [ (lit "title", VStr (default (defaultTitle filename)
                                (truthy existing (lit "title"))));
    (lit "order", VNum order) ]
  ++ keep (lit "cover") ++ keep (lit "cover_url") ++ keep (lit "cover_media_id").

Definition yaml_line (kv : str * value) : str :=
  match kv with
  | (key, VNum n) => key ++ lit ": " ++ Number_toString n
  | (key, VStr v) => key ++ lit ": " ++ [34%N] ++ v ++ [34%N]
  end.

(** Generate frontmatter for chapter, preserving existing fields. *)
Definition generateFrontmatter (filename : str) (existingFrontmatter : option str)
  : str :=
  let existing := parseYamlFrontmatter existingFrontmatter in
  let lines := yaml_line <$> fields_of filename existing in
  lit "---" ++ [LF] ++ join [LF] lines ++ [LF] ++ lit "---".

(** The new content of a chapter: a function of the file name and of the
    content read from the project directory. *)
Definition newContent (file content : str) : str :=
  let p := parseFrontmatter content in
  generateFrontmatter file (frontmatter p) ++ [LF; LF] ++ body p.

(** How a script ends: normally, through [process.exit(code)], or with the
    rejection of [main()] that [.catch(console.error)] reports. *)
Inductive outcome := Finished | Exited (code : Z) | Rejected.

(** The exit code of the process: 0 unless [process.exit] set another. *)
Definition exit_code (o : outcome) : Z :=
  match o with
  | Exited c => c
  | Finished | Rejected => 0%Z
  end.

(** The chapter loop of [syncNovel].  [mdFiles] is the listing of the
    project's chapter directory, each name with the content [readFile]
    returns ([None]: the read fails and the error propagates); [site] is
    the content directory, a map from file names to contents. *)
Fixpoint sync_files (mdFiles : list (str * option str)) (site : gmap str str)
  : gmap str str * outcome :=
  match mdFiles with
  | [] => (site, Finished)
  | (file, Some content) :: rest =>
      sync_files rest (<[file := newContent file content]> site)
  | (file, None) :: _ => (site, Rejected)
  end.

(** [syncNovel]: [project] is [None] when the project's chapter directory
    does not exist. *)
Definition syncNovel (project : option (list (str * option str)))
    (site : gmap str str) : gmap str str * outcome :=
  match project with
  | None => (site, Exited 1)
  | Some files =>
      sync_files (List.filter (fun f => endsWith (lit ".md") f.1) files) site
  end.

(** *** Asset mirroring *)

(** A directory entry as [readdir(.., {withFileTypes: true})] returns it:
    a directory with its own entries, or anything else. *)
Inductive entry :=
| File (name : str)
| Dir (name : str) (entries : list entry).

(** A path, as the list of its components below the project root. *)
Definition path := list str.

(** The file-system calls of [copyDir]. *)
Inductive op :=
| Mkdir (dest : path)
| CopyFile (src dest : path).

Definition imageExts : list str :=
  [lit ".jpg"; lit ".jpeg"; lit ".png"; lit ".gif"; lit ".webp"; lit ".svg"].

Section Assets.

(** [String.prototype.toLowerCase], a built-in of the language. *)
Variable toLowerCase : str -> str.

Definition is_image (name : str) : bool :=
  existsb (fun ext => endsWith ext (toLowerCase name)) imageExts.

(** The loop of [copyDir] over the entries of one directory, and [copyDir]
    itself on a directory entry: the count and the calls made, in order. *)
Fixpoint copyEntry (src dest : path) (e : entry) : Z * list op :=
  match e with
  | File name =>
      if is_image name
      then (1%Z, [CopyFile (src ++ [name]) (dest ++ [name])])
      else (0%Z, [])
  | Dir name entries =>
      let srcPath := src ++ [name] in
      let destPath := dest ++ [name] in
      let r :=
        (fix loop (es : list entry) : Z * list op :=
           match es with
           | [] => (0%Z, [])
           | e' :: es' =>
               let a := copyEntry srcPath destPath e' in
               let b := loop es' in
               ((a.1 + b.1)%Z, a.2 ++ b.2)
           end) entries in
      (r.1, Mkdir destPath :: r.2)
  end.

Fixpoint copyEntries (src dest : path) (es : list entry) : Z * list op :=
  match es with
  | [] => (0%Z, [])
  | e :: es' =>
      let a := copyEntry src dest e in
      let b := copyEntries src dest es' in
      ((a.1 + b.1)%Z, a.2 ++ b.2)
  end.

Definition copyDir (src dest : path) (entries : list entry) : Z * list op :=
  let r := copyEntries src dest entries in
  (r.1, Mkdir dest :: r.2).

(** [syncAssets]: the file-system calls made; [assets] is the content of
    the project's [_assets] directory, [None] when the project has no such
    directory.  The public directory is created before [copyDir] is called,
    which creates it once more. *)
Definition syncAssets (assetsDir publicDir : path) (assets : option (list entry))
  : list op :=
  match assets with
  | None => []
  | Some entries => Mkdir publicDir :: (copyDir assetsDir publicDir entries).2
  end.

End Assets.

End Sync.

(** ** scripts/sync-chapters.js, the earlier variant

    The variant of the synchronizer that writes the title and the order
    only.  Its [getChapterOrder], [parseFrontmatter] and [syncNovel], and the
    expression and the replacements it derives the title with, are those of
    the later variant. *)

Module SyncV1.

(** Generate frontmatter for chapter: the existing front matter is not
    looked at. *)
Definition generateFrontmatter (filename : str) (existingFrontmatter : option str)
  : str :=
  let order := Sync.getChapterOrder filename in
  let title := Sync.defaultTitle filename in
  lit "---" ++ [LF] ++ lit "title: " ++ [34%N] ++ title ++ [34%N] ++ [LF]
  ++ lit "order: " ++ Number_toString order ++ [LF] ++ lit "---".

End SyncV1.

(** ** scripts/clean-chapters.js *)

Module Clean.

(** Canonicalisation of the [i] flag on ASCII: a letter matches both of its
    cases; a character outside ASCII never matches an ASCII one. *)
Definition fold_case (c : char) : char :=
  if (97 <=? c)%N && (c <=? 122)%N then (c - 32)%N else c.

Fixpoint startsWith_ci (p s : str) : bool :=
  match p, s with
  | [], _ => true
  | x :: p', y :: s' => char_eqb (fold_case x) (fold_case y) && startsWith_ci p' s'
  | _ :: _, [] => false
  end.

Fixpoint indexOf_ci (p s : str) : option nat :=
  if startsWith_ci p s then Some 0
  else match s with
       | [] => None
       | _ :: t => S <$> indexOf_ci p t
       end.

(** [/<metadata>[\s\S]*?<\/metadata>\s*/gi]: the lazy middle part ends at
    the first closing tag, the trailing white space is taken greedily. *)
Definition metadata_at : matcher := fun _ s =>
  if startsWith_ci (lit "<metadata>") s then
    let rest := drop 10 s in
    match indexOf_ci (lit "</metadata>") rest with
    | Some i => Some (10 + i + 11 + length (span is_space (drop (i + 11) rest)))
    | None => None
    end
  else None.

(** The five labels of the metadata-like bullet lines. *)
Definition label_words : str := [23383; 25976; 30446; 27161]%N.
Definition label_pov : str := lit "POV".
Definition label_timeline : str := [26178; 38291; 36600]%N.
Definition label_theme : str := [26680; 24515; 20027; 38988]%N.
Definition label_scene : str := [22580; 26223]%N.

(** The text a labelled bullet line starts with: dash, space, the label
    between double asterisks, and a full-width colon. *)
Definition bullet (label : str) : str :=
  lit "- **" ++ label ++ lit "**" ++ [65306%N].

(** [/^- \*\*<label>\*\*：.*$/gm]: at the start of a line, the bullet and
    the rest of the line. *)
Definition label_at (label : str) : matcher := fun prev s =>
  if at_line_start prev && startsWith (bullet label) s then
    Some (length (bullet label)
          + length (span is_dot (drop (length (bullet label)) s)))
  else None.

Definition is_lf (c : char) : bool := char_eqb c LF.

(** [/\n{4,}/g] *)
Definition blank_run_at : matcher := fun _ s =>
  let run := span is_lf s in
  if 4 <=? length run then Some (length run) else None.

(** [/(---\n)\n+/g] *)
Definition delimiter_at : matcher := fun _ s =>
  if startsWith (lit "---" ++ [LF]) s then
    match span is_lf (drop 4 s) with
    | [] => None
    | run => Some (4 + length run)
    end
  else None.

Definition erase : str -> str := fun _ => [].

Definition remove_metadata (content : str) : str := gsub metadata_at erase content.

Definition remove_label (label : str) (content : str) : str :=
  gsub (label_at label) erase content.

Definition remove_labels (content : str) : str :=
  remove_label label_scene
    (remove_label label_theme
       (remove_label label_timeline
          (remove_label label_pov
             (remove_label label_words content)))).

(** Clean up excessive blank lines: the replacement is three line feeds. *)
Definition collapse_blank (content : str) : str :=
  gsub blank_run_at (fun _ => [LF; LF; LF]) content.

(** Blank lines right after frontmatter: the replacement is group 1, the
    three dashes and their line feed, followed by one line feed. *)
Definition after_delimiter (content : str) : str :=
  gsub delimiter_at (fun m => take 4 m ++ [LF]) content.

(** The transformation [cleanChapter] applies to the content of a file. *)
Definition clean (content : str) : str :=
  after_delimiter (collapse_blank (remove_labels (remove_metadata content))).

(** [cleanChapter(filePath)] on a store of files: the store afterwards and
    whether the file was modified; [None] when the file cannot be read. *)
Definition cleanChapter (filePath : str) (files : gmap str str)
  : option (gmap str str * bool) :=
  match files !! filePath with
  | None => None
  | Some original =>
      let content := clean original in
      if str_eqb content original then Some (files, false)
      else Some (<[filePath := content]> files, true)
  end.

(** The loop of [main] over the chapter files, with the counter of the
    files cleaned: the store afterwards and the final count, [None] when a
    file cannot be read and the run ends with that rejection.  The store
    holds the files of the chapter directory under their names. *)
Fixpoint clean_each (mdFiles : list str) (files : gmap str str) (cleanedCount : Z)
  : gmap str str * option Z :=
  match mdFiles with
  | [] => (files, Some cleanedCount)
  | file :: rest =>
      match cleanChapter file files with
      | None => (files, None)
      | Some (files', wasModified) =>
          clean_each rest files'
            (if wasModified then (cleanedCount + 1)%Z else cleanedCount)
      end
  end.

(** [main]: [listing] is the result of [readdir] on the chapter directory,
    [None] when the directory cannot be listed. *)
Definition main (listing : option (list str)) (files : gmap str str)
  : gmap str str * option Z :=
  match listing with
  | None => (files, None)
  | Some names => clean_each (List.filter (endsWith (lit ".md")) names) files 0
  end.

End Clean.

(** ** scripts/publish-to-wp.js *)

Module Publish.

(** *** Pure helpers *)

(** Frontmatter and body.  The expression of [parseMarkdown] is the one of
    the synchronizer, followed by a line feed and by a second group that
    takes the rest of the input.  It can only match at index 0; group 1 ends
    at the first line feed followed by three dashes and a line feed. *)
Definition markdown_at (content : str) : option (str * str) :=
  if startsWith (lit "---" ++ [LF]) content then
    let rest := drop 4 content in
    match indexOf (LF :: lit "---" ++ [LF]) rest with
    | Some i => Some (take i rest, drop (i + 5) rest)
    | None => None
    end
  else None.

(** [const [key, ...value] = line.split(':')], then the assignment when the
    key is not empty and there is a colon. *)
Definition parse_line (obj : gmap str str) (line : str) : gmap str str :=
  match split 58%N line with
  | (k :: key) :: v :: value =>
      Sync.obj_set (trim (k :: key))
        (Sync.strip_quotes (trim (join (lit ":") (v :: value)))) obj
  | _ => obj
  end.

Definition parseMarkdown (content : str) : gmap str str * str :=
  match markdown_at content with
  | Some (fm, rest) => (fold_left parse_line (split LF fm) ∅, trim rest)
  | None => (∅, content)
  end.

(** [/projects\/([^/]+)\/chapters/] anchored at the current position:
    group 1. *)
Definition novel_at (_ : option char) (s : str) : option str :=
  if startsWith (lit "projects/") s then
    let rest := drop 9 s in
    let name := span (fun c => negb (char_eqb c 47%N)) rest in
    match name with
    | [] => None
    | _ :: _ =>
        if startsWith (lit "/chapters") (drop (length name) rest)
        then Some name else None
    end
  else None.

(** Get novel slug from file path. *)
Definition getNovelSlug (filepath : str) : option str :=
  snd <$> search novel_at filepath.

(** [/!\[.*?\]\(.*?\)/g]: both lazy parts stay on one line; the first ends
    at the first bracket pair, the second at the first closing
    parenthesis.  A later bracket pair on the line cannot succeed where the
    first one fails. *)
Definition image_at : matcher := fun _ s =>
  if startsWith (lit "![") s then
    let rest := drop 2 s in
    match indexOf (lit "](") rest with
    | Some i =>
        let rest' := drop (i + 2) rest in
        match indexOf (lit ")") rest' with
        | Some k =>
            if forallb is_dot (take i rest) && forallb is_dot (take k rest')
            then Some (2 + i + 2 + k + 1) else None
        | None => None
        end
    | None => None
    end
  else None.

(** The class of the second replacement of [createExcerpt]: hash, asterisk,
    underscore, backquote, global. *)
Definition marker_at : matcher := fun _ s =>
  match s with
  | c :: _ =>
      if (c =? 35)%N || (c =? 42)%N || (c =? 95)%N || (c =? 96)%N
      then Some 1 else None
  | [] => None
  end.

(** [/\n+/g] *)
Definition newlines_at : matcher := fun _ s =>
  match span Clean.is_lf s with
  | [] => None
  | run => Some (length run)
  end.

(** [/\s+\S*$/]: white space, then characters other than white space up to
    the end of the input.  Giving back part of the white space cannot help:
    the rest would then start with white space. *)
Definition word_tail_at : matcher := fun _ s =>
  match span is_space s with
  | [] => None
  | ws =>
      if forallb (fun c => negb (is_space c)) (drop (length ws) s)
      then Some (length s) else None
  end.

Definition plainText (content : str) : str :=
  trim (gsub newlines_at (fun _ => lit " ")
          (gsub marker_at Clean.erase
             (gsub image_at Clean.erase content))).

(** Create excerpt (first 500 characters). *)
Definition createExcerpt_max (content : str) (maxLength : nat) : str :=
  let plain := plainText content in
  if length plain <=? maxLength then plain
  else replace_first word_tail_at Clean.erase (take maxLength plain) ++ lit "...".

Definition createExcerpt (content : str) : str := createExcerpt_max content 500.

(** Generate unique post slug from novel and chapter. *)
Definition generatePostSlug (novelSlug chapterSlug : str) : str :=
  novelSlug ++ lit "-" ++ chapterSlug.

(** *** Requests and responses *)

Inductive method := GET | POST | PUT.

(** The object [postToWordPress] serialises as the body of its request. *)
Record postData := {
  title : str;
  content : str;
  excerpt : str;
  slug : str;
  status : str;
  featured_media : option Z
}.

Inductive payload :=
| NoBody
| PostJson (data : postData)
| AltTextJson (alt_text : str)
| Image (bytes : str).

Record request := {
  endpoint : str;
  method_of : method;
  headers : list (str * str);
  body : payload
}.

Record post := { post_id : Z; post_link : str }.
Record media := { media_id : Z; media_slug : str }.

(** A response of the remote API.  [response.json()] is given at each of
    the shapes the script reads it at; [inl message] is a rejection. *)
Record response := {
  ok : bool;
  status_code : Z;
  text : str;
  json_posts : str + list post;
  json_post : str + post;
  json_media_list : str + list media;
  json_media : str + media
}.

(** The environment of the script: its configuration, the built-ins of the
    language and of Node it calls, and the outside world it reads and
    writes ([inl message] is a rejected promise). *)
Class Runtime := {
  World : Type;
  WP_URL : str;
  WP_USER : option str;
  WP_APP_PASSWORD : option str;
  NOVEL_SITE_URL : str;
  toLowerCase : str -> str;
  basename : str -> str;
  basename_ext : str -> str -> str;
  dirname : str -> str;
  path_join : list str -> str;
  encodeURIComponent : str -> str;
  base64 : str -> str;
  readFile : str -> World -> (str + str) * World;
  access : str -> World -> bool * World;
  fetch : request -> World -> (str + response) * World
}.

(** *** The script as a state and exception monad: console output and the
    requests sent are recorded next to the outside world. *)

Inductive line := Out (s : str) | Err (s : str).

Record state `{Runtime} := {
  world : World;
  console : list line;
  sent : list request
}.

Inductive result (A : Type) :=
| Ok (a : A)
| Throw (message : str)
| Exit (code : Z).
Arguments Ok {A} a.
Arguments Throw {A} message.
Arguments Exit {A} code.

Definition M `{Runtime} (A : Type) : Type := state -> result A * state.

Section Script.
Context `{Runtime}.

Definition ret {A} (a : A) : M A := fun st => (Ok a, st).

Definition bind {A B} (m : M A) (k : A -> M B) : M B := fun st =>
  match m st with
  | (Ok a, st') => k a st'
  | (Throw e, st') => (Throw e, st')
  | (Exit c, st') => (Exit c, st')
  end.

Definition throw {A} (message : str) : M A := fun st => (Throw message, st).

(** [process.exit(code)] *)
Definition exit {A} (code : Z) : M A := fun st => (Exit code, st).

(** [try { m } catch (error) { handler(error.message) }] *)
Definition try_catch (m : M unit) (handler : str -> M unit) : M unit := fun st =>
  match m st with
  | (Throw e, st') => handler e st'
  | r => r
  end.

Definition console_log (s : str) : M unit := fun st =>
  (Ok tt, {| world := world st; console := console st ++ [Out s]; sent := sent st |}).

Definition console_error (s : str) : M unit := fun st =>
  (Ok tt, {| world := world st; console := console st ++ [Err s]; sent := sent st |}).

(** [await p] for a promise of the outside world. *)
Definition await {A} (io : World -> (str + A) * World) : M A := fun st =>
  let (r, w) := io (world st) in
  let st' := {| world := w; console := console st; sent := sent st |} in
  match r with
  | inl e => (Throw e, st')
  | inr a => (Ok a, st')
  end.

Definition await_fetch (rq : request) : M response := fun st =>
  let (r, w) := fetch rq (world st) in
  let st' := {| world := w; console := console st; sent := sent st ++ [rq] |} in
  match r with
  | inl e => (Throw e, st')
  | inr a => (Ok a, st')
  end.

(** [await response.json()] at one of its shapes. *)
Definition await_json {A} (j : str + A) : M A :=
  match j with
  | inl e => throw e
  | inr a => ret a
  end.

End Script.

Notation "'let*' x ':=' m 'in' k" := (bind m (fun x => k))
  (at level 10, x name, m at level 100, k at level 200).
Notation "m ';;' k" := (bind m (fun _ => k))
  (at level 100, k at level 200, right associativity).

Section Requests.
Context `{Runtime}.

(** The names an object literal inherits from [Object.prototype]: looking
    one of them up in the [NOVELS] table gives a value that is not a novel
    and has no title. *)
Definition inherited_names : list str :=
  lit <$> ["constructor"; "__defineGetter__"; "__defineSetter__";
           "hasOwnProperty"; "__lookupGetter__"; "__lookupSetter__";
           "isPrototypeOf"; "propertyIsEnumerable"; "toString"; "valueOf";
           "__proto__"; "toLocaleString"]%string.

(** Novel metadata: [NOVELS[novelSlug].title] as a template shows it, when
    [NOVELS[novelSlug]] is truthy.  The table has one entry; its category
    is not used. *)
Definition novel_title (novelSlug : option str) : option str :=
  match novelSlug with
  | Some slug =>
      if str_eqb slug (lit "2028ww3")
      then Some (lit "2028 " ++ [31532; 19977; 27425; 19990; 30028; 22823; 25136]%N)
      else if existsb (str_eqb slug) inherited_names then Some (lit "undefined")
      else None
  | None => None
  end.

(** [`${WP_USER}`] in a template: the value, or the text of [undefined]. *)
Definition template_of (v : option str) : str := default (lit "undefined") v.

(** Get auth header. *)
Definition getAuthHeader : str :=
  lit "Basic "
  ++ base64 (template_of WP_USER ++ lit ":" ++ template_of WP_APP_PASSWORD).

(** Get chapter URL slug from filename. *)
Definition getChapterSlug (filename : str) : str :=
  gsub Sync.underscore (fun _ => lit "-")
    (toLowerCase (basename_ext filename (lit ".md"))).

Definition posts_url : str := WP_URL ++ lit "/wp-json/wp/v2/posts".
Definition media_url : str := WP_URL ++ lit "/wp-json/wp/v2/media".

(** Search for existing post by slug. *)
Definition findExistingPost (slug : str) : M (option post) :=
  let endpoint :=
    posts_url ++ lit "?slug=" ++ encodeURIComponent slug
    ++ lit "&status=publish,draft" in
  let* response := await_fetch
    {| endpoint := endpoint; method_of := GET;
       headers := [(lit "Authorization", getAuthHeader)];
       body := NoBody |} in
  if negb (ok response) then ret None
  else
    let* posts := await_json (json_posts response) in
    ret (head posts).

(** The class negated in [findExistingMedia]: ASCII letters and digits. *)
Definition is_alnum (c : char) : bool :=
  is_digit c || is_upper c || ((97 <=? c)%N && (c <=? 122)%N).

Definition not_alnum_at : matcher := fun _ s =>
  match s with
  | c :: _ => if is_alnum c then None else Some 1
  | [] => None
  end.

(** Search for existing media by filename. *)
Definition findExistingMedia (filename : str) : M (option media) :=
  let searchName :=
    gsub not_alnum_at (fun _ => lit "-") (basename_ext filename (lit ".jpg")) in
  let endpoint := media_url ++ lit "?search=" ++ encodeURIComponent searchName in
  let* response := await_fetch
    {| endpoint := endpoint; method_of := GET;
       headers := [(lit "Authorization", getAuthHeader)];
       body := NoBody |} in
  if negb (ok response) then ret None
  else
    let* media := await_json (json_media_list response) in
    ret (List.find (fun m => includes (toLowerCase searchName) (media_slug m)) media).

(** The content types of [uploadImageToWordPress], JPEG for an extension
    that is not listed.  (An extension that names an inherited property of
    the table, such as [constructor], is outside the model.) *)
Definition contentType (ext : str) : str :=
  if str_eqb ext (lit "jpg") || str_eqb ext (lit "jpeg") then lit "image/jpeg"
  else if str_eqb ext (lit "png") then lit "image/png"
  else if str_eqb ext (lit "gif") then lit "image/gif"
  else if str_eqb ext (lit "webp") then lit "image/webp"
  else lit "image/jpeg".

Definition warn : str := lit "    " ++ [9888%N; 32%N].
Definition tick : str := [10003%N; 32%N].

(** Upload image to WordPress media library: the identifier of the media,
    [None] for [null]. *)
Definition uploadImageToWordPress (imagePath altText : str) : M (option Z) :=
  let filename := basename imagePath in
  let* readable := await (fun w => let (b, w') := access imagePath w in (inr b, w')) in
  if negb readable then
    console_log (warn ++ lit "Cover image not found: " ++ imagePath);;
    ret None
  else
    let* existing := findExistingMedia filename in
    match existing with
    | Some m =>
        console_log (lit "    " ++ [8635%N] ++ lit " Cover already exists in WP (ID: "
                     ++ number_to_string (media_id m) ++ lit ")");;
        ret (Some (media_id m))
    | None =>
        let* imageBuffer := await (readFile imagePath) in
        let ext := toLowerCase (default [] (last (split 46%N filename))) in
        let* response := await_fetch
          {| endpoint := media_url; method_of := POST;
             headers :=
               [(lit "Authorization", getAuthHeader);
                (lit "Content-Type", contentType ext);
                (lit "Content-Disposition",
                 lit "attachment; filename=" ++ [34%N] ++ filename ++ [34%N])];
             body := Image imageBuffer |} in
        if negb (ok response) then
          console_log (warn ++ lit "Failed to upload cover: " ++ text response);;
          ret None
        else
          let* media := await_json (json_media response) in
          (match altText with
           | [] => ret tt
           | _ :: _ =>
               let* _ := await_fetch
                 {| endpoint := media_url ++ lit "/" ++ number_to_string (media_id media);
                    method_of := PUT;
                    headers :=
                      [(lit "Authorization", getAuthHeader);
                       (lit "Content-Type", lit "application/json")];
                    body := AltTextJson altText |} in
               ret tt
           end);;
          console_log (lit "    " ++ tick ++ lit "Cover uploaded (ID: "
                       ++ number_to_string (media_id media) ++ lit ")");;
          ret (Some (media_id media))
    end.

(** Resolve cover image path. *)
Definition resolveCoverPath (chapterFile coverValue : str) : str :=
  let chapterDir := dirname chapterFile in
  let projectDir := path_join [chapterDir; lit ".."] in
  if negb (includes (lit "/") coverValue)
  then path_join [projectDir; lit "_assets"; lit "chapters"; coverValue]
  else path_join [chapterDir; coverValue].

(** The body of the request of [postToWordPress]; a media identifier that
    is [null] or 0 is not added. *)
Definition make_postData (title content excerpt slug : str)
    (featuredMediaId : option Z) : postData :=
  {| title := title; content := content; excerpt := excerpt; slug := slug;
     status := lit "publish";
     featured_media :=
       match featuredMediaId with
       | Some 0%Z | None => None
       | Some mediaId => Some mediaId
       end |}.

(** The request that saves the post: an update of the existing post, or a
    creation. *)
Definition save_request (existingPost : option post) (data : postData) : request :=
  let (endpoint, method) :=
    match existingPost with
    | Some p => (posts_url ++ lit "/" ++ number_to_string (post_id p), PUT)
    | None => (posts_url, POST)
    end in
  {| endpoint := endpoint; method_of := method;
     headers :=
       [(lit "Authorization", getAuthHeader);
        (lit "Content-Type", lit "application/json")];
     body := PostJson data |}.

(** Post to WordPress (create or update): the saved post and [isUpdate]. *)
Definition postToWordPress (title content excerpt slug : str)
    (featuredMediaId : option Z) : M (post * bool) :=
  let* existingPost := findExistingPost slug in
  let postData := make_postData title content excerpt slug featuredMediaId in
  let* response := await_fetch (save_request existingPost postData) in
  if negb (ok response) then
    throw (lit "WordPress API error: " ++ number_to_string (status_code response)
           ++ lit " - " ++ text response)
  else
    let* result := await_json (json_post response) in
    ret (result, bool_decide (is_Some existingPost)).

Definition dq : str := [34%N].

(** The content of the post: the excerpt, a link to the chapter and the
    closing line, trimmed. *)
Definition wpContent (excerpt chapterUrl novelTitle : str) : str :=
  trim
    ([LF] ++ lit "<p>" ++ excerpt ++ lit "</p>" ++ [LF; LF]
     ++ lit "<p><a href=" ++ dq ++ chapterUrl ++ dq ++ lit " target=" ++ dq
     ++ lit "_blank" ++ dq ++ lit " rel=" ++ dq ++ lit "noopener" ++ dq
     ++ lit "><strong>"
     ++ [55357; 56393; 32; 40670; 27492; 32380; 32396; 38321; 35712; 23436;
         25972; 31456; 31680]%N
     ++ lit "</strong></a></p>" ++ [LF; LF]
     ++ lit "<hr>" ++ [LF; LF]
     ++ lit "<p><em>" ++ [26412; 31456; 31680; 20358; 33258; 12298]%N
     ++ novelTitle
     ++ [12299; 65292; 26356; 22810; 31934; 24425; 20839; 23481; 35531; 21069;
         24448; 32]%N
     ++ lit "<a href=" ++ dq ++ NOVEL_SITE_URL ++ dq ++ lit " target=" ++ dq
     ++ lit "_blank" ++ dq ++ lit ">Novels365</a>"
     ++ [32; 38321; 35712; 12290]%N ++ lit "</em></p>" ++ [LF] ++ lit "      ").

(** The body of the [try] block of [main] for one file. *)
Definition publishFile (file : str) : M unit :=
  let novelSlug := getNovelSlug file in
  match novel_title novelSlug with
  | None => console_log ([8856%N] ++ lit " Skipping " ++ file ++ lit ": Unknown novel")
  | Some novelTitle =>
      let novelSlug := default [] novelSlug in
      console_log (lit "Processing: " ++ basename file);;
      let* content := await (readFile file) in
      let (frontmatter, body) := parseMarkdown content in
      let chapterTitle :=
        default (basename_ext file (lit ".md")) (Sync.truthy frontmatter (lit "title")) in
      let chapterSlug := getChapterSlug file in
      let chapterUrl :=
        NOVEL_SITE_URL ++ lit "/novel/" ++ novelSlug ++ lit "/" ++ chapterSlug in
      let wpSlug := generatePostSlug novelSlug chapterSlug in
      let* featuredMediaId :=
        match Sync.truthy frontmatter (lit "cover") with
        | Some cover =>
            let coverPath := resolveCoverPath file cover in
            console_log (lit "    Cover: " ++ cover);;
            uploadImageToWordPress coverPath (novelTitle ++ lit " - " ++ chapterTitle)
        | None => ret None
        end in
      let wpTitle := [12304%N] ++ novelTitle ++ [12305%N] ++ chapterTitle in
      let excerpt := createExcerpt body in
      let* result :=
        postToWordPress wpTitle (wpContent excerpt chapterUrl novelTitle)
          excerpt wpSlug featuredMediaId in
      let action := tick ++ (if result.2 then lit "Updated" else lit "Created") in
      console_log (lit "  " ++ action ++ lit ": " ++ chapterTitle);;
      console_log (lit "    URL: " ++ post_link result.1);;
      console_log []
  end.

(** The [catch] block of [main]. *)
Definition report_failure (file message : str) : M unit :=
  console_error (lit "  " ++ [10007%N] ++ lit " Failed: " ++ file);;
  console_error (lit "    Error: " ++ message);;
  console_log [].

(** [for (const file of files) { try { .. } catch (error) { .. } }] *)
Fixpoint publish_each (files : list str) : M unit :=
  match files with
  | [] => ret tt
  | file :: rest =>
      try_catch (publishFile file) (report_failure file);;
      publish_each rest
  end.

(** A configuration value used as a condition: unset and empty are falsy. *)
Definition is_set (v : option str) : bool :=
  match v with
  | Some (_ :: _) => true
  | _ => false
  end.

(** Main function; [argv] is [process.argv.slice(2)]. *)
Definition main (argv : list str) : M unit :=
  let files := List.filter (endsWith (lit ".md")) argv in
  match files with
  | [] => console_log (lit "No chapter files to publish.")
  | _ :: _ =>
      if negb (is_set WP_USER) || negb (is_set WP_APP_PASSWORD) then
        console_error
          (lit "Error: WP_USER and WP_APP_PASSWORD environment variables required.");;
        exit 1%Z
      else
        console_log (lit "Publishing " ++ number_to_string (Z.of_nat (length files))
                     ++ lit " chapter(s) to WordPress...");;
        console_log (lit "Novel site: " ++ NOVEL_SITE_URL);;
        console_log [];;
        publish_each files;;
        console_log (lit "Done!")
  end.

(** [main().catch(console.error)] as a process: the final state and the
    exit code, 0 unless [process.exit] gave another. *)
Definition run (argv : list str) (st : state) : Z * state :=
  match main argv st with
  | (Ok _, st') => (0%Z, st')
  | (Throw e, st') => (0%Z, (console_error e st').2)
  | (Exit c, st') => (c, st')
  end.

End Requests.

(** *** Inline images *)

(** The first place where the literal part between the two groups of the
    expression of [convertInlineImages] occurs, a closing bracket, an
    opening parenthesis, one or two dots and [/_assets/]: its index and
    its length. *)
Fixpoint link_start (s : str) : option (nat * nat) :=
  if startsWith (lit "](./_assets/") s then Some (0, 12)
  else if startsWith (lit "](../_assets/") s then Some (0, 13)
  else match s with
       | [] => None
       | _ :: t =>
           match link_start t with
           | Some (i, n) => Some (S i, n)
           | None => None
           end
       end.

(** The expression of [convertInlineImages] anchored at the current
    position: group 1, group 2 and the length of the match.  Both lazy
    groups stay on one line.  Group 1 ends at the first place where the
    literal part occurs, group 2 at the first closing parenthesis after
    it; where that fails, for a line terminator in one of the groups or for
    want of a closing parenthesis, a later place on the same line fails for
    the same reason. *)
Definition asset_link_at (s : str) : option (str * str * nat) :=
  if startsWith (lit "![") s then
    let rest := drop 2 s in
    match link_start rest with
    | Some (i, n) =>
        let after := drop (i + n) rest in
        match indexOf (lit ")") after with
        | Some k =>
            if forallb is_dot (take i rest) && forallb is_dot (take k after)
            then Some (take i rest, take k after, 2 + i + n + k + 1)
            else None
        | None => None
        end
    | None => None
    end
  else None.

Definition asset_link : matcher := fun _ s =>
  match asset_link_at s with
  | Some (_, _, n) => Some n
  | None => None
  end.

Section Images.
Context `{Runtime}.

(** The replacement function of [convertInlineImages]: it is called with
    the match and its two groups, which are those of the expression on the
    matched text. *)
Definition absolute_link (novelSlug : str) (matched : str) : str :=
  match asset_link_at matched with
  | Some (alt, path, _) =>
      let imageUrl :=
        NOVEL_SITE_URL ++ lit "/assets/" ++ novelSlug ++ lit "/" ++ path in
      lit "![" ++ alt ++ lit "](" ++ imageUrl ++ lit ")"
  | None => matched
  end.

(** Convert inline markdown images to use Novels365 URLs. *)
Definition convertInlineImages (markdown novelSlug : str) : str :=
  gsub asset_link (absolute_link novelSlug) markdown.

End Images.

End Publish.

(** * Vocabulary of the properties

    The notions the statements below are phrased with: they describe inputs
    and outputs, and are not part of the scripts. *)

Module Spec.
Import Sync.

(** ** File names *)

(** The file name [Chap_<N>[-<L>]_<rest>] of the naming convention, from
    its parts. *)
Definition chapter_name (N : str) (L : option char) (rest : str) : str :=
  lit "Chap_" ++ N
  ++ match L with Some l => [45%N; l] | None => [] end
  ++ 95%N :: rest.

(** A file name conforms to the convention when it is built that way from a
    non-empty string of digits and, if any, an upper-case letter. *)
Definition Conforming (filename : str) : Prop :=
  exists N L rest,
    N <> [] /\ forallb is_digit N = true
    /\ (forall l, L = Some l -> is_upper l = true)
    /\ filename = chapter_name N L rest.

(** The upper-case letters, in order. *)
Definition alphabet : str := lit "ABCDEFGHIJKLMNOPQRSTUVWXYZ".

(** Position of a letter in the alphabet, A=1; 0 without a letter. *)
Definition alphabet_position (L : option char) : Z :=
  match L with
  | Some l =>
      match indexOf [l] alphabet with
      | Some i => Z.of_nat (S i)
      | None => 0%Z
      end
  | None => 0%Z
  end.

(** The chapter number a string of digits writes. *)
Definition chapter_number (N : str) : Z := integer_of N.

(** An order key that the arithmetic of [getChapterOrder] computes without
    rounding: at most 2^53. *)
Definition exact_key (key : Z) : Prop := (key <= 2 ^ 53)%Z.

(** A number that is 0 or more, infinite included. *)
Definition nonnegative (x : number) : Prop :=
  match x with
  | Finite z => (0 <= z)%Z
  | PlusInfinity => True
  | MinusInfinity | NotANumber => False
  end.

(** The order of numbers; [NaN] is not comparable. *)
Definition number_lt (x y : number) : Prop :=
  match x, y with
  | Finite a, Finite b => (a < b)%Z
  | Finite _, PlusInfinity | MinusInfinity, Finite _
  | MinusInfinity, PlusInfinity => True
  | _, _ => False
  end.

(** No [Chap_] followed by a digit anywhere in the name. *)
Definition NoChapterNumber (filename : str) : Prop :=
  forall a b c, filename = a ++ lit "Chap_" ++ c :: b -> is_digit c = false.

(** A title with its underscores shown as spaces. *)
Definition spaced (title : str) : str :=
  (fun c => if char_eqb c 95%N then 32%N else c) <$> title.

(** ** Front matter *)

(** The front matter of a chapter file, as the synchronizer reads it. *)
Definition front_matter_of (content : str) : gmap str str :=
  parseYamlFrontmatter (frontmatter (parseFrontmatter content)).

(** The fields with cross-run persistence. *)
Definition cover_keys : list str :=
  [lit "cover"; lit "cover_url"; lit "cover_media_id"].

(** The names of a directory listing. *)
Definition names (files : list (str * option str)) : list str := fst <$> files.

(** A destination file with a cover, and a source file without front
    matter. *)
Definition site_with_cover : str :=
  lit "---" ++ [LF] ++ lit "cover: " ++ [34%N] ++ lit "x.jpg" ++ [34%N]
  ++ [LF] ++ lit "---" ++ [LF; LF] ++ lit "Body".

(** The keys of the generated front matter. *)
Definition generated_keys : list str :=
  [lit "title"; lit "order"; lit "cover"; lit "cover_url"; lit "cover_media_id"].

(** A field of the generated front matter: one of its keys, with a value
    that fits on a line. *)
Definition good_field (kv : str * value) : Prop :=
  In kv.1 generated_keys
  /\ match kv.2 with VStr v => Forall (fun c => c <> LF) v | VNum _ => True end.

(** The text of a value, as a line of the front matter shows it. *)
Definition text_of (v : value) : str :=
  match v with
  | VStr s => s
  | VNum n => Number_toString n
  end.

(** The cover fields kept from the source. *)
Definition kept (existing : gmap str str) (key : str) (obj : gmap str str)
  : gmap str str :=
  match truthy existing key with
  | Some v => <[key := v]> obj
  | None => obj
  end.

(** The characters of the text of a number: digits, the signs, the point
    and the exponent mark, and the letters of [Infinity] and [NaN]. *)
Definition number_char (c : char) : Prop :=
  In c (lit "0123456789-+.eInfinityNaN").

(** A text without the quote it starts with, if any, and without the quote
    it ends with, if any; the two need not be of the same kind. *)
Definition unquote_start (s : str) : str :=
  match s with
  | c :: t => if is_quote c then t else s
  | [] => []
  end.

Definition unquote_end (s : str) : str :=
  match last s with
  | Some c => if is_quote c then take (length s - 1) s else s
  | None => []
  end.

Definition unquote (s : str) : str := unquote_end (unquote_start s).

(** ** Assets *)

(** The files below a list of directory entries: for each entry that is
    not a directory, the directories leading to it and its name. *)
Fixpoint entry_files (e : entry) : list (path * str) :=
  match e with
  | File name => [([], name)]
  | Dir name entries =>
      (fun f => (name :: f.1, f.2))
        <$> (fix all (es : list entry) : list (path * str) :=
               match es with
               | [] => []
               | e' :: es' => entry_files e' ++ all es'
               end) entries
  end.

(** The files below the entries of a directory. *)
Definition files_under (entries : list entry) : list (path * str) :=
  concat (entry_files <$> entries).

(** The calls that copy a file. *)
Definition is_copy (o : op) : bool :=
  match o with
  | CopyFile _ _ => true
  | Mkdir _ => false
  end.

(** The copies due for a list of files: one for each file whose name is
    that of an image. *)
Definition copies_spec (toLowerCase : str -> str) (src dest : path)
    (files : list (path * str)) (o : op) : Prop :=
  exists rel name,
    In (rel, name) files /\ is_image toLowerCase name = true
    /\ o = CopyFile (src ++ rel ++ [name]) (dest ++ rel ++ [name]).

(** The directories below a list of directory entries, each as the path
    that leads to it. *)
Fixpoint entry_dirs (e : entry) : list path :=
  match e with
  | File _ => []
  | Dir name entries =>
      [name]
      :: ((fun d => name :: d)
            <$> (fix all (es : list entry) : list path :=
                   match es with
                   | [] => []
                   | e' :: es' => entry_dirs e' ++ all es'
                   end) entries)
  end.

Definition dirs_under (entries : list entry) : list path :=
  concat (entry_dirs <$> entries).

(** Every copy of [ops] goes into a directory of [made] or into one that an
    earlier call of [ops] has created. *)
Fixpoint copies_into (made : list path) (ops : list op) : Prop :=
  match ops with
  | [] => True
  | Mkdir d :: ops' => copies_into (d :: made) ops'
  | CopyFile _ to :: ops' =>
      (exists dir name, to = dir ++ [name] /\ In dir made) /\ copies_into made ops'
  end.

(** ** Texts and matchers *)

(** A probe: the text [x] occurs at the current position. *)
Definition occurs_at (x : str) : matcher := fun _ s =>
  if startsWith x s then Some 0 else None.

(** The text [x] occurs nowhere in [s]. *)
Definition absent (x s : str) : Prop := forall a b, s <> a ++ x ++ b.

(** A matcher that matches at least one character, and no more than there
    are. *)
Definition proper (m : matcher) : Prop :=
  forall p s n, m p s = Some n -> 0 < n <= length s.

(** A text that does not start with a line feed. *)
Definition no_leading_lf (s : str) : Prop :=
  match s with
  | [] => True
  | c :: _ => c <> LF
  end.

(** [squeeze p s s']: [s'] is [s] without some line feeds, each of which
    directly follows a line feed ([p] is the character before [s]). *)
Inductive squeeze : option char -> str -> str -> Prop :=
| squeeze_nil p : squeeze p [] []
| squeeze_keep p c s s' : squeeze (Some c) s s' -> squeeze p (c :: s) (c :: s')
| squeeze_drop s s' : squeeze (Some LF) s s' -> squeeze (Some LF) (LF :: s) s'.

(** [erase_lines p s s']: [s'] is [s] with the text of some lines removed,
    from the start of the line up to its end. *)
Inductive erase_lines : option char -> str -> str -> Prop :=
| erase_nil p : erase_lines p [] []
| erase_keep p c s s' :
    erase_lines (Some c) s s' -> erase_lines p (c :: s) (c :: s')
| erase_last p d :
    at_line_start p = true -> forallb is_dot d = true -> erase_lines p d []
| erase_line p d c s s' :
    at_line_start p = true -> forallb is_dot d = true ->
    is_line_terminator c = true ->
    erase_lines (Some c) s s' -> erase_lines p (d ++ c :: s) (c :: s').

(** A bullet without its dash. *)
Definition bullet_tail (label : str) : str :=
  [32; 42; 42]%N ++ label ++ [42; 42; 65306]%N.

(** The labels of the five bullet lines the cleaner removes. *)
Definition labels : list str :=
  [Clean.label_words; Clean.label_pov; Clean.label_timeline; Clean.label_theme;
   Clean.label_scene].

(** There is a metadata block in [s]: the expression of the first step of
    the cleaner matches somewhere. *)
Definition metadata_block (s : str) : bool :=
  if search Clean.metadata_at s is Some _ then true else false.

(** Removing one metadata block can put the two halves of another one
    together. *)
Definition nested_metadata : str :=
  lit "<meta<metadata></metadata>data></metadata>".

(** A chapter with front matter, a metadata block, a labelled bullet and
    six blank lines. *)
Definition sample_chapter : str :=
  lit "---" ++ [LF] ++ lit "title: One" ++ [LF] ++ lit "---" ++ [LF; LF; LF]
  ++ lit "<metadata>" ++ [LF] ++ lit "draft 3" ++ [LF] ++ lit "</metadata>" ++ [LF]
  ++ Clean.bullet Clean.label_pov ++ lit "Lin" ++ [LF]
  ++ lit "First." ++ [LF; LF; LF; LF; LF; LF; LF] ++ lit "Second." ++ [LF].

(** A body of 600 letters without white space. *)
Definition long_word : str := repeat 97%N 600.

(** A body of 120 words: 599 characters of plain text. *)
Definition long_text : str := concat (repeat (lit "word ") 120).

(** A file of the store that the cleaner would change. *)
Definition needs_cleaning (files : gmap str str) (file : str) : bool :=
  match files !! file with
  | Some content => negb (str_eqb (Clean.clean content) content)
  | None => false
  end.

(** The characters that [createExcerpt] strips or replaces: the four
    Markdown markers and the line feed. *)
Definition is_markup (c : char) : bool :=
  (c =? 35)%N || (c =? 42)%N || (c =? 95)%N || (c =? 96)%N || (c =? 10)%N.


(** ** The publisher *)

(** A small runtime to run the publisher on examples: ASCII lower-casing,
    paths handled at their last slash, identity encodings, a file system
    in which the files listed in [unreadable] cannot be read and no cover
    is accessible, and a remote site that answers every request with
    success and, to a look-up of posts, with the list [remote]. *)
Definition demo_lower (s : str) : str :=
  (fun c => if is_upper c then (c + 32)%N else c) <$> s.

(** The part of a path after its last slash. *)
Definition demo_basename (p : str) : str :=
  default [] (last (split 47%N p)).

(** A name without the extension [ext], if it ends with it. *)
Definition demo_strip (ext s : str) : str :=
  if endsWith ext s then take (length s - length ext) s else s.

(** The part of a path before its last slash. *)
Definition demo_dirname (p : str) : str :=
  take (length p - length (demo_basename p) - 1) p.

(** The answer of the remote site of the examples. *)
Definition demo_response (remote : list Publish.post) : Publish.response :=
  {| Publish.ok := true; Publish.status_code := 200%Z; Publish.text := [];
     Publish.json_posts := inr remote;
     Publish.json_post :=
       inr {| Publish.post_id := 7%Z; Publish.post_link := lit "https://blog.example/?p=7" |};
     Publish.json_media_list := inr [];
     Publish.json_media :=
       inr {| Publish.media_id := 9%Z; Publish.media_slug := lit "cover" |} |}.

(** The runtime of the examples; [user] is the value of [WP_USER]. *)
Definition demo_runtime (user : option str) (unreadable : list str)
    (remote : list Publish.post) : Publish.Runtime :=
  {| Publish.World := unit;
     Publish.WP_URL := lit "https://blog.example";
     Publish.WP_USER := user;
     Publish.WP_APP_PASSWORD := Some (lit "secret");
     Publish.NOVEL_SITE_URL := lit "https://novels.example";
     Publish.toLowerCase := demo_lower;
     Publish.basename := demo_basename;
     Publish.basename_ext := fun p ext => demo_strip ext (demo_basename p);
     Publish.dirname := demo_dirname;
     Publish.path_join := join (lit "/");
     Publish.encodeURIComponent := fun s => s;
     Publish.base64 := fun s => s;
     Publish.readFile := fun p w =>
       if existsb (str_eqb p) unreadable then (inl (lit "ENOENT"), w)
       else (inr (lit "Some text."), w);
     Publish.access := fun _ w => (false, w);
     Publish.fetch := fun _ w => (inr (demo_response remote), w) |}.

(** The state in which the examples start. *)
Definition demo_state (user : option str) (unreadable : list str)
    (remote : list Publish.post)
  : @Publish.state (demo_runtime user unreadable remote) :=
  @Publish.Build_state (demo_runtime user unreadable remote) tt [] [].

(** The state after the [catch] block has reported the failure of a file. *)
Definition reported `{Publish.Runtime} (file message : str) (st : Publish.state)
  : Publish.state :=
  {| Publish.world := Publish.world st;
     Publish.console :=
       Publish.console st
       ++ [Publish.Err (lit "  " ++ [10007%N] ++ lit " Failed: " ++ file);
           Publish.Err (lit "    Error: " ++ message);
           Publish.Out []];
     Publish.sent := Publish.sent st |}.

(** The state after a line has been written to the console. *)
Definition logged `{Publish.Runtime} (l : Publish.line) (st : Publish.state)
  : Publish.state :=
  {| Publish.world := Publish.world st;
     Publish.console := Publish.console st ++ [l];
     Publish.sent := Publish.sent st |}.

(** A computation that never ends the process. *)
Definition no_exit `{Publish.Runtime} {A} (m : Publish.M A) : Prop :=
  forall st c st', m st <> (Publish.Exit c, st').

(** The path [<pre>projects/<name>/chapters<rest>]. *)
Definition chapter_path (pre name rest : str) : str :=
  pre ++ lit "projects/" ++ name ++ lit "/chapters" ++ rest.

(** The requests a computation adds to the log of the requests sent
    satisfy [T], whatever the state it starts from. *)
Definition sends `{Publish.Runtime} {A} (T : list Publish.request -> Prop)
    (m : Publish.M A) : Prop :=
  forall st, exists new,
    Publish.sent (m st).2 = Publish.sent st ++ new /\ T new.

(** A request to the REST API of the configured site that carries the
    authorization header. *)
Definition api_request `{Publish.Runtime} (rq : Publish.request) : Prop :=
  (exists rest,
      Publish.endpoint rq = Publish.WP_URL ++ lit "/wp-json/wp/v2/" ++ rest)
  /\ In (lit "Authorization", Publish.getAuthHeader) (Publish.headers rq).

(** The requests that save a post, and those that upload an image. *)
Definition is_save (rq : Publish.request) : bool :=
  match Publish.body rq with
  | Publish.PostJson _ => true
  | _ => false
  end.

Definition is_upload (rq : Publish.request) : bool :=
  match Publish.body rq with
  | Publish.Image _ => true
  | _ => false
  end.

(** Requests to the API, with at most [saves] posts saved and [uploads]
    images uploaded. *)
Definition within `{Publish.Runtime} (saves uploads : nat)
    (new : list Publish.request) : Prop :=
  Forall api_request new
  /\ length (List.filter is_save new) <= saves
  /\ length (List.filter is_upload new) <= uploads.

(** A computation that sends no request and leaves the outside world as it
    is. *)
Definition quiet `{Publish.Runtime} {A} (m : Publish.M A) : Prop :=
  forall st,
    Publish.sent (m st).2 = Publish.sent st
    /\ Publish.world (m st).2 = Publish.world st.

(** The name [findExistingMedia] searches the media library for, and its
    request. *)
Definition media_search_name `{Publish.Runtime} (filename : str) : str :=
  gsub Publish.not_alnum_at (fun _ => lit "-")
    (Publish.basename_ext filename (lit ".jpg")).

Definition media_search `{Publish.Runtime} (filename : str) : Publish.request :=
  {| Publish.endpoint :=
       (Publish.WP_URL ++ lit "/wp-json/wp/v2/media") ++ lit "?search="
       ++ Publish.encodeURIComponent (media_search_name filename);
     Publish.method_of := Publish.GET;
     Publish.headers := [(lit "Authorization", Publish.getAuthHeader)];
     Publish.body := Publish.NoBody |}.

(** The answer of a remote site with a media library: a search of the
    library is answered with [library]. *)
Definition library_response (library : list Publish.media) : Publish.response :=
  {| Publish.ok := true; Publish.status_code := 200%Z; Publish.text := [];
     Publish.json_posts := inr [];
     Publish.json_post :=
       inr {| Publish.post_id := 7%Z; Publish.post_link := lit "https://blog.example/?p=7" |};
     Publish.json_media_list := inr library;
     Publish.json_media :=
       inr {| Publish.media_id := 9%Z; Publish.media_slug := lit "cover" |} |}.

(** The runtime of the examples with a media library: as [demo_runtime],
    but every file can be read and the remote site has the library. *)
Definition library_runtime (library : list Publish.media) : Publish.Runtime :=
  let R := demo_runtime (Some (lit "user")) [] [] in
  {| Publish.World := unit;
     Publish.WP_URL := @Publish.WP_URL R;
     Publish.WP_USER := @Publish.WP_USER R;
     Publish.WP_APP_PASSWORD := @Publish.WP_APP_PASSWORD R;
     Publish.NOVEL_SITE_URL := @Publish.NOVEL_SITE_URL R;
     Publish.toLowerCase := demo_lower;
     Publish.basename := demo_basename;
     Publish.basename_ext := fun p ext => demo_strip ext (demo_basename p);
     Publish.dirname := demo_dirname;
     Publish.path_join := join (lit "/");
     Publish.encodeURIComponent := fun s => s;
     Publish.base64 := fun s => s;
     Publish.readFile := fun _ w => (inr (lit "bytes"), w);
     Publish.access := fun _ w => (true, w);
     Publish.fetch := fun _ w => (inr (library_response library), w) |}.

(** The state in which the loop of [main] leaves a file: the state after
    the [try] block, followed by the report of the [catch] block when the
    block raised an exception. *)
Definition handled `{Publish.Runtime} (st : Publish.state) (file : str)
  : Publish.state :=
  match Publish.publishFile file st with
  | (Publish.Throw e, st') => reported file e st'
  | (_, st') => st'
  end.

(** The state after the three lines that [main] prints before the loop. *)
Definition announced `{Publish.Runtime} (count : nat) (st : Publish.state)
  : Publish.state :=
  logged (Publish.Out [])
    (logged (Publish.Out (lit "Novel site: " ++ Publish.NOVEL_SITE_URL))
       (logged (Publish.Out (lit "Publishing " ++ number_to_string (Z.of_nat count)
                             ++ lit " chapter(s) to WordPress..."))
          st)).

(** The lines of the console written with [console.error]. *)
Definition is_error (l : Publish.line) : bool :=
  match l with
  | Publish.Err _ => true
  | Publish.Out _ => false
  end.

(** A chapter whose front matter names a cover. *)
Definition chapter_with_cover : str :=
  lit "---" ++ [LF] ++ lit "title: Dawn" ++ [LF] ++ lit "cover: missing.jpg" ++ [LF]
  ++ lit "---" ++ [LF; LF] ++ lit "Some text.".

(** The runtime of the examples with covers that do not exist: as
    [demo_runtime], but every chapter read is [chapter_with_cover]; no cover
    is accessible. *)
Definition cover_runtime : Publish.Runtime :=
  let R := demo_runtime (Some (lit "user")) [] [] in
  {| Publish.World := unit;
     Publish.WP_URL := @Publish.WP_URL R;
     Publish.WP_USER := @Publish.WP_USER R;
     Publish.WP_APP_PASSWORD := @Publish.WP_APP_PASSWORD R;
     Publish.NOVEL_SITE_URL := @Publish.NOVEL_SITE_URL R;
     Publish.toLowerCase := demo_lower;
     Publish.basename := demo_basename;
     Publish.basename_ext := fun p ext => demo_strip ext (demo_basename p);
     Publish.dirname := demo_dirname;
     Publish.path_join := join (lit "/");
     Publish.encodeURIComponent := fun s => s;
     Publish.base64 := fun s => s;
     Publish.readFile := fun _ w => (inr chapter_with_cover, w);
     Publish.access := fun _ w => (false, w);
     Publish.fetch := fun _ w => (inr (demo_response []), w) |}.

End Spec.

(** * Properties *)

(** ** Facts about the string primitives *)

Section JsFacts.

Lemma char_eqb_eq (a b : char) : char_eqb a b = true <-> a = b.
Proof. apply N.eqb_eq. Qed.

Lemma char_eqb_refl (a : char) : char_eqb a a = true.
Proof. apply N.eqb_refl. Qed.

Lemma str_eqb_eq (a b : str) : str_eqb a b = true <-> a = b.
Proof.
  revert b; induction a as [|x a IH]; intros [|y b]; simpl; split;
    try congruence; try done.
  - intros [Hx Hab]%andb_true_iff. apply char_eqb_eq in Hx.
    apply IH in Hab. congruence.
  - intros [= -> ->]. rewrite char_eqb_refl. simpl. by apply IH.
Qed.

Lemma startsWith_app (p s : str) : startsWith p (p ++ s) = true.
Proof. induction p as [|x p IH]; simpl; [done|]. by rewrite char_eqb_refl. Qed.

Lemma startsWith_eq (p s : str) :
  startsWith p s = true -> s = p ++ drop (length p) s.
Proof.
  revert s; induction p as [|x p IH]; intros [|y s]; simpl; try done.
  intros [Hx Hp]%andb_true_iff. apply char_eqb_eq in Hx. subst y.
  f_equal. by apply IH.
Qed.

Lemma startsWith_iff (p s : str) :
  startsWith p s = true <-> exists r, s = p ++ r.
Proof.
  split.
  - intros Hs. eexists. by apply startsWith_eq.
  - intros [r ->]. apply startsWith_app.
Qed.

Lemma span_all (f : char -> bool) (a r : str) :
  forallb f a = true ->
  match r with [] => True | c :: _ => f c = false end ->
  span f (a ++ r) = a.
Proof.
  intros Ha Hr. induction a as [|x a IH]; simpl in *.
  - destruct r as [|c r]; simpl; [done|]. by rewrite Hr.
  - apply andb_true_iff in Ha as [-> Ha]. f_equal. by apply IH.
Qed.

Lemma span_app (f : char -> bool) (s : str) :
  s = span f s ++ drop (length (span f s)) s.
Proof.
  induction s as [|c s IH]; simpl; [done|].
  destruct (f c); simpl; [by f_equal|done].
Qed.

Lemma span_forallb (f : char -> bool) (s : str) : forallb f (span f s) = true.
Proof.
  induction s as [|c s IH]; simpl; [done|].
  destruct (f c) eqn:E; simpl; [by rewrite E|done].
Qed.

Lemma span_stop (f : char -> bool) (s : str) :
  match drop (length (span f s)) s with
  | [] => True
  | c :: _ => f c = false
  end.
Proof.
  induction s as [|c s IH]; simpl; [done|].
  destruct (f c) eqn:E; simpl; [done|by rewrite E].
Qed.

Lemma span_length_le (f : char -> bool) (s : str) : length (span f s) <= length s.
Proof.
  induction s as [|c s IH]; simpl; [done|]. destruct (f c); simpl; lia.
Qed.

Lemma search_here {A} (m : option char -> str -> option A) (s : str) (a : A) :
  m None s = Some a -> search m s = Some ([], a).
Proof. unfold search. destruct s; simpl; by intros ->. Qed.

Lemma search_from_none {A} (m : option char -> str -> option A) (s : str) :
  (forall p a b, s = a ++ b -> m p b = None) ->
  forall p, search_from m p s = None.
Proof.
  induction s as [|c s IH]; intros Hm p; simpl.
  - by rewrite (Hm p [] []).
  - rewrite (Hm p [] (c :: s) eq_refl).
    rewrite IH; [done|]. intros q a b ->. by apply (Hm q (c :: a) b).
Qed.

End JsFacts.

(** ** Order keys of chapter files *)

Module OrderFacts.
Import Sync Spec.

Lemma alphabet_position_code (l : char) :
  is_upper l = true -> alphabet_position (Some l) = (Z.of_N l - 64)%Z.
Proof.
  unfold is_upper. intros [H1 H2]%andb_true_iff.
  apply N.leb_le in H1, H2.
  assert (Hall : Forall (fun n => alphabet_position (Some (N.of_nat n))
                                  = (Z.of_N (N.of_nat n) - 64)%Z) (seq 65 26)).
  { repeat constructor. }
  rewrite List.Forall_forall in Hall.
  specialize (Hall (N.to_nat l)). rewrite N2Nat.id in Hall.
  apply Hall, in_seq. lia.
Qed.

Lemma chap_at_chapter_name p N L rest :
  N <> [] -> forallb is_digit N = true ->
  (forall l, L = Some l -> is_upper l = true) ->
  chap_at p (chapter_name N L rest) = Some (N, L).
Proof.
  intros HN Hd HL. unfold chap_at, chapter_name.
  rewrite startsWith_app. change (drop 5 (lit "Chap_" ++ ?x)) with x.
  rewrite span_all; [|done|].
  - destruct N as [|d N]; [done|]. rewrite drop_app_length.
    destruct L as [l|]; simpl.
    + by rewrite (HL l eq_refl).
    + destruct rest as [|c rest]; done.
  - destruct L; done.
Qed.

Lemma integer_of_nonneg_from ds acc :
  forallb is_digit ds = true -> (0 <= acc)%Z ->
  (0 <= fold_left (fun a c => a * 10 + digit_value c) ds acc)%Z.
Proof.
  revert acc; induction ds as [|d ds IH]; intros acc Hd Hacc; simpl; [done|].
  simpl in Hd. apply andb_true_iff in Hd as [Hd Hds]. apply IH; [done|].
  unfold is_digit in Hd. apply andb_true_iff in Hd as [H1 H2].
  apply N.leb_le in H1, H2. unfold digit_value. lia.
Qed.

Lemma integer_of_nonneg ds : forallb is_digit ds = true -> (0 <= integer_of ds)%Z.
Proof. intros Hd. by apply integer_of_nonneg_from. Qed.

(** Up to 2^53 the integers are numbers, and the arithmetic is exact. *)
Lemma number_of_exact z : (Z.abs z <= 2 ^ 53)%Z -> number_of z = Finite z.
Proof. intros Hz. unfold number_of. by rewrite (proj2 (Z.leb_le _ _) Hz). Qed.

Lemma exact_order_arithmetic n sub :
  (0 <= n)%Z -> (0 <= sub)%Z -> exact_key (n * 10 + sub) ->
  num_add (num_mul (number_of n) (Finite 10)) (Finite sub) = Finite (n * 10 + sub).
Proof.
  unfold exact_key. intros Hn Hsub Hkey.
  rewrite (number_of_exact n) by lia. cbn [num_mul].
  rewrite number_of_exact by lia. cbn [num_add].
  by rewrite number_of_exact by lia.
Qed.

Lemma alphabet_position_nonneg L : (0 <= alphabet_position L)%Z.
Proof.
  unfold alphabet_position. destruct L as [l|]; [|done].
  destruct (indexOf [l] alphabet); lia.
Qed.

Lemma order_of_chapter_name_rounded N L rest :
  N <> [] -> forallb is_digit N = true ->
  (forall l, L = Some l -> is_upper l = true) ->
  getChapterOrder (chapter_name N L rest)
  = num_add (num_mul (parseInt N) (Finite 10)) (Finite (alphabet_position L)).
Proof.
  intros HN Hd HL. unfold getChapterOrder.
  rewrite (search_here _ _ _ (chap_at_chapter_name None N L rest HN Hd HL)).
  destruct L as [l|]; [|done].
  by rewrite alphabet_position_code; [|apply HL].
Qed.

Lemma order_of_chapter_name N L rest :
  N <> [] -> forallb is_digit N = true ->
  (forall l, L = Some l -> is_upper l = true) ->
  exact_key (chapter_number N * 10 + alphabet_position L) ->
  getChapterOrder (chapter_name N L rest)
  = Finite (chapter_number N * 10 + alphabet_position L).
Proof.
  intros HN Hd HL Hkey. rewrite order_of_chapter_name_rounded by done.
  apply exact_order_arithmetic; [by apply integer_of_nonneg| |done].
  apply alphabet_position_nonneg.
Qed.

Lemma order_sentinel filename :
  NoChapterNumber filename -> getChapterOrder filename = Finite 999.
Proof.
  intros Hno. unfold getChapterOrder, search.
  rewrite search_from_none; [done|].
  intros p a b ->. unfold chap_at.
  destruct (startsWith (lit "Chap_") b) eqn:Hs; [|done].
  apply startsWith_eq in Hs. change (length (lit "Chap_")) with 5 in Hs.
  destruct (drop 5 b) as [|c r] eqn:Hr; [done|].
  simpl. rewrite (Hno a r c); [done|]. by rewrite Hs at 1.
Qed.

End OrderFacts.

Section OrderKey.
Import Sync Spec OrderFacts.

Lemma conforming_chapter_name N L rest :
  N <> [] -> forallb is_digit N = true ->
  (forall l, L = Some l -> is_upper l = true) ->
  Conforming (chapter_name N L rest).
Proof. intros. by exists N, L, rest. Qed.




(** Beyond 2^53 the arithmetic rounds: a sub-chapter can get the key of its
    main chapter. *)
Example order_key_rounded :
  getChapterOrder (lit "Chap_900719925474100_AB_Title.md") = Finite 9007199254741000
  /\ getChapterOrder (lit "Chap_900719925474100-A_AB_Title.md") = Finite 9007199254741000.
Proof. split; by vm_compute. Qed.

(** C10: the order key is not injective over conforming file names.
    [Chap_1-J_...] and [Chap_2_...] are distinct, conform, have different
    chapter and sub-chapter indices, and both get 20; in general, where the
    keys are computed without rounding (up to 2^53), a sub-chapter with a
    letter from J to Z is ordered at or after the next main chapter. *)
Theorem order_key_collision :
  (exists f1 f2,
      f1 = chapter_name (lit "1") (Some 74%N) (lit "AB_Title.md")
      /\ f2 = chapter_name (lit "2") None (lit "AB_Title.md")
      /\ Conforming f1 /\ Conforming f2 /\ f1 <> f2
      /\ getChapterOrder f1 = Finite 20 /\ getChapterOrder f2 = Finite 20)
  /\ (forall N N' l rest rest',
         N <> [] -> forallb is_digit N = true ->
         N' <> [] -> forallb is_digit N' = true ->
         chapter_number N' = (chapter_number N + 1)%Z ->
         (74 <= l <= 90)%N ->
         exact_key (chapter_number N * 10 + alphabet_position (Some l)) ->
         exists next sub,
           getChapterOrder (chapter_name N' None rest') = Finite next
           /\ getChapterOrder (chapter_name N (Some l) rest) = Finite sub
           /\ (next <= sub)%Z).
Proof.
  split.
  - eexists _, _. split; [reflexivity|]. split; [reflexivity|].
    split; [|split; [|split; [|split]]]; try (by vm_compute); try discriminate.
    + apply conforming_chapter_name; [discriminate|reflexivity|].
      intros l [= <-]. reflexivity.
    + apply conforming_chapter_name; [discriminate|reflexivity|].
      intros l [=].
  - intros N N' l rest rest' HN Hd HN' Hd' Hnext Hl Hkey.
    assert (Hu : is_upper l = true).
    { unfold is_upper. apply andb_true_iff. split; apply N.leb_le; lia. }
    assert (Hpos : alphabet_position (Some l) = (Z.of_N l - 64)%Z)
      by by apply alphabet_position_code.
    unfold exact_key in Hkey. rewrite Hpos in Hkey.
    eexists _, _. split; [|split].
    + apply order_of_chapter_name; [done|done|by intros ? [=]|].
      unfold exact_key. rewrite Hnext. change (alphabet_position None) with 0%Z. lia.
    + apply order_of_chapter_name; [done|done|by intros ? [= <-]|].
      unfold exact_key. rewrite Hpos. lia.
    + rewrite Hnext, Hpos. change (alphabet_position None) with 0%Z. lia.
Qed.

Lemma order_key_collision_witness :
  exists next sub,
    getChapterOrder (chapter_name (lit "4") None (lit "AB_Next.md")) = Finite next
    /\ getChapterOrder (chapter_name (lit "3") (Some 75%N) (lit "AB_Side.md"))
       = Finite sub
    /\ (next <= sub)%Z.
Proof.
  apply (proj2 order_key_collision (lit "3") (lit "4") 75%N);
    [discriminate|reflexivity|discriminate|reflexivity|reflexivity|lia|by vm_compute].
Defined.

End OrderKey.

(** ** Asset mirroring *)

Module AssetFacts.
Import Sync Spec.

(** Induction on directory trees. *)
Fixpoint entry_induction (P : entry -> Prop)
    (HFile : forall name, P (File name))
    (HDir : forall name entries, Forall P entries -> P (Dir name entries))
    (e : entry) : P e :=
  match e with
  | File name => HFile name
  | Dir name entries =>
      HDir name entries
        ((fix all (es : list entry) : Forall P es :=
            match es with
            | [] => List.Forall_nil P
            | e' :: es' =>
                List.Forall_cons P e' es' (entry_induction P HFile HDir e') (all es')
            end) entries)
  end.

Section WithLower.
Variable toLowerCase : str -> str.

Lemma copyEntry_dir src dest name entries :
  copyEntry toLowerCase src dest (Dir name entries)
  = ((copyEntries toLowerCase (src ++ [name]) (dest ++ [name]) entries).1,
     Mkdir (dest ++ [name])
       :: (copyEntries toLowerCase (src ++ [name]) (dest ++ [name]) entries).2).
Proof.
  simpl.
  match goal with
  | |- (fst ?a, _ :: snd ?a) = _ =>
      assert (a = copyEntries toLowerCase (src ++ [name]) (dest ++ [name]) entries)
        as ->; [|done]
  end.
  induction entries as [|e es IH]; simpl; [done|]. by rewrite IH.
Qed.

Lemma entry_files_dir name entries :
  entry_files (Dir name entries)
  = (fun f => (name :: f.1, f.2)) <$> files_under entries.
Proof.
  simpl. f_equal. unfold files_under.
  induction entries as [|e es IH]; simpl; [done|]. by rewrite IH.
Qed.

Lemma copyEntries_copies es :
  Forall (fun e => forall src dest o,
            is_copy o = true ->
            In o (copyEntry toLowerCase src dest e).2
            <-> copies_spec toLowerCase src dest (entry_files e) o) es ->
  forall src dest o,
    is_copy o = true ->
    In o (copyEntries toLowerCase src dest es).2
    <-> copies_spec toLowerCase src dest (files_under es) o.
Proof.
  induction 1 as [|e es He _ IH]; intros src dest o Ho; simpl.
  - split; [done|]. by intros (? & ? & [] & _).
  - rewrite in_app_iff, He, IH by done. unfold copies_spec, files_under. simpl.
    setoid_rewrite in_app_iff. split.
    + intros [(r & n & ? & ?)|(r & n & ? & ?)]; exists r, n; tauto.
    + intros (r & n & [?|?] & ?); [left|right]; exists r, n; tauto.
Qed.

Lemma copyEntry_copies e :
  forall src dest o,
    is_copy o = true ->
    In o (copyEntry toLowerCase src dest e).2
    <-> copies_spec toLowerCase src dest (entry_files e) o.
Proof.
  induction e as [name|name entries IH] using entry_induction;
    intros src dest o Ho.
  - simpl. unfold copies_spec. destruct (is_image toLowerCase name) eqn:Hi; simpl.
    + split.
      * intros [<-|[]]. exists [], name. simpl. tauto.
      * intros (r & n & [[= <- <-]|[]] & _ & ->). by left.
    + split; [done|]. intros (r & n & [[= <- <-]|[]] & Hn & _). congruence.
  - rewrite copyEntry_dir, entry_files_dir. simpl.
    rewrite (copyEntries_copies _ IH) by done.
    split.
    + intros [<-|(r & n & Hin & Hn & ->)]; [done|].
      exists (name :: r), n. split; [|split; [done|]].
      * apply in_map_iff. by exists (r, n).
      * by rewrite <- !app_assoc.
    + intros (r & n & Hin & Hn & ->). right.
      apply in_map_iff in Hin as ([r' n'] & [= <- <-] & Hin).
      exists r', n'. split; [done|]. split; [done|]. simpl.
      by rewrite <- !app_assoc.
Qed.

Lemma copyEntries_count es :
  Forall (fun e => forall src dest,
            (copyEntry toLowerCase src dest e).1
            = Z.of_nat (length (List.filter is_copy (copyEntry toLowerCase src dest e).2)))
         es ->
  forall src dest,
    (copyEntries toLowerCase src dest es).1
    = Z.of_nat (length (List.filter is_copy (copyEntries toLowerCase src dest es).2)).
Proof.
  induction 1 as [|e es He _ IH]; intros src dest; simpl; [done|].
  rewrite List.filter_app, length_app, He, IH. lia.
Qed.

Lemma copyEntry_count e :
  forall src dest,
    (copyEntry toLowerCase src dest e).1
    = Z.of_nat (length (List.filter is_copy (copyEntry toLowerCase src dest e).2)).
Proof.
  induction e as [name|name entries IH] using entry_induction; intros src dest.
  - simpl. by destruct (is_image toLowerCase name).
  - rewrite copyEntry_dir. simpl. by apply copyEntries_count.
Qed.

End WithLower.
End AssetFacts.

Section AssetFiltering.
Import Sync Spec AssetFacts.

(** C9: when the project has an [_assets] directory, [syncAssets] copies a
    file of that tree to the mirrored path below the public directory if and
    only if its lower-cased name ends with one of the image extensions;
    everything else is skipped, and the count that [copyDir] returns to
    [syncAssets] is the number of files copied, over all subdirectories.
    Without an [_assets] directory nothing is copied.  The same holds of
    [copyDir] on every directory it is called on. *)
Theorem asset_filtering (toLowerCase : str -> str) (assetsDir publicDir : path)
    (assets : option (list entry)) :
  (forall from to,
      In (CopyFile from to) (syncAssets toLowerCase assetsDir publicDir assets)
      <-> exists entries rel name,
            assets = Some entries
            /\ In (rel, name) (files_under entries)
            /\ existsb (fun ext => endsWith ext (toLowerCase name))
                 [lit ".jpg"; lit ".jpeg"; lit ".png"; lit ".gif"; lit ".webp";
                  lit ".svg"] = true
            /\ from = assetsDir ++ rel ++ [name] /\ to = publicDir ++ rel ++ [name])
  /\ match assets with
     | Some entries =>
         (copyDir toLowerCase assetsDir publicDir entries).1
         = Z.of_nat (length (List.filter is_copy
                               (syncAssets toLowerCase assetsDir publicDir assets)))
     | None => syncAssets toLowerCase assetsDir publicDir assets = []
     end
  /\ (forall src dest entries,
        (forall from to,
            In (CopyFile from to) (copyDir toLowerCase src dest entries).2
            <-> exists rel name,
                  In (rel, name) (files_under entries)
                  /\ is_image toLowerCase name = true
                  /\ from = src ++ rel ++ [name] /\ to = dest ++ rel ++ [name])
        /\ (copyDir toLowerCase src dest entries).1
           = Z.of_nat (length (List.filter is_copy
                                 (copyDir toLowerCase src dest entries).2))).
Proof.
  assert (Hdir : forall src dest entries,
    (forall from to,
        In (CopyFile from to) (copyDir toLowerCase src dest entries).2
        <-> exists rel name,
              In (rel, name) (files_under entries)
              /\ is_image toLowerCase name = true
              /\ from = src ++ rel ++ [name] /\ to = dest ++ rel ++ [name])
    /\ (copyDir toLowerCase src dest entries).1
       = Z.of_nat (length (List.filter is_copy
                             (copyDir toLowerCase src dest entries).2))).
  { intros src dest entries. split.
    - intros from to. unfold copyDir. simpl.
      assert (Hall : Forall (fun e => forall src dest o,
                is_copy o = true ->
                In o (copyEntry toLowerCase src dest e).2
                <-> copies_spec toLowerCase src dest (entry_files e) o) entries).
      { apply List.Forall_forall. intros e _. apply copyEntry_copies. }
      pose proof (copyEntries_copies toLowerCase entries Hall src dest
                    (CopyFile from to) eq_refl) as Hc.
      split.
      + intros [[=]|Hin]. apply Hc in Hin as (r & n & ? & ? & [= -> ->]).
        by exists r, n.
      + intros (r & n & ? & ? & -> & ->). right. apply Hc. by exists r, n.
    - unfold copyDir. simpl. apply copyEntries_count.
      apply List.Forall_forall. intros e _. apply copyEntry_count. }
  split; [|split; [|exact Hdir]].
  - intros from to. destruct assets as [entries|]; cbn [syncAssets].
    + split.
      * intros [[=]|Hin]. apply (proj1 (Hdir _ _ _)) in Hin as (r & n & ? & ? & ? & ?).
        by exists entries, r, n.
      * intros (es & r & n & [= <-] & ? & ? & ? & ?). right.
        apply (proj1 (Hdir _ _ _)). by exists r, n.
    + split; [done|]. by intros (es & r & n & [=] & _).
  - destruct assets as [entries|]; [|done]. cbn [syncAssets].
    apply (proj2 (Hdir _ _ _)).
Qed.

End AssetFiltering.

(** ** The publisher *)

Module PublishFacts.
Import Publish Spec.

Section WithRuntime.
Context `{Runtime}.

Lemma no_exit_ret {A} (a : A) : no_exit (ret a).
Proof. by intros st c st'. Qed.

Lemma no_exit_throw {A} (e : str) : no_exit (@throw _ A e).
Proof. by intros st c st'. Qed.

Lemma no_exit_bind {A B} (m : M A) (k : A -> M B) :
  no_exit m -> (forall a, no_exit (k a)) -> no_exit (bind m k).
Proof.
  intros Hm Hk st c st'. unfold bind.
  destruct (m st) as [[a|e|c'] st1] eqn:E; [apply Hk|done|].
  by destruct (Hm st c' st1).
Qed.

Lemma no_exit_console_log s : no_exit (console_log s).
Proof. by intros st c st'. Qed.

Lemma no_exit_console_error s : no_exit (console_error s).
Proof. by intros st c st'. Qed.

Lemma no_exit_await {A} (io : World -> (str + A) * World) : no_exit (await io).
Proof.
  intros st c st'. unfold await. by destruct (io (world st)) as [[e|a] w].
Qed.

Lemma no_exit_await_fetch rq : no_exit (await_fetch rq).
Proof.
  intros st c st'. unfold await_fetch.
  by destruct (fetch rq (world st)) as [[e|a] w].
Qed.

Lemma no_exit_await_json {A} (j : str + A) : no_exit (await_json j).
Proof. destruct j; [apply no_exit_throw|apply no_exit_ret]. Qed.

Lemma no_exit_try_catch m handler :
  no_exit m -> (forall e, no_exit (handler e)) -> no_exit (try_catch m handler).
Proof.
  intros Hm Hh st c st'. unfold try_catch.
  destruct (m st) as [[a|e|c'] st1] eqn:E; [done|apply Hh|].
  by destruct (Hm st c' st1).
Qed.

Ltac no_exit_step :=
  first
    [ apply no_exit_bind; [|intros ?]
    | apply no_exit_ret
    | apply no_exit_throw
    | apply no_exit_console_log
    | apply no_exit_console_error
    | apply no_exit_await
    | apply no_exit_await_fetch
    | apply no_exit_await_json ].

Lemma no_exit_findExistingPost slug : no_exit (findExistingPost slug).
Proof.
  unfold findExistingPost. no_exit_step; [no_exit_step|].
  destruct (negb (ok a)); repeat no_exit_step.
Qed.

Lemma no_exit_findExistingMedia filename : no_exit (findExistingMedia filename).
Proof.
  unfold findExistingMedia. no_exit_step; [no_exit_step|].
  destruct (negb (ok a)); repeat no_exit_step.
Qed.

Lemma no_exit_uploadImageToWordPress imagePath altText :
  no_exit (uploadImageToWordPress imagePath altText).
Proof.
  unfold uploadImageToWordPress. no_exit_step; [no_exit_step|].
  destruct (negb a); [repeat no_exit_step|].
  no_exit_step; [apply no_exit_findExistingMedia|].
  destruct a0 as [m|]; [repeat no_exit_step|].
  no_exit_step; [no_exit_step|]. no_exit_step; [no_exit_step|].
  destruct (negb (ok a1)); [repeat no_exit_step|].
  no_exit_step; [no_exit_step|]. no_exit_step.
  - destruct altText; repeat no_exit_step.
  - repeat no_exit_step.
Qed.

Lemma no_exit_postToWordPress title content excerpt slug mediaId :
  no_exit (postToWordPress title content excerpt slug mediaId).
Proof.
  unfold postToWordPress. no_exit_step; [apply no_exit_findExistingPost|].
  no_exit_step; [no_exit_step|].
  destruct (negb (ok a0)); repeat no_exit_step.
Qed.

Lemma no_exit_publishFile file : no_exit (publishFile file).
Proof.
  unfold publishFile.
  destruct (novel_title (getNovelSlug file)) as [novelTitle|]; [|no_exit_step].
  no_exit_step; [no_exit_step|]. no_exit_step; [no_exit_step|].
  destruct (parseMarkdown a0) as [frontmatter body].
  no_exit_step.
  - destruct (Sync.truthy frontmatter (lit "cover")); [|no_exit_step].
    no_exit_step; [no_exit_step|]. apply no_exit_uploadImageToWordPress.
  - no_exit_step; [apply no_exit_postToWordPress|]. repeat no_exit_step.
Qed.

Lemma report_failure_eq file e st :
  report_failure file e st = (Ok tt, reported file e st).
Proof.
  unfold report_failure, bind, console_error, console_log, reported. simpl.
  by rewrite <- !app_assoc.
Qed.

(** One turn of the loop of [main]. *)
Lemma publish_each_cons file rest st :
  publish_each (file :: rest) st
  = publish_each rest
      match publishFile file st with
      | (Throw e, st') => reported file e st'
      | (_, st') => st'
      end.
Proof.
  simpl. unfold bind at 1. unfold try_catch.
  destruct (publishFile file st) as [[[]|e|c] st'] eqn:E; [done| |].
  - by rewrite report_failure_eq.
  - by destruct (no_exit_publishFile file st c st').
Qed.

Lemma publish_each_completes files st :
  exists st', publish_each files st = (Ok tt, st').
Proof.
  revert st; induction files as [|file rest IH]; intros st.
  - by exists st.
  - rewrite publish_each_cons. apply IH.
Qed.

Lemma bind_console_log {B} s (k : unit -> M B) st :
  bind (console_log s) k st = k tt (logged (Out s) st).
Proof. reflexivity. Qed.

Lemma bind_publish_each {B} files (k : unit -> M B) st :
  exists st', bind (publish_each files) k st = k tt st'.
Proof.
  destruct (publish_each_completes files st) as [st' Hst'].
  exists st'. unfold bind. by rewrite Hst'.
Qed.

(** The requests sent by [findExistingPost] when it returns. *)
Lemma findExistingPost_sent slug st existing st1 :
  findExistingPost slug st = (Ok existing, st1) ->
  sent st1
  = sent st
    ++ [ {| endpoint :=
              (WP_URL ++ lit "/wp-json/wp/v2/posts") ++ lit "?slug="
              ++ encodeURIComponent slug ++ lit "&status=publish,draft";
            method_of := GET;
            headers := [(lit "Authorization", getAuthHeader)];
            body := NoBody |} ].
Proof.
  unfold findExistingPost, bind, await_fetch, posts_url.
  destruct (fetch _ (world st)) as [[e|resp] w]; [done|].
  destruct (negb (ok resp)); [by intros [= _ <-]|].
  destruct (json_posts resp); simpl; [done|]. by intros [= _ <-].
Qed.

End WithRuntime.
End PublishFacts.

Section Publisher.
Import Publish Spec PublishFacts.

(** C7: [postToWordPress] looks the slug up among the published and draft
    posts and then sends one request.  When the look-up finds no post (an
    empty list, or a response that is not ok) the request is a POST to the
    posts collection; when it finds one, a PUT to [posts/<id>] of the first
    post found.  The body is the same in both cases: title, content,
    excerpt, slug, the status [publish], and the featured media when one is
    given. *)
Theorem publisher_upsert `{Runtime}
    (title content excerpt slug : str) (featuredMediaId : option Z)
    (st : state) (resp : response) (posts : list post) (w : World) :
  let lookup :=
    {| endpoint :=
         (WP_URL ++ lit "/wp-json/wp/v2/posts") ++ lit "?slug="
         ++ encodeURIComponent slug ++ lit "&status=publish,draft";
       method_of := GET;
       headers := [(lit "Authorization", getAuthHeader)];
       body := NoBody |} in
  let existingPost := if ok resp then head posts else None in
  let data :=
    {| title := title; content := content; excerpt := excerpt; slug := slug;
       status := lit "publish";
       featured_media :=
         match featuredMediaId with
         | Some 0%Z | None => None
         | Some mediaId => Some mediaId
         end |} in
  let save :=
    {| endpoint :=
         match existingPost with
         | Some p =>
             (WP_URL ++ lit "/wp-json/wp/v2/posts") ++ lit "/"
             ++ number_to_string (post_id p)
         | None => WP_URL ++ lit "/wp-json/wp/v2/posts"
         end;
       method_of := match existingPost with Some _ => PUT | None => POST end;
       headers :=
         [(lit "Authorization", getAuthHeader);
          (lit "Content-Type", lit "application/json")];
       body := PostJson data |} in
  fetch lookup (world st) = (inr resp, w) ->
  (ok resp = true -> json_posts resp = inr posts) ->
  sent (postToWordPress title content excerpt slug featuredMediaId st).2
  = sent st ++ [lookup; save].
Proof.
  intros lookup existingPost data save Hfetch Hjson.
  unfold postToWordPress, findExistingPost, posts_url.
  unfold bind at 1. unfold bind at 1. unfold await_fetch at 1.
  change (fetch _ (world st)) with (fetch lookup (world st)).
  rewrite Hfetch.
  assert (Hsave : save_request existingPost
                    (make_postData title content excerpt slug featuredMediaId)
                  = save).
  { unfold save_request, posts_url, save. by destruct existingPost. }
  unfold existingPost in *. clear existingPost.
  destruct (ok resp); [rewrite Hjson by done|];
    simpl; unfold bind, await_fetch; simpl;
    rewrite Hsave;
    destruct (fetch save w) as [[e|r] w']; simpl;
    try (destruct (ok r); simpl);
    try (destruct (json_post r); simpl);
    by rewrite <- app_assoc.
Qed.

Lemma publisher_upsert_witness :
  let remote := [ {| post_id := 42%Z; post_link := lit "https://blog.example/?p=42" |} ] in
  let R := demo_runtime (Some (lit "user")) [] remote in
  (method_of <$> sent (@postToWordPress R (lit "T") (lit "C") (lit "E")
                         (lit "2028ww3-chap-1") None
                         (demo_state (Some (lit "user")) [] remote)).2)
  = [GET; PUT].
Proof.
  intros remote R.
  rewrite (@publisher_upsert R (lit "T") (lit "C") (lit "E") (lit "2028ww3-chap-1")
             None (demo_state (Some (lit "user")) [] remote)
             (demo_response remote) remote tt);
    reflexivity.
Defined.

(** C8, as stated, fails for its example: a cover path that names no file
    raises no exception.  The chapter is published without a featured
    image: the run prints a warning, reports no failure, and the post is
    looked up and created. *)
Lemma invalid_cover_path_counterexample :
  let file := lit "projects/2028ww3/chapters/a.md" in
  let st := @Build_state cover_runtime tt [] [] in
  let r := @run cover_runtime [file] st in
  (@publishFile cover_runtime file st).1 = Ok tt
  /\ r.1 = 0%Z
  /\ List.filter is_error (console r.2) = []
  /\ (exists coverPath,
        In (Out (warn ++ lit "Cover image not found: " ++ coverPath)) (console r.2))
  /\ (method_of <$> sent r.2) = [GET; POST]
  /\ (is_save <$> sent r.2) = [false; true].
Proof.
  vm_compute. repeat split; try done.
  eexists. repeat (first [left; reflexivity|right]).
Qed.

(** C8 (amended): with both credentials set, a run handles the [.md] files
    of its arguments one after the other, each from the state the previous
    one left.  An exception raised while a file is processed (the file
    cannot be read, a request fails, the site refuses to save the post) is
    caught and reported with the name of the file and the message, and the
    run goes on with the remaining files; it ends with [Done!] and the exit
    code 0.  A chapter of a known novel that cannot be read is such an
    exception.  The exit code is 1 exactly when there are files to publish
    and a credential is missing from the environment. *)
Theorem partial_failure_isolation `{Runtime} (argv : list str) (st : state) :
  let files := List.filter (endsWith (lit ".md")) argv in
  (files <> [] -> is_set WP_USER = true -> is_set WP_APP_PASSWORD = true ->
   run argv st
   = (0%Z, logged (Out (lit "Done!"))
             (fold_left handled files (announced (length files) st))))
  /\ (forall file st0 e st1,
        publishFile file st0 = (Throw e, st1) ->
        handled st0 file
        = {| world := world st1;
             console :=
               console st1
               ++ [Err (lit "  " ++ [10007%N] ++ lit " Failed: " ++ file);
                   Err (lit "    Error: " ++ e);
                   Out []];
             sent := sent st1 |})
  /\ (forall file st0 e w,
        is_Some (novel_title (getNovelSlug file)) ->
        readFile file (world st0) = (inl e, w) ->
        publishFile file st0
        = (Throw e,
           {| world := w;
              console := console st0 ++ [Out (lit "Processing: " ++ basename file)];
              sent := sent st0 |}))
  /\ (run argv st).1
     = if bool_decide (files <> [])
          && (negb (is_set WP_USER) || negb (is_set WP_APP_PASSWORD))
       then 1%Z else 0%Z.
Proof.
  intros files.
  assert (Hloop : forall fs s, publish_each fs s = (Ok tt, fold_left handled fs s)).
  { induction fs as [|f fs IH]; intros s; [done|].
    rewrite publish_each_cons. cbn [fold_left]. apply IH. }
  split; [|split; [|split]].
  - intros Hfiles Huser Hpass. unfold run, main. fold files.
    destruct files as [|f fs] eqn:Hf; [done|].
    rewrite Huser, Hpass. cbn [negb orb].
    rewrite !bind_console_log. unfold bind at 1. rewrite Hloop. reflexivity.
  - intros file st0 e st1 Hthrow. unfold handled. by rewrite Hthrow.
  - intros file st0 e w [novelTitle Hnovel] Hread. unfold publishFile.
    rewrite Hnovel, bind_console_log. unfold bind, await, logged.
    cbn [world console sent]. by rewrite Hread.
  - unfold run, main. fold files.
    destruct files as [|f fs] eqn:Hf; [done|].
    rewrite bool_decide_true by done. simpl andb.
    destruct (negb (is_set WP_USER) || negb (is_set WP_APP_PASSWORD)); [done|].
    rewrite !bind_console_log. unfold bind at 1. rewrite Hloop. reflexivity.
Qed.

Lemma partial_failure_isolation_witness :
  let files :=
    lit <$> ["projects/2028ww3/chapters/a.md"; "projects/2028ww3/chapters/b.md";
             "projects/2028ww3/chapters/c.md"]%string in
  let R := demo_runtime (Some (lit "user")) [lit "projects/2028ww3/chapters/b.md"] [] in
  let st := demo_state (Some (lit "user")) [lit "projects/2028ww3/chapters/b.md"] [] in
  @run R files st
  = (0%Z, logged (Out (lit "Done!")) (fold_left handled files (announced 3 st))).
Proof.
  intros files R st.
  apply (proj1 (@partial_failure_isolation R files st)); [discriminate|reflexivity..].
Defined.

(** A batch of three files in which the second cannot be read: the failure
    is reported with the name of the file, the other two posts are created,
    and the exit code is 0. *)
Example publisher_batch_of_three :
  let files :=
    lit <$> ["projects/2028ww3/chapters/a.md"; "projects/2028ww3/chapters/b.md";
             "projects/2028ww3/chapters/c.md"]%string in
  let r := @run (demo_runtime (Some (lit "user"))
                   [lit "projects/2028ww3/chapters/b.md"] [])
             files (demo_state _ _ _) in
  r.1 = 0%Z
  /\ List.filter (fun l => match l with Err _ => true | Out _ => false end)
       (console r.2)
     = [Err (lit "  " ++ [10007%N] ++ lit " Failed: projects/2028ww3/chapters/b.md");
        Err (lit "    Error: ENOENT")]
  /\ (method_of <$> sent r.2) = [GET; POST; GET; POST].
Proof. vm_compute. done. Qed.

End Publisher.

(** ** Global replacement *)

Module GsubFacts.

Section Gsub.
Variables (m : matcher) (r : str -> str).

(** Passing over the characters of a match. *)
Lemma gsub_from_skip (k : nat) (s : str) (prev : option char) :
  k <= length s ->
  gsub_from m r prev k s
  = gsub_from m r (if k is 0 then prev else last (take k s)) 0 (drop k s).
Proof.
  revert s prev; induction k as [|k IH]; intros s prev Hk; [done|].
  destruct s as [|c s]; simpl in Hk; [lia|]. simpl gsub_from.
  rewrite IH by lia. f_equal. destruct k as [|k]; [done|].
  destruct s as [|d s]; simpl in Hk; [lia|]. done.
Qed.

(** The equation of the replacement at a position where nothing is left to
    pass over. *)
Lemma gsub_from_match (n : nat) (s : str) (prev : option char) :
  m prev s = Some (S n) -> S n <= length s ->
  gsub_from m r prev 0 s
  = r (take (S n) s) ++ gsub_from m r (last (take (S n) s)) 0 (drop (S n) s).
Proof.
  intros Hm Hn. destruct s as [|c s]; simpl in Hn; [lia|].
  simpl gsub_from. rewrite Hm. f_equal.
  rewrite gsub_from_skip by lia. simpl drop. f_equal.
  destruct n as [|n]; [done|]. destruct s as [|d s]; simpl in Hn; [lia|]. done.
Qed.

Lemma gsub_from_no_match (c : char) (s : str) (prev : option char) :
  m prev (c :: s) = None ->
  gsub_from m r prev 0 (c :: s) = c :: gsub_from m r (Some c) 0 s.
Proof. intros Hm. simpl. by rewrite Hm. Qed.

(** Without a match anywhere, nothing is replaced. *)
Lemma gsub_from_id (s : str) (prev : option char) :
  search_from m prev s = None -> gsub_from m r prev 0 s = s.
Proof.
  revert prev; induction s as [|c s IH]; intros prev; simpl.
  - by destruct (m prev []).
  - destruct (m prev (c :: s)); [done|].
    destruct (search_from m (Some c) s) as [[]|] eqn:E; [done|].
    intros _. f_equal. by apply IH.
Qed.

(** Every character of the result comes from the input or from a
    replacement. *)
Lemma gsub_from_Forall (P : N -> Prop) (s : list N) (prev : option N) (k : nat) :
  (forall x, Forall P x -> Forall P (r x)) ->
  Forall P s -> Forall P (gsub_from m r prev k s).
Proof.
  intros Hr. revert prev k; induction s as [|c s IH]; intros prev k Hs; simpl.
  - destruct k; [|done]. destruct (m prev []); [by apply Hr|done].
  - pose proof Hs as Hcs. apply Forall_cons in Hs as [Hc Hs].
    destruct k as [|k]; [|by apply IH].
    destruct (m prev (c :: s)) as [[|n]|].
    + apply Forall_app. split; [by apply Hr|].
      apply Forall_cons. split; [done|by apply IH].
    + apply Forall_app. split; [|by apply IH].
      apply Hr. by apply (Forall_take _ (S n)) in Hcs.
    + apply Forall_cons. split; [done|by apply IH].
Qed.

End Gsub.

(** Erasing the matches does not make the text longer, and makes it shorter
    when there is a match. *)
Lemma gsub_erase_length m s p k :
  length (gsub_from m (fun _ => []) p k s) <= length s.
Proof.
  revert p k; induction s as [|c s IH]; intros p k; simpl.
  - destruct k; [|done]. by destruct (m p []).
  - destruct k as [|k]; [|specialize (IH (Some c) k); lia].
    destruct (m p (c :: s)) as [[|n]|]; simpl.
    + specialize (IH (Some c) 0). lia.
    + specialize (IH (Some c) n). lia.
    + specialize (IH (Some c) 0). lia.
Qed.

Lemma gsub_erase_shorter m s p :
  Spec.proper m ->
  search_from m p s <> None ->
  length (gsub_from m (fun _ => []) p 0 s) < length s.
Proof.
  intros Hm. revert p; induction s as [|c s IH]; intros p; simpl.
  - destruct (m p []) as [n|] eqn:E; [|done].
    apply Hm in E. simpl in E. lia.
  - destruct (m p (c :: s)) as [[|n]|] eqn:E; simpl.
    + apply Hm in E. lia.
    + intros _. pose proof (gsub_erase_length m s (Some c) n). lia.
    + destruct (search_from m (Some c) s) as [[pre a]|] eqn:Es; [|done].
      intros _. specialize (IH (Some c)). rewrite Es in IH.
      specialize (IH ltac:(done)). lia.
Qed.

Lemma search_from_none_inv {A} (m : option char -> str -> option A) c s prev :
  search_from m prev (c :: s) = None ->
  m prev (c :: s) = None /\ search_from m (Some c) s = None.
Proof.
  simpl. destruct (m prev (c :: s)); [done|].
  by destruct (search_from m (Some c) s) as [[]|].
Qed.

End GsubFacts.

(** ** The synchronizer: front matter *)

Module SyncFacts.
Import Sync Spec GsubFacts.

(** Literals in the goal, evaluated. *)
Ltac eval_lits :=
  repeat match goal with
         | |- context [lit ?s] =>
             let v := eval vm_compute in (lit s) in
             change (lit s) with v
         end.

Abbreviation no_lf := (Forall (fun c : char => c <> LF)).

Lemma trimStart_Forall (P : char -> Prop) s : Forall P s -> Forall P (trimStart s).
Proof.
  induction 1 as [|c s Hc Hs IH]; simpl; [done|].
  destruct (is_space c); [done|by constructor].
Qed.

Lemma trim_Forall (P : char -> Prop) s : Forall P s -> Forall P (trim s).
Proof.
  intros Hs. unfold trim, trimEnd.
  by apply Forall_rev, trimStart_Forall, Forall_rev, trimStart_Forall.
Qed.

Lemma trimEnd_last s c : is_space c = false -> trimEnd (s ++ [c]) = s ++ [c].
Proof.
  intros Hc. unfold trimEnd. rewrite rev_unit. simpl. rewrite Hc.
  simpl. by rewrite rev_involutive.
Qed.

(** A value between double quotes, after a space. *)
Lemma trim_quoted v : trim (32%N :: 34%N :: v ++ [34%N]) = 34%N :: v ++ [34%N].
Proof.
  unfold trim. simpl trimStart.
  change (34%N :: v ++ [34%N]) with ((34%N :: v) ++ [34%N]).
  by apply trimEnd_last.
Qed.

Lemma trimEnd_no_space s :
  Forall (fun c => is_space c = false) s -> trimEnd s = s.
Proof.
  destruct s as [|x s _] using rev_ind; [done|].
  intros [_ Hx]%Forall_app. apply Forall_cons in Hx as [Hx _].
  by apply trimEnd_last.
Qed.

Lemma trim_no_space s :
  Forall (fun c => is_space c = false) s -> trim (32%N :: s) = s.
Proof.
  intros Hs. unfold trim. cbn [trimStart is_space].
  change ((9 <=? 32)%N && (32 <=? 13)%N || (32 =? 32)%N || _) with true. cbv iota.
  replace (trimStart s) with s; [by apply trimEnd_no_space|].
  destruct Hs as [|c s Hc Hs]; [done|]. simpl. by rewrite Hc.
Qed.

Lemma strip_quotes_inner v p :
  gsub_from quote_edge (fun _ => []) (Some p) 0 (v ++ [34%N]) = v.
Proof.
  revert p; induction v as [|c v IH]; intros p; [done|].
  simpl app. rewrite gsub_from_no_match.
  - by rewrite IH.
  - simpl. destruct (is_quote c); [|done]. simpl.
    rewrite bool_decide_false; [done|]. by destruct v.
Qed.

Lemma strip_quotes_quoted v : strip_quotes (34%N :: v ++ [34%N]) = v.
Proof.
  unfold strip_quotes, gsub. simpl gsub_from. apply strip_quotes_inner.
Qed.

Lemma strip_quotes_Forall (P : char -> Prop) s :
  Forall P s -> Forall P (strip_quotes s).
Proof. apply gsub_from_Forall. by intros _ _. Qed.

Lemma strip_quotes_no_quote s :
  Forall (fun c => is_quote c = false) s -> strip_quotes s = s.
Proof.
  intros Hs. unfold strip_quotes, gsub. apply gsub_from_id.
  generalize (@None char).
  induction Hs as [|c s Hc Hs IH]; intros p; simpl; [done|].
  rewrite Hc. simpl. by rewrite IH.
Qed.

(** Lines and their separator. *)
Lemma split_no_sep sep l :
  Forall (fun c => c <> sep) l -> split sep l = [l].
Proof.
  induction 1 as [|c l Hc Hl IH]; simpl; [done|].
  destruct (char_eqb c sep) eqn:E; [by apply char_eqb_eq in E|]. by rewrite IH.
Qed.

Lemma split_app_sep sep l rest :
  Forall (fun c => c <> sep) l ->
  split sep (l ++ sep :: rest) = l :: split sep rest.
Proof.
  induction 1 as [|c l Hc Hl IH]; simpl.
  - by rewrite char_eqb_refl.
  - destruct (char_eqb c sep) eqn:E; [by apply char_eqb_eq in E|]. by rewrite IH.
Qed.

Lemma split_join sep lines :
  lines <> [] -> Forall (Forall (fun c => c <> sep)) lines ->
  split sep (join [sep] lines) = lines.
Proof.
  intros Hne Hl. induction Hl as [|l ls Hl Hls IH]; [done|].
  destruct ls as [|l' ls]; simpl.
  - by apply split_no_sep.
  - change (l ++ sep :: join [sep] (l' :: ls)) with (l ++ sep :: join [sep] (l' :: ls)).
    rewrite split_app_sep by done. f_equal. by apply IH.
Qed.

Lemma split_Forall sep s : Forall (Forall (fun c => c <> sep)) (split sep s).
Proof.
  induction s as [|c s IH]; simpl; [by repeat constructor|].
  destruct (char_eqb c sep) eqn:E; [by constructor|].
  assert (Hc : c <> sep) by (intros ->; by rewrite char_eqb_refl in E).
  destruct (split sep s) as [|l ls]; [by repeat constructor|].
  apply Forall_cons in IH as [Hl Hls]. by repeat constructor.
Qed.

Lemma indexOf_here p s : startsWith p s = true -> indexOf p s = Some 0.
Proof. intros Hp. destruct s; simpl; by rewrite Hp. Qed.

Lemma indexOf_next p c s :
  startsWith p (c :: s) = false -> indexOf p (c :: s) = S <$> indexOf p s.
Proof. intros Hp. cbn [indexOf]. by rewrite Hp. Qed.

Lemma indexOf_skip p s l :
  match p with [] => False | c :: _ => Forall (fun d => d <> c) l end ->
  indexOf p (l ++ s) = (fun i => length l + i) <$> indexOf p s.
Proof.
  destruct p as [|c p]; [done|]. intros Hl.
  induction Hl as [|d l Hd Hl IH].
  - simpl app. by destruct (indexOf (c :: p) s).
  - simpl app. cbn [indexOf startsWith].
    destruct (char_eqb c d) eqn:E; [apply char_eqb_eq in E; congruence|].
    simpl. rewrite IH. by destruct (indexOf (c :: p) s).
Qed.

(** The end of the block: the first line feed followed by three dashes
    comes after the lines, when no line starts with a dash. *)
Lemma indexOf_block_end lines tail :
  lines <> [] ->
  Forall (fun l => no_lf l /\ exists c t, l = c :: t /\ c <> 45%N) lines ->
  indexOf (LF :: lit "---") (join [LF] lines ++ (LF :: lit "---") ++ tail)
  = Some (length (join [LF] lines)).
Proof.
  intros Hne Hl. induction Hl as [|l ls [Hl Hc] Hls IH]; [done|].
  destruct ls as [|l' ls].
  - simpl join. rewrite indexOf_skip by done.
    rewrite indexOf_here by apply startsWith_app.
    simpl. f_equal. lia.
  - change (join [LF] (l :: l' :: ls)) with (l ++ LF :: join [LF] (l' :: ls)).
    rewrite <- app_assoc. rewrite indexOf_skip by done.
    change ((LF :: join [LF] (l' :: ls)) ++ ?x) with (LF :: join [LF] (l' :: ls) ++ x).
    rewrite indexOf_next.
    + rewrite IH by done. cbn [fmap option_fmap option_map]. rewrite length_app.
      done.
    + apply Forall_cons in Hls as [[_ (c & t & -> & Hc')] _].
      eval_lits.
      destruct ls; cbn [join app startsWith]; rewrite char_eqb_refl;
        cbn [andb]; destruct (char_eqb 45%N c) eqn:E; try done;
        apply char_eqb_eq in E; congruence.
Qed.

(** A line [key: rest] of the block, where the key has no colon. *)
Lemma indexOf_colon key rest :
  Forall (fun c => c <> 58%N) key ->
  indexOf (lit ":") (key ++ 58%N :: rest) = Some (length key).
Proof.
  intros Hk. rewrite indexOf_skip by done.
  rewrite indexOf_here by done. simpl. f_equal. lia.
Qed.

Lemma parse_line_at n line obj :
  indexOf (lit ":") line = Some n -> n <> 0 ->
  Sync.parse_line obj line
  = obj_set (trim (take n line)) (strip_quotes (trim (drop (n + 1) line))) obj.
Proof. intros Hi Hn. unfold Sync.parse_line. rewrite Hi. by destruct n. Qed.

Lemma parse_line_field key rest obj :
  key <> [] -> Forall (fun c => c <> 58%N) key ->
  Sync.parse_line obj (key ++ 58%N :: rest)
  = obj_set (trim key) (strip_quotes (trim rest)) obj.
Proof.
  intros Hne Hk.
  rewrite (parse_line_at (length key)).
  - rewrite take_app_length.
    replace (length key + 1) with (length (key ++ [58%N]))
      by (rewrite length_app; simpl; lia).
    change (key ++ 58%N :: rest) with (key ++ [58%N] ++ rest).
    by rewrite app_assoc, drop_app_length.
  - by apply indexOf_colon.
  - by destruct key.
Qed.

Lemma number_char_plain c :
  number_char c -> is_space c = false /\ is_quote c = false /\ c <> LF.
Proof.
  unfold number_char. intros Hc. vm_compute in Hc.
  repeat (destruct Hc as [<-|Hc]; [done|]). done.
Qed.

Ltac number_chars :=
  repeat (apply List.Forall_cons; [vm_compute; tauto|]); apply List.Forall_nil.

Lemma digit_number_char d : (d < 10)%N -> number_char (48 + d)%N.
Proof.
  intros Hd. unfold number_char.
  assert (Hin : In (N.to_nat d) (seq 0 10)) by (apply in_seq; lia).
  apply (in_map (fun n => (48 + N.of_nat n)%N)) in Hin. rewrite N2Nat.id in Hin.
  vm_compute in Hin. vm_compute. tauto.
Qed.

Lemma digits_fuel_chars fuel n acc :
  Forall number_char acc -> Forall number_char (digits_fuel fuel n acc).
Proof.
  revert n acc; induction fuel as [|fuel IH]; intros n acc Hacc; simpl; [done|].
  assert (Hd : number_char (48 + n mod 10)%N)
    by (apply digit_number_char; by apply N.mod_lt).
  destruct (n <? 10)%N; [by constructor|]. apply IH. by constructor.
Qed.

Lemma decimal_chars z : Forall number_char (decimal z).
Proof. by apply digits_fuel_chars. Qed.

Lemma positive_to_string_chars x : Forall number_char (positive_to_string x).
Proof.
  unfold positive_to_string. destruct (shortest x) as [s e].
  pose proof (decimal_chars s) as Hs.
  destruct (_ <=? 21)%Z.
  - apply Forall_app. split; [done|]. apply List.Forall_forall.
    intros c ->%repeat_spec. by apply (digit_number_char 0).
  - assert (He : Forall number_char (lit "e+")) by number_chars.
    assert (Hp : Forall number_char (lit ".")) by number_chars.
    destruct (decimal s) as [|d [|d' more]]; [done| |].
    + apply Forall_cons in Hs as [Hd _]. constructor; [done|].
      apply Forall_app. split; [done|apply decimal_chars].
    + apply Forall_cons in Hs as [Hd Hs]. constructor; [done|].
      repeat (apply Forall_app; split); try done. apply decimal_chars.
Qed.

Lemma Number_toString_chars x : Forall number_char (Number_toString x).
Proof.
  destruct x as [[|p|p]| | |]; cbn [Number_toString]; try number_chars.
  - apply positive_to_string_chars.
  - apply Forall_app. split; [number_chars|].
    apply positive_to_string_chars.
Qed.

(** The lines of the generated block, read back. *)
Lemma parse_line_string key v obj :
  key <> [] -> Forall (fun c => c <> 58%N) key ->
  Sync.parse_line obj (yaml_line (key, VStr v)) = obj_set (trim key) v obj.
Proof.
  intros Hne Hk. unfold yaml_line.
  change (key ++ lit ": " ++ [34%N] ++ v ++ [34%N])
    with (key ++ 58%N :: 32%N :: 34%N :: v ++ [34%N]).
  rewrite parse_line_field by done.
  by rewrite trim_quoted, strip_quotes_quoted.
Qed.

Lemma parse_line_number key n obj :
  key <> [] -> Forall (fun c => c <> 58%N) key ->
  Sync.parse_line obj (yaml_line (key, VNum n))
  = obj_set (trim key) (Number_toString n) obj.
Proof.
  intros Hne Hk. unfold yaml_line.
  change (key ++ lit ": " ++ Number_toString n)
    with (key ++ 58%N :: 32%N :: Number_toString n).
  rewrite parse_line_field by done.
  pose proof (Number_toString_chars n) as Hn.
  rewrite trim_no_space, strip_quotes_no_quote; [done| |];
    eapply Forall_impl; try exact Hn; intros c Hc;
    by apply number_char_plain in Hc as (? & ? & ?).
Qed.

(** Values read from a block have no line feed. *)
Lemma parse_line_no_lf obj line :
  no_lf line -> map_Forall (fun _ v => no_lf v) obj ->
  map_Forall (fun _ v => no_lf v) (Sync.parse_line obj line).
Proof.
  intros Hl Hobj. unfold Sync.parse_line.
  destruct (indexOf (lit ":") line) as [[|i]|]; try done.
  unfold obj_set. destruct (str_eqb _ _); [done|].
  apply map_Forall_insert_2; [|done].
  by apply strip_quotes_Forall, trim_Forall, Forall_drop.
Qed.

Lemma parseYamlFrontmatter_no_lf fm :
  map_Forall (fun _ v => no_lf v) (parseYamlFrontmatter fm).
Proof.
  unfold parseYamlFrontmatter.
  destruct fm as [[|c fm]|]; try apply map_Forall_empty.
  generalize (split_Forall LF (c :: fm)).
  generalize (split LF (c :: fm)). intros lines Hl.
  assert (Hobj : map_Forall (fun _ v => no_lf v) (∅ : gmap str str))
    by apply map_Forall_empty.
  revert Hobj. generalize (∅ : gmap str str).
  induction Hl as [|l ls Hl Hls IH]; intros obj Hobj; simpl; [done|].
  apply IH. by apply parse_line_no_lf.
Qed.

Lemma truthy_Some obj key v : truthy obj key = Some v -> obj !! key = Some v.
Proof. unfold truthy. destruct (obj !! key) as [[|c w]|]; by intros [= <-]. Qed.

Lemma truthy_no_lf fm key v :
  truthy (parseYamlFrontmatter fm) key = Some v -> no_lf v.
Proof.
  intros Hv%truthy_Some. by apply (parseYamlFrontmatter_no_lf fm key v).
Qed.

(** What a search returns is what the expression matches at some suffix. *)
Lemma search_from_Some {A} (m : option char -> str -> option A) s p pre a :
  search_from m p s = Some (pre, a) ->
  exists p' s', s = pre ++ s' /\ m p' s' = Some a.
Proof.
  revert p pre; induction s as [|c s IH]; intros p pre; simpl.
  - destruct (m p []) eqn:E; [|done]. intros [= <- <-]. by exists p, [].
  - destruct (m p (c :: s)) eqn:E.
    + intros [= <- <-]. by exists p, (c :: s).
    + destruct (search_from m (Some c) s) as [[pre' a']|] eqn:Es; [|done].
      intros [= <- <-]. destruct (IH _ _ Es) as (p' & s' & -> & Hm).
      by exists p', s'.
Qed.

Lemma title_at_Forall (P : char -> Prop) p s t :
  title_at p s = Some t -> Forall P s -> Forall P t.
Proof.
  unfold title_at. intros Ht Hs.
  destruct (startsWith (lit "Chap_") s); [|done].
  set (r := drop 5 s) in *.
  assert (Hr : Forall P r) by by apply Forall_drop.
  destruct (span is_digit r) as [|d ds]; [done|].
  set (r1 := drop (length (d :: ds)) r) in *.
  assert (Hr1 : Forall P r1) by by apply Forall_drop.
  set (r2 := match r1 with
             | x :: l :: r' => if char_eqb x 45%N && is_upper l then r' else r1
             | _ => r1
             end) in *.
  assert (Hr2 : Forall P r2).
  { unfold r2. destruct r1 as [|x [|l r']]; try done.
    destruct (char_eqb x 45%N && is_upper l); [|done].
    by do 2 apply Forall_cons in Hr1 as [_ Hr1]. }
  destruct r2 as [|u r3]; [done|]. apply Forall_cons in Hr2 as [_ Hr3].
  destruct (span _ r3) as [|k code]; [done|].
  destruct (drop (length (k :: code)) r3) as [|u' r4] eqn:Hd; [done|].
  assert (Hr4 : Forall P (u' :: r4)) by (rewrite <- Hd; by apply Forall_drop).
  apply Forall_cons in Hr4 as [_ Hr4].
  destruct (_ && _); [|done]. injection Ht as <-. by apply Forall_take.
Qed.

Lemma defaultTitle_no_lf file : no_lf file -> no_lf (defaultTitle file).
Proof.
  intros Hf. unfold defaultTitle.
  destruct (search title_at file) as [[pre t]|] eqn:Hs.
  - apply search_from_Some in Hs as (p' & s' & -> & Ht).
    apply gsub_from_Forall; [by intros _ _; repeat constructor|].
    apply (title_at_Forall _ _ _ _ Ht). by apply Forall_app in Hf as [_ ?].
  - unfold replace_string. destruct (indexOf _ file); [|done].
    apply Forall_app. split; [by apply Forall_take|by apply Forall_drop].
Qed.

Lemma good_field_line kv :
  good_field kv ->
  no_lf (yaml_line kv) /\ exists c t, yaml_line kv = c :: t /\ c <> 45%N.
Proof.
  destruct kv as [key v]. intros [Hk Hv]. simpl in Hk, Hv.
  assert (Hkey : no_lf key /\ exists c t, key = c :: t /\ c <> 45%N).
  { unfold generated_keys in Hk. simpl in Hk.
    repeat (destruct Hk as [<-|Hk];
            [split; [by repeat constructor|by eexists _, _]|]).
    done. }
  destruct Hkey as [Hkl (c & t & -> & Hc)]. split.
  - unfold yaml_line. destruct v as [n|v].
    + apply Forall_app. split; [done|]. apply Forall_app.
      split; [by repeat constructor|].
      eapply Forall_impl; [apply Number_toString_chars|].
      intros d Hd. by apply number_char_plain in Hd as (_ & _ & ?).
    + repeat (apply Forall_app; split); try done; by repeat constructor.
  - exists c. unfold yaml_line. destruct v; by eexists.
Qed.

Lemma fields_good file fm :
  no_lf file -> Forall good_field (fields_of file (parseYamlFrontmatter fm)).
Proof.
  intros Hf. unfold fields_of.
  assert (Hkeep : forall key, In key generated_keys ->
            Forall good_field
              match truthy (parseYamlFrontmatter fm) key with
              | Some v => [(key, VStr v)]
              | None => []
              end).
  { intros key Hk. destruct (truthy _ key) as [v|] eqn:Hv; [|done].
    constructor; [|constructor]. split; [done|]. simpl.
    by apply truthy_no_lf in Hv. }
  repeat (apply Forall_app; split); try (apply Hkeep; simpl; tauto).
  constructor; [|constructor; [|constructor]].
  - split; [simpl; tauto|]. simpl.
    destruct (truthy _ (lit "title")) as [v|] eqn:Hv; simpl.
    + by apply truthy_no_lf in Hv.
    + by apply defaultTitle_no_lf.
  - split; [simpl; tauto|done].
Qed.

Lemma frontmatter_at_generated J tail :
  indexOf (LF :: lit "---") (J ++ (LF :: lit "---") ++ tail) = Some (length J) ->
  parseFrontmatter ((lit "---" ++ [LF] ++ J ++ [LF] ++ lit "---") ++ tail)
  = {| frontmatter := Some J; body := trim tail |}.
Proof.
  intros Hi. unfold parseFrontmatter, frontmatter_at.
  replace ((lit "---" ++ [LF] ++ J ++ [LF] ++ lit "---") ++ tail)
    with ((lit "---" ++ [LF]) ++ J ++ (LF :: lit "---") ++ tail)
    by (by rewrite <- !app_assoc).
  rewrite startsWith_app.
  change 4 with (length (lit "---" ++ [LF])) at 1 2.
  rewrite drop_app_length, Hi, take_app_length. f_equal. f_equal.
  rewrite !app_assoc, <- (app_assoc (lit "---" ++ [LF])).
  replace (4 + length J + 4)
    with (length ((lit "---" ++ [LF]) ++ J ++ LF :: lit "---"))
    by (rewrite !length_app; simpl; lia).
  by rewrite drop_app_length.
Qed.

Lemma parse_generated key v obj :
  In key generated_keys ->
  Sync.parse_line obj (yaml_line (key, v)) = <[key := text_of v]> obj.
Proof.
  intros Hk.
  assert (Hkey : key <> [] /\ Forall (fun c => c <> 58%N) key
                 /\ trim key = key /\ str_eqb key (lit "__proto__") = false).
  { unfold generated_keys in Hk. simpl in Hk.
    repeat (destruct Hk as [<-|Hk];
            [split; [done|split; [by repeat constructor|by vm_compute]]|]).
    done. }
  destruct Hkey as (Hne & Hc & Ht & Hp).
  destruct v as [n|v]; [rewrite parse_line_number by done
                       |rewrite parse_line_string by done];
    unfold obj_set; by rewrite Ht, Hp.
Qed.

Lemma fold_generated fields obj :
  Forall (fun kv => In kv.1 generated_keys) fields ->
  fold_left Sync.parse_line (yaml_line <$> fields) obj
  = fold_left (fun o kv => <[kv.1 := text_of kv.2]> o) fields obj.
Proof.
  intros Hf. revert obj. induction Hf as [|[key v] fields Hk Hf IH]; intros obj;
    [done|].
  rewrite fmap_cons. cbn [fold_left].
  rewrite parse_generated by done. apply IH.
Qed.

(** The front matter of the regenerated file, read back. *)
Lemma front_matter_of_newContent file content :
  no_lf file ->
  front_matter_of (newContent file content)
  = kept (front_matter_of content) (lit "cover_media_id")
      (kept (front_matter_of content) (lit "cover_url")
         (kept (front_matter_of content) (lit "cover")
            (<[lit "order" := Number_toString (getChapterOrder file)]>
               (<[lit "title" :=
                    default (defaultTitle file)
                      (truthy (front_matter_of content) (lit "title"))]> ∅)))).
Proof.
  intros Hfile. unfold front_matter_of at 1, newContent, generateFrontmatter.
  fold (front_matter_of content).
  set (existing := front_matter_of content).
  pose proof (fields_good file (frontmatter (parseFrontmatter content)) Hfile)
    as Hgood.
  fold (front_matter_of content) in Hgood. fold existing in Hgood.
  set (fields := fields_of file existing) in *.
  assert (Hlines : Forall (fun l => no_lf l /\ exists c t, l = c :: t /\ c <> 45%N)
                     (yaml_line <$> fields)).
  { apply Forall_fmap. eapply Forall_impl; [exact Hgood|].
    intros kv Hkv. by apply good_field_line. }
  assert (Hne : yaml_line <$> fields <> []) by done.
  rewrite frontmatter_at_generated by by apply indexOf_block_end.
  cbn [frontmatter]. unfold parseYamlFrontmatter.
  destruct (join [LF] (yaml_line <$> fields)) as [|c J] eqn:HJ.
  { exfalso. unfold fields, fields_of in HJ. cbn [fmap list_fmap app] in HJ.
    change (join [LF] (?l :: ?l' :: ?ls)) with (l ++ LF :: join [LF] (l' :: ls)) in HJ.
    unfold yaml_line at 1 in HJ. by eval_lits. }
  rewrite <- HJ. rewrite split_join.
  2: done.
  2: { eapply Forall_impl; [exact Hlines|]. by intros l [? _]. }
  rewrite fold_generated.
  2: { eapply Forall_impl; [exact Hgood|]. by intros kv [? _]. }
  unfold fields, fields_of. cbn [fold_left app fst snd text_of].
  rewrite !fold_left_app. unfold kept.
  by destruct (truthy existing (lit "cover")),
       (truthy existing (lit "cover_url")),
       (truthy existing (lit "cover_media_id")).
Qed.

Lemma names_filter_sub (f : str * option str -> bool) l x :
  x ∈ names (List.filter f l) -> x ∈ names l.
Proof.
  unfold names. induction l as [|a l IH]; simpl; [done|].
  destruct (f a); simpl; rewrite ?elem_of_cons; intuition.
Qed.

Lemma names_filter_NoDup (f : str * option str -> bool) l :
  NoDup (names l) -> NoDup (names (List.filter f l)).
Proof.
  unfold names. induction l as [|a l IH]; simpl; [done|].
  intros [Ha Hl]%NoDup_cons. destruct (f a); simpl; [|by apply IH].
  apply NoDup_cons. split; [|by apply IH].
  intros Hin. by apply names_filter_sub in Hin.
Qed.

(** The chapter loop writes, for each file of the listing, the content made
    from the file read, and touches nothing else. *)
Lemma sync_files_lookup l site site' :
  sync_files l site = (site', Finished) -> NoDup (names l) ->
  (forall file content,
      In (file, Some content) l -> site' !! file = Some (newContent file content))
  /\ (forall f, f ∉ names l -> site' !! f = site !! f).
Proof.
  revert site; induction l as [|[file [content|]] l IH]; intros site; simpl.
  - intros [= <-] _. by split.
  - intros Hs [Hnot Hnd]%NoDup_cons. destruct (IH _ Hs Hnd) as [IH1 IH2].
    split.
    + intros f c [[= <- <-]|Hin]; [|by apply IH1].
      rewrite IH2 by done. apply lookup_insert_eq.
    + intros f Hf. apply not_elem_of_cons in Hf as [Hne Hf].
      rewrite IH2 by done. by apply lookup_insert_ne.
  - done.
Qed.

End SyncFacts.

Section FrontMatter.
Import Sync Spec SyncFacts.

(** C1, as stated, fails: the destination file has [cover: "x.jpg"] in its
    front matter, the source file has no cover, and after the sync the front
    matter of the destination file has no cover any more. *)
Lemma front_matter_destination_cover_counterexample :
  let files := [(lit "notes.md", Some (lit "Body"))] in
  let site := {[ lit "notes.md" := site_with_cover ]} in
  front_matter_of site_with_cover !! lit "cover" = Some (lit "x.jpg")
  /\ front_matter_of (lit "Body") !! lit "cover" = None
  /\ exists new,
       (syncNovel (Some files) site).1 !! lit "notes.md" = Some new
       /\ front_matter_of new !! lit "cover" = None.
Proof.
  split; [by vm_compute|]. split; [by vm_compute|].
  eexists. split; by vm_compute.
Qed.

(** C1 (amended): for every chapter file synced whose name contains no
    line feed, the destination file is regenerated from the source file
    alone.  If the front matter of the
    source contains a non-empty [cover] (or [cover_url], [cover_media_id])
    field, the destination front matter contains that field with that
    value after the sync, and it contains no such field otherwise, whatever
    the destination file held before; [order] is always recomputed from the
    file name, and [title] is recomputed from the file name only if the
    source has no explicit title. *)
Theorem front_matter_preservation
    (files : list (str * option str)) (site site' : gmap str str)
    (file content : str) :
  syncNovel (Some files) site = (site', Finished) ->
  NoDup (names files) ->
  In (file, Some content) files ->
  endsWith (lit ".md") file = true ->
  Forall (fun c => c <> LF) file ->
  let source := front_matter_of content in
  let new := newContent file content in
  site' !! file = Some new
  /\ (forall key, In key cover_keys ->
        front_matter_of new !! key
        = match source !! key with
          | Some (c :: v) => Some (c :: v)
          | _ => None
          end)
  /\ front_matter_of new !! lit "order"
     = Some (Number_toString (getChapterOrder file))
  /\ front_matter_of new !! lit "title"
     = Some match source !! lit "title" with
            | Some (c :: v) => c :: v
            | _ => defaultTitle file
            end.
Proof.
  intros Hsync Hnd Hin Hmd Hfile source new. split.
  - unfold syncNovel in Hsync.
    apply sync_files_lookup in Hsync as [Hs _];
      [|by apply names_filter_NoDup].
    apply Hs, filter_In. by split.
  - unfold new. rewrite front_matter_of_newContent by done.
    fold source. unfold kept, truthy. split; [|split].
    + intros key Hk. unfold cover_keys in Hk. simpl in Hk.
      destruct Hk as [<-|[<-|[<-|[]]]];
        destruct (source !! lit "cover") as [[|? ?]|],
                 (source !! lit "cover_url") as [[|? ?]|],
                 (source !! lit "cover_media_id") as [[|? ?]|];
        by simplify_map_eq.
    + destruct (source !! lit "cover") as [[|? ?]|],
               (source !! lit "cover_url") as [[|? ?]|],
               (source !! lit "cover_media_id") as [[|? ?]|];
        by simplify_map_eq.
    + destruct (source !! lit "cover") as [[|? ?]|],
               (source !! lit "cover_url") as [[|? ?]|],
               (source !! lit "cover_media_id") as [[|? ?]|];
        destruct (source !! lit "title") as [[|? ?]|];
        by simplify_map_eq.
Qed.

Lemma front_matter_preservation_witness :
  let content :=
    lit "---" ++ [LF] ++ lit "cover: " ++ [34%N] ++ lit "x.jpg" ++ [34%N]
    ++ [LF] ++ lit "---" ++ [LF; LF] ++ lit "Body" in
  front_matter_of (newContent (lit "Chap_1_AB_Dawn.md") content) !! lit "cover"
  = Some (lit "x.jpg").
Proof.
  intros content.
  pose proof (front_matter_preservation
                [(lit "Chap_1_AB_Dawn.md", Some content)] ∅
                {[ lit "Chap_1_AB_Dawn.md" := newContent (lit "Chap_1_AB_Dawn.md") content ]}
                (lit "Chap_1_AB_Dawn.md") content) as H.
  destruct H as (_ & Hcover & _).
  - by vm_compute.
  - apply NoDup_singleton.
  - by left.
  - by vm_compute.
  - by repeat constructor.
  - etrans; [apply (Hcover (lit "cover")); by left|]. by vm_compute.
Defined.

(** A line feed in the file name goes into the default title; followed by
    three dashes it ends the generated block early, and the fields written
    after the title are not read back. *)
Example front_matter_line_feed_in_name :
  let file := lit "a" ++ [LF] ++ lit "---b.md" in
  let content :=
    lit "---" ++ [LF] ++ lit "cover: " ++ [34%N] ++ lit "x.jpg" ++ [34%N]
    ++ [LF] ++ lit "---" ++ [LF; LF] ++ lit "Body" in
  front_matter_of content !! lit "cover" = Some (lit "x.jpg")
  /\ front_matter_of (newContent file content) !! lit "cover" = None
  /\ front_matter_of (newContent file content) !! lit "order" = None.
Proof. repeat split; by vm_compute. Qed.

End FrontMatter.

(** ** The excerpt *)

Module ExcerptFacts.
Import Publish Spec GsubFacts.

Abbreviation is_word_char := (fun c : char => negb (is_space c)).

(** The leftmost match: nothing matches before it. *)
Lemma search_from_leftmost {A} (m : option char -> str -> option A) s p pre a :
  search_from m p s = Some (pre, a) ->
  exists s', s = pre ++ s'
    /\ (exists q, m q s' = Some a)
    /\ forall a1 b1, pre = a1 ++ b1 -> b1 <> [] -> exists q, m q (b1 ++ s') = None.
Proof.
  revert p pre; induction s as [|c s IH]; intros p pre; simpl.
  - destruct (m p []) eqn:E; [|done]. intros [= <- <-]. exists [].
    split; [done|]. split; [by exists p|]. intros a1 b1 Hab Hb.
    by destruct a1, b1.
  - destruct (m p (c :: s)) eqn:E.
    + intros [= <- <-]. exists (c :: s). split; [done|]. split; [by exists p|].
      intros a1 b1 Hab Hb. by destruct a1, b1.
    + destruct (search_from m (Some c) s) as [[pre' a']|] eqn:Es; [|done].
      intros [= <- <-]. destruct (IH _ _ Es) as (s' & -> & Hm & Hleft).
      exists s'. split; [done|]. split; [done|].
      intros a1 b1 Hab Hb. destruct a1 as [|x a1]; simpl in Hab.
      * subst b1. by exists p.
      * injection Hab as -> ->. by apply (Hleft a1 b1).
Qed.

Lemma span_nil_iff (f : char -> bool) s :
  span f s = [] <-> match s with [] => True | c :: _ => f c = false end.
Proof. destruct s as [|c s]; simpl; [done|]. by destruct (f c). Qed.

Lemma forallb_Forall (f : char -> bool) s :
  forallb f s = true <-> Forall (fun c => f c = true) s.
Proof.
  induction s as [|c s IH]; simpl; [by split|].
  rewrite andb_true_iff, IH, Forall_cons. done.
Qed.

(** What [word_tail_at] matches: a run of white space and a last word. *)
Lemma word_tail_at_Some q s n :
  word_tail_at q s = Some n ->
  n = length s
  /\ exists ws word,
       s = ws ++ word /\ ws <> []
       /\ Forall (fun c => is_space c = true) ws
       /\ Forall (fun c => is_word_char c = true) word.
Proof.
  unfold word_tail_at. destruct (span is_space s) as [|w ws] eqn:Hs; [done|].
  destruct (forallb _ _) eqn:Hw; [|done]. intros [= <-]. split; [done|].
  exists (w :: ws), (drop (length (w :: ws)) s). rewrite <- Hs in Hw |- *.
  split; [apply span_app|]. split; [by rewrite Hs|].
  split; [apply forallb_Forall, span_forallb|by apply forallb_Forall].
Qed.

Lemma word_tail_at_space q c word :
  is_space c = true -> Forall (fun d => is_word_char d = true) word ->
  word_tail_at q (c :: word) = Some (S (length word)).
Proof.
  intros Hc Hw. unfold word_tail_at. cbn [span]. rewrite Hc.
  assert (Hs : span is_space word = []).
  { apply span_nil_iff. destruct Hw as [|d word Hd _]; [done|].
    by apply negb_true_iff in Hd. }
  rewrite Hs. cbn [length drop]. rewrite drop_0.
  by rewrite (proj2 (forallb_Forall _ _) Hw).
Qed.

(** Without a match, there is no white space at all. *)
Lemma word_tail_none s p :
  search_from word_tail_at p s = None ->
  Forall (fun c => is_word_char c = true) s.
Proof.
  revert p; induction s as [|c s IH]; intros p Hs; [done|].
  apply search_from_none_inv in Hs as [Hm Hs]. apply IH in Hs.
  constructor; [|done]. destruct (is_space c) eqn:Hc; [|done].
  by rewrite word_tail_at_space in Hm.
Qed.

(** The cut of [createExcerpt]: the text before the last run of white
    space, or the whole text when there is no white space. *)
Lemma word_tail_cut s :
  (Forall (fun c => is_word_char c = true) s
   /\ replace_first word_tail_at Clean.erase s = s)
  \/ exists kept ws word,
       s = kept ++ ws ++ word /\ ws <> []
       /\ Forall (fun c => is_space c = true) ws
       /\ Forall (fun c => is_word_char c = true) word
       /\ (forall c, last kept = Some c -> is_space c = false)
       /\ replace_first word_tail_at Clean.erase s = kept.
Proof.
  unfold replace_first, search.
  destruct (search_from word_tail_at None s) as [[pre n]|] eqn:Hs.
  - right. apply search_from_leftmost in Hs as (s' & -> & [q Hm] & Hleft).
    apply word_tail_at_Some in Hm as (-> & ws & word & -> & Hne & Hws & Hword).
    exists pre, ws, word. repeat (split; [done|]). split.
    + intros c Hlast. destruct (is_space c) eqn:Hc; [|done]. exfalso.
      destruct pre as [|x pre _] using rev_ind; [done|].
      rewrite last_snoc in Hlast. injection Hlast as ->.
      destruct (Hleft pre [c] eq_refl ltac:(done)) as [q' Hq'].
      unfold word_tail_at in Hq'. simpl in Hq'. rewrite Hc in Hq'.
      assert (Hspan : span is_space (ws ++ word) = ws).
      { apply span_all; [by apply forallb_Forall|].
        destruct Hword as [|d word Hd _]; [done|]. by apply negb_true_iff in Hd. }
      rewrite Hspan, drop_app_length in Hq'.
      by rewrite (proj2 (forallb_Forall _ _) Hword) in Hq'.
    + unfold Clean.erase. simpl. rewrite drop_ge; [by rewrite app_nil_r|].
      rewrite length_app. lia.
  - left. split; [|done]. by apply word_tail_none in Hs.
Qed.

(** A trimmed text does not start with white space. *)
Lemma trimStart_head s c t : trimStart s = c :: t -> is_space c = false.
Proof.
  induction s as [|d s IH]; simpl; [done|].
  destruct (is_space d) eqn:Hd; [done|]. by intros [= <- _].
Qed.

Lemma trimStart_snoc s c :
  is_space c = false -> trimStart (s ++ [c]) = trimStart s ++ [c].
Proof.
  intros Hc. induction s as [|d s IH]; simpl; [by rewrite Hc|].
  by destruct (is_space d).
Qed.

Lemma trim_head s c t : trim s = c :: t -> is_space c = false.
Proof.
  unfold trim, trimEnd. destruct (trimStart s) as [|d u] eqn:Hs; [done|].
  pose proof (trimStart_head _ _ _ Hs) as Hd.
  simpl rev. rewrite trimStart_snoc by done. rewrite rev_unit.
  by intros [= <- _].
Qed.

End ExcerptFacts.

Section Excerpt.
Import Publish Spec ExcerptFacts.

(** C6, as stated, fails: the plain text of a body of 600 letters is that
    body, and its excerpt is its first 500 letters and the ellipsis.  The
    cut falls inside the word: the characters on both sides of the cut are
    letters, and there is no white space before it. *)
Lemma excerpt_mid_word_counterexample :
  plainText long_word = long_word
  /\ createExcerpt long_word = repeat 97%N 500 ++ lit "..."
  /\ long_word !! 499 = Some 97%N /\ long_word !! 500 = Some 97%N
  /\ is_space 97%N = false.
Proof. repeat split; by vm_compute. Qed.

(** C6 (amended): when the plain text of a body has more than 500
    characters, the excerpt has at most 503 characters and is a non-empty
    proper prefix of the plain text followed by [...].  If the first 500
    characters contain white space, the prefix ends where their last run of
    white space starts, after a character that is not white space; if they
    contain none, the prefix is the first 500 characters, wherever that cut
    falls.  A plain text of at most 500 characters is returned unchanged,
    without an ellipsis. *)
Theorem excerpt_truncation (body : str) :
  let plain := plainText body in
  (length plain <= 500 -> createExcerpt body = plain)
  /\ (500 < length plain ->
      exists kept rest,
        createExcerpt body = kept ++ lit "..."
        /\ length (createExcerpt body) <= 503
        /\ plain = kept ++ rest /\ kept <> [] /\ rest <> []
        /\ ((Forall (fun c => is_space c = false) (take 500 plain)
             /\ kept = take 500 plain)
            \/ exists ws word,
                 take 500 plain = kept ++ ws ++ word /\ ws <> []
                 /\ Forall (fun c => is_space c = true) ws
                 /\ Forall (fun c => is_space c = false) word
                 /\ forall c, last kept = Some c -> is_space c = false)).
Proof.
  intros plain. unfold createExcerpt, createExcerpt_max. fold plain. split.
  - intros Hle. by rewrite (proj2 (Nat.leb_le _ _) Hle).
  - intros Hlt. rewrite (proj2 (Nat.leb_gt _ _) Hlt).
    assert (Hlen : length (take 500 plain) = 500) by (rewrite length_take; lia).
    assert (Hplain : plain = take 500 plain ++ drop 500 plain)
      by (by rewrite take_drop).
    assert (Hdrop : drop 500 plain <> []).
    { intros Hd. apply (f_equal length) in Hd. rewrite length_drop in Hd.
      simpl in Hd. lia. }
    destruct (word_tail_cut (take 500 plain))
      as [[Hword ->]|(kept & ws & word & Hcut & Hne & Hws & Hword & Hlast & ->)].
    + exists (take 500 plain), (drop 500 plain).
      split; [done|]. split; [rewrite length_app, Hlen; simpl; lia|].
      split; [done|]. split; [by intros Ht; rewrite Ht in Hlen|].
      split; [done|]. left. split; [|done].
      eapply Forall_impl; [exact Hword|]. intros c Hc. by apply negb_true_iff.
    + exists kept, ((ws ++ word) ++ drop 500 plain).
      assert (Hk : length kept <= 500).
      { rewrite <- Hlen, Hcut, length_app. lia. }
      split; [done|].
      split; [rewrite length_app; change (length (lit "...")) with 3; lia|].
      split; [by rewrite app_assoc, <- Hcut|].
      split.
      { intros ->. simpl in Hcut.
        destruct Hws as [|w ws Hw _]; [done|].
        destruct (plain) as [|c t] eqn:Hp; [done|].
        pose proof (trim_head _ _ _ Hp) as Hc. simpl in Hcut.
        injection Hcut as -> _. congruence. }
      split; [by destruct ws|]. right. exists ws, word.
      repeat (split; [done|]). split; [|done].
      eapply Forall_impl; [exact Hword|]. intros c Hc. by apply negb_true_iff.
Qed.

Lemma excerpt_truncation_witness :
  createExcerpt (lit "A short *body*.") = lit "A short body."
  /\ length (createExcerpt long_text) <= 503.
Proof.
  split.
  - etrans; [apply (proj1 (excerpt_truncation (lit "A short *body*.")))|].
    + vm_compute. lia.
    + by vm_compute.
  - destruct (proj2 (excerpt_truncation long_text)) as (kept & rest & _ & Hlen & _).
    + vm_compute. lia.
    + exact Hlen.
Defined.

(** The excerpt of 120 words stops after the hundredth word. *)
Example excerpt_of_long_text :
  createExcerpt long_text = take 499 long_text ++ lit "...".
Proof. by vm_compute. Qed.

End Excerpt.

(** ** The cleaner *)

Module CleanFacts.
Import Clean Spec GsubFacts.

Lemma str_length_ind (P : list N -> Prop) :
  (forall s, (forall t, length t < length s -> P t) -> P s) -> forall s, P s.
Proof.
  intros Hstep s. remember (length s) as n eqn:Hn. revert s Hn.
  induction n as [n IH] using lt_wf_ind. intros s ->.
  apply Hstep. intros t Ht. by apply (IH (length t)).
Qed.

(** The equations of a global replacement with a proper matcher. *)
Lemma gsub_from_proper m r p s n :
  proper m -> m p s = Some n ->
  gsub_from m r p 0 s
  = r (take n s) ++ gsub_from m r (last (take n s)) 0 (drop n s)
  /\ 0 < n <= length s.
Proof.
  intros Hm Hn. destruct (Hm _ _ _ Hn) as [Hpos Hle]. split; [|done].
  destruct n as [|n]; [lia|]. by apply gsub_from_match.
Qed.

Lemma gsub_from_nil m r p : proper m -> gsub_from m r p 0 [] = [].
Proof.
  intros Hm. simpl. destruct (m p []) as [n|] eqn:E; [|done].
  apply Hm in E. simpl in E. lia.
Qed.

(** Absence, through the probe. *)
Lemma search_from_suffix {A} (m : option char -> str -> option A) a b p :
  search_from m p (a ++ b) = None ->
  search_from m (if a is [] then p else last a) b = None.
Proof.
  revert p; induction a as [|c a IH]; intros p; [done|].
  simpl app. intros [_ Hs]%search_from_none_inv. apply IH in Hs.
  destruct a; [done|]. done.
Qed.

Lemma search_from_suffix_at {A} (m : option char -> str -> option A) a b p :
  search_from m p (a ++ b) = None -> exists q, m q b = None.
Proof.
  intros Hs%search_from_suffix. exists (if a is [] then p else last a).
  destruct b as [|c b].
  - simpl in Hs. by destruct (m _ []).
  - by apply search_from_none_inv in Hs as [? _].
Qed.

Lemma absent_search x s p :
  search_from (occurs_at x) p s = None <-> absent x s.
Proof.
  split.
  - intros Hs a b ->. apply search_from_suffix_at in Hs as [q Hq].
    unfold occurs_at in Hq. by rewrite startsWith_app in Hq.
  - intros Habs. apply search_from_none. intros q a b ->.
    unfold occurs_at. destruct (startsWith x b) eqn:E; [|done].
    apply startsWith_eq in E. destruct (Habs a (drop (length x) b)).
    by rewrite <- E.
Qed.

(** *** Runs of line feeds *)

Lemma span_lf_repeat s : span is_lf s = repeat LF (length (span is_lf s)).
Proof.
  induction s as [|c s IH]; simpl; [done|].
  destruct (is_lf c) eqn:E; simpl; [|done].
  apply char_eqb_eq in E. subst c. by f_equal.
Qed.

Lemma span_lf_cons_ne c s : c <> LF -> span is_lf (c :: s) = [].
Proof.
  intros Hc. simpl. destruct (is_lf c) eqn:E; [|done].
  by apply char_eqb_eq in E.
Qed.

Lemma squeeze_refl p s : squeeze p s s.
Proof. revert p; induction s; intros p; by constructor. Qed.

Lemma squeeze_app p w s s' :
  squeeze (if w is [] then p else last w) s s' -> squeeze p (w ++ s) (w ++ s').
Proof.
  revert p; induction w as [|c w IH]; intros p Hs; [done|].
  simpl app. constructor. apply IH. by destruct w.
Qed.

Lemma squeeze_drop_run k s s' :
  squeeze (Some LF) s s' -> squeeze (Some LF) (repeat LF k ++ s) s'.
Proof. intros Hs. induction k; simpl; [done|]. by constructor. Qed.

Lemma squeeze_span p s s' :
  squeeze p s s' -> length (span is_lf s') <= length (span is_lf s).
Proof.
  induction 1 as [p|p c s s' Hs IH|s s' Hs IH]; simpl; [done| |].
  - destruct (is_lf c); simpl; lia.
  - change (is_lf LF) with true. simpl. lia.
Qed.

Lemma squeeze_startsWith q c s s' :
  Forall (fun d => d <> LF) q -> c <> LF -> squeeze (Some c) s s' ->
  startsWith q s' = startsWith q s.
Proof.
  intros Hq. revert c s s'.
  induction Hq as [|x q Hx Hq IH]; intros c s s' Hc Hs; [by destruct s, s'|].
  inversion Hs as [p|p d t t' Ht|t t' Ht]; subst; simpl; [done| |done].
  destruct (char_eqb x d) eqn:E; [|done]. apply char_eqb_eq in E. subst d.
  simpl. by apply (IH x).
Qed.

(** A line feed of the result that follows a text without line feeds is a
    line feed of the input at the same place. *)
Lemma squeeze_prefix w p u o :
  Forall (fun d => d <> LF) w -> p <> Some LF ->
  squeeze p u (w ++ LF :: o) ->
  exists u', u = w ++ LF :: u' /\ squeeze (Some LF) u' o.
Proof.
  intros Hw. revert p u.
  induction Hw as [|x w Hx Hw IH]; intros p u Hp Hs; simpl in Hs.
  - inversion Hs as [|q d t t' Ht|t t' Ht]; subst; [|done]. by exists t.
  - inversion Hs as [|q d t t' Ht|t t' Ht]; subst; [|done].
    destruct (IH (Some x) t) as (u' & -> & Hu'); [congruence|done|].
    by exists u'.
Qed.

Lemma squeeze_head_lf p u o :
  squeeze p u (LF :: o) -> exists u', u = LF :: u'.
Proof. inversion 1; subst; by eexists. Qed.

(** A matcher that does not look at the previous character. *)
Lemma gsub_from_prev m r :
  (forall p q s, m p s = m q s) ->
  forall s p q k, gsub_from m r p k s = gsub_from m r q k s.
Proof.
  intros Hm. induction s as [|c s IH]; intros p q k; simpl.
  - by rewrite (Hm p q).
  - destruct k; [|done]. by rewrite (Hm p q).
Qed.

Lemma no_leading_lf_span s : no_leading_lf s <-> span is_lf s = [].
Proof.
  destruct s as [|c s]; simpl; [done|]. unfold is_lf.
  destruct (char_eqb c LF) eqn:E.
  - apply char_eqb_eq in E. by split.
  - split; [done|]. intros _ ->. by rewrite char_eqb_refl in E.
Qed.

Lemma span_lf_rest s : no_leading_lf (drop (length (span is_lf s)) s).
Proof.
  pose proof (span_stop is_lf s) as H.
  destruct (drop _ s) as [|c r]; [done|]. simpl. intros ->. done.
Qed.

Lemma squeeze_no_leading_lf p s s' :
  squeeze p s s' -> no_leading_lf s -> no_leading_lf s'.
Proof.
  intros Hs%squeeze_span Hl. apply no_leading_lf_span.
  apply no_leading_lf_span in Hl. rewrite Hl in Hs.
  destruct (span is_lf s'); [done|simpl in Hs; lia].
Qed.

(** *** The blank-line step *)

Lemma blank_run_at_proper : proper blank_run_at.
Proof.
  intros p s n. unfold blank_run_at.
  destruct (4 <=? length (span is_lf s)) eqn:E; [|done].
  intros [= <-]. apply Nat.leb_le in E.
  pose proof (span_length_le is_lf s). lia.
Qed.

Lemma collapse_blank_skip c t :
  blank_run_at None (c :: t) = None ->
  collapse_blank (c :: t) = c :: collapse_blank t.
Proof.
  intros Hm. unfold collapse_blank, gsub. rewrite gsub_from_no_match by done.
  f_equal. by apply gsub_from_prev.
Qed.

Lemma collapse_blank_match s n :
  blank_run_at None s = Some n ->
  4 <= n /\ s = repeat LF n ++ drop n s /\ no_leading_lf (drop n s)
  /\ collapse_blank s = [LF; LF; LF] ++ collapse_blank (drop n s).
Proof.
  intros Hm.
  destruct (gsub_from_proper _ (fun _ => [LF; LF; LF]) _ _ _
              blank_run_at_proper Hm) as [Heq _].
  unfold blank_run_at in Hm.
  destruct (4 <=? length (span is_lf s)) eqn:E; [|done].
  injection Hm as <-. apply Nat.leb_le in E.
  split; [done|]. split; [|split].
  - rewrite <- span_lf_repeat. apply span_app.
  - apply span_lf_rest.
  - unfold collapse_blank, gsub. rewrite Heq. f_equal. by apply gsub_from_prev.
Qed.

Lemma collapse_blank_squeeze s : forall p, squeeze p s (collapse_blank s).
Proof.
  induction s as [s IH] using str_length_ind. intros p.
  destruct s as [|c t]; [constructor|].
  destruct (blank_run_at None (c :: t)) as [n|] eqn:Hm.
  - apply collapse_blank_match in Hm as (Hn & Hs & _ & ->).
    set (rest := drop n (c :: t)) in *.
    assert (Hlen : length rest < length (c :: t)).
    { rewrite Hs, length_app, repeat_length. lia. }
    rewrite Hs. replace n with (3 + (n - 3)) by lia.
    rewrite repeat_app, <- app_assoc.
    apply (squeeze_app _ [LF; LF; LF]). by apply squeeze_drop_run, IH.
  - rewrite collapse_blank_skip by done. constructor. apply IH. simpl. lia.
Qed.

(** After the step, no run of four line feeds is left. *)
Lemma collapse_blank_no_run s :
  forall p, search_from blank_run_at p (collapse_blank s) = None.
Proof.
  induction s as [s IH] using str_length_ind. intros p.
  destruct s as [|c t]; [done|].
  destruct (blank_run_at None (c :: t)) as [n|] eqn:Hm.
  - apply collapse_blank_match in Hm as (Hn & Hs & Hrest & ->).
    set (rest := drop n (c :: t)) in *.
    assert (Hlen : length rest < length (c :: t)).
    { rewrite Hs, length_app, repeat_length. lia. }
    assert (Hspan : span is_lf (collapse_blank rest) = []).
    { apply no_leading_lf_span.
      by apply (squeeze_no_leading_lf None _ _ (collapse_blank_squeeze _ _)). }
    simpl. unfold blank_run_at at 1 2 3. simpl. rewrite !Hspan. simpl.
    by rewrite (IH _ Hlen).
  - rewrite collapse_blank_skip by done.
    assert (Hlen : length t < length (c :: t)) by (simpl; lia).
    cbn [search_from]. rewrite (IH _ Hlen).
    replace (blank_run_at p (c :: collapse_blank t)) with (@None nat); [done|].
    symmetry. unfold blank_run_at in *.
    pose proof (squeeze_span None _ _
                  (squeeze_keep None c _ _ (collapse_blank_squeeze t (Some c)))).
    destruct (4 <=? length (span is_lf (c :: t))) eqn:E; [done|].
    apply Nat.leb_gt in E.
    destruct (4 <=? _) eqn:E'; [|done]. apply Nat.leb_le in E'. lia.
Qed.

Lemma squeeze_no_run p s s' :
  squeeze p s s' ->
  search_from blank_run_at p s = None -> search_from blank_run_at p s' = None.
Proof.
  induction 1 as [p|p c s s' Hs IH|s s' Hs IH]; [done| |].
  - intros [Hm Hn]%search_from_none_inv. cbn [search_from].
    rewrite (IH Hn).
    replace (blank_run_at p (c :: s')) with (@None nat); [done|].
    symmetry. unfold blank_run_at in *.
    pose proof (squeeze_span None _ _ (squeeze_keep None c _ _ Hs)).
    destruct (4 <=? length (span is_lf (c :: s))) eqn:E; [done|].
    apply Nat.leb_gt in E.
    destruct (4 <=? _) eqn:E'; [|done]. apply Nat.leb_le in E'. lia.
  - intros [_ Hn]%search_from_none_inv. by apply IH.
Qed.

Lemma no_run_absent s p :
  search_from blank_run_at p s = None -> absent [LF; LF; LF; LF] s.
Proof.
  intros Hs a b ->. apply search_from_suffix_at in Hs as [q Hq].
  unfold blank_run_at in Hq. simpl in Hq.
  change (is_lf LF) with true in Hq. simpl in Hq.
  destruct (span is_lf b); simpl in Hq; done.
Qed.

(** *** The step after the delimiter *)

Abbreviation delimiter := (lit "---" ++ [LF]).

Lemma delimiter_at_spec p s n :
  delimiter_at p s = Some n <->
  exists k,
    n = 4 + S k /\ s = delimiter ++ repeat LF (S k) ++ drop n s
    /\ no_leading_lf (drop n s).
Proof.
  unfold delimiter_at. split.
  - destruct (startsWith delimiter s) eqn:Hs; [|done].
    apply startsWith_eq in Hs. change (length delimiter) with 4 in Hs.
    destruct (span is_lf (drop 4 s)) as [|l run] eqn:Hrun; [done|].
    intros [= <-]. exists (length run).
    pose proof (span_app is_lf (drop 4 s)) as Happ.
    pose proof (span_lf_rest (drop 4 s)) as Hrest.
    rewrite (span_lf_repeat (drop 4 s)) in Happ at 1.
    rewrite Hrun in Happ, Hrest. rewrite drop_drop in Happ, Hrest.
    cbn [length] in *. split; [done|]. split; [|done].
    etrans; [exact Hs|]. f_equal. exact Happ.
  - intros (k & -> & Hs & Hrest). rewrite Hs, startsWith_app.
    change 4 with (length delimiter) at 1. rewrite drop_app_length.
    apply no_leading_lf_span in Hrest.
    assert (Hspan : span is_lf (repeat LF (S k) ++ drop (4 + S k) s)
                    = repeat LF (S k)).
    { apply span_all.
      - clear. induction k; [done|]. simpl in *. by rewrite IHk.
      - destruct (drop _ s) as [|c r]; [done|]. simpl in Hrest.
        by destruct (is_lf c). }
    rewrite Hspan. simpl. by rewrite repeat_length.
Qed.

Lemma delimiter_at_proper : proper delimiter_at.
Proof.
  intros p s n (k & -> & Hs & _)%delimiter_at_spec. split; [lia|].
  rewrite Hs at 1. rewrite !length_app, repeat_length. simpl. lia.
Qed.

Lemma after_delimiter_skip c t :
  delimiter_at None (c :: t) = None ->
  after_delimiter (c :: t) = c :: after_delimiter t.
Proof.
  intros Hm. unfold after_delimiter, gsub. rewrite gsub_from_no_match by done.
  f_equal. by apply gsub_from_prev.
Qed.

Lemma after_delimiter_match s n :
  delimiter_at None s = Some n ->
  exists k rest,
    s = (delimiter ++ [LF]) ++ repeat LF k ++ rest
    /\ no_leading_lf rest /\ length rest < length s
    /\ after_delimiter s = (delimiter ++ [LF]) ++ after_delimiter rest.
Proof.
  intros Hm.
  destruct (gsub_from_proper _ (fun m => take 4 m ++ [LF]) _ _ _
              delimiter_at_proper Hm) as [Heq _].
  apply delimiter_at_spec in Hm as (k & -> & Hs & Hrest).
  exists k, (drop (4 + S k) s). split; [|split; [done|split]].
  - rewrite Hs at 1. by rewrite <- !app_assoc.
  - rewrite Hs at 2. rewrite !length_app, repeat_length. simpl. lia.
  - unfold after_delimiter, gsub. rewrite Heq. f_equal.
    + f_equal. rewrite take_take. replace (4 `min` (4 + S k)) with 4 by lia.
      rewrite Hs. by change (take 4 (delimiter ++ ?x)) with delimiter.
    + by apply gsub_from_prev.
Qed.

Lemma after_delimiter_squeeze s : forall p, squeeze p s (after_delimiter s).
Proof.
  induction s as [s IH] using str_length_ind. intros p.
  destruct s as [|c t]; [constructor|].
  destruct (delimiter_at None (c :: t)) as [n|] eqn:Hm.
  - apply after_delimiter_match in Hm as (k & rest & Hs & _ & Hlen & ->).
    rewrite Hs. apply (squeeze_app _ (delimiter ++ [LF])).
    change (squeeze (Some LF) (repeat LF k ++ rest) (after_delimiter rest)).
    by apply squeeze_drop_run, IH.
  - rewrite after_delimiter_skip by done. constructor. apply IH. simpl. lia.
Qed.

(** The delimiter followed by two blank lines. *)
Abbreviation wide_gap := (lit "---" ++ [LF; LF; LF]).

Lemma occurs_cons x p c s :
  startsWith x (c :: s) = false ->
  search_from (occurs_at x) (Some c) s = None ->
  search_from (occurs_at x) p (c :: s) = None.
Proof.
  intros Hx Hs. cbn [search_from]. unfold occurs_at at 1. by rewrite Hx, Hs.
Qed.

Lemma occurs_cons_inv x p c s :
  search_from (occurs_at x) p (c :: s) = None ->
  startsWith x (c :: s) = false
  /\ search_from (occurs_at x) (Some c) s = None.
Proof.
  intros [Hm Hs]%search_from_none_inv. split; [|done].
  unfold occurs_at in Hm. by destruct (startsWith x (c :: s)).
Qed.

(** After the step, no delimiter is followed by two blank lines. *)
Lemma after_delimiter_no_gap s :
  forall p, search_from (occurs_at wide_gap) p (after_delimiter s) = None.
Proof.
  induction s as [s IH] using str_length_ind. intros p.
  destruct s as [|c t]; [done|].
  destruct (delimiter_at None (c :: t)) as [n|] eqn:Hm.
  - apply after_delimiter_match in Hm as (k & rest & Hs & Hrest & Hlen & ->).
    pose proof (squeeze_no_leading_lf None _ _ (after_delimiter_squeeze rest None)
                  Hrest) as Hg.
    specialize (IH rest Hlen (Some LF)).
    destruct (after_delimiter rest) as [|g gs]; [by vm_compute|].
    change ((delimiter ++ [LF]) ++ g :: gs)
      with (45 :: 45 :: 45 :: 10 :: 10 :: g :: gs)%N.
    apply occurs_cons.
    { change (startsWith wide_gap (45 :: 45 :: 45 :: 10 :: 10 :: g :: gs)%N)
        with (char_eqb 10 g && true).
      destruct (char_eqb 10 g) eqn:E; [|done].
      apply char_eqb_eq in E. by subst g. }
    do 4 (apply occurs_cons; [by vm_compute|]). exact IH.
  - rewrite after_delimiter_skip by done.
    apply occurs_cons; [|apply IH; simpl; lia].
    destruct (startsWith wide_gap (c :: after_delimiter t)) eqn:Hx; [|done].
    exfalso. apply startsWith_eq in Hx.
    pose proof (after_delimiter_squeeze (c :: t) None) as Hsq.
    rewrite after_delimiter_skip, Hx in Hsq by done.
    change (wide_gap ++ ?b) with (lit "---" ++ LF :: LF :: LF :: b) in Hsq.
    apply squeeze_prefix in Hsq as (u' & Hu & Hsq);
      [|by repeat constructor|done].
    apply squeeze_head_lf in Hsq as [u'' ->].
    assert (Hd : is_Some (delimiter_at None (c :: t))).
    { rewrite Hu. unfold delimiter_at.
      change (lit "---" ++ LF :: LF :: u'') with (delimiter ++ LF :: u'').
      rewrite startsWith_app.
      change (drop 4 (delimiter ++ ?b)) with b. cbn [span].
      by change (is_lf LF) with true. }
    rewrite Hm in Hd. by destruct Hd.
Qed.

(** Where no delimiter is followed by two blank lines, the step changes
    nothing. *)
Lemma after_delimiter_id s :
  forall p, search_from (occurs_at wide_gap) p s = None -> after_delimiter s = s.
Proof.
  induction s as [s IH] using str_length_ind. intros p Hs.
  destruct s as [|c t]; [done|].
  destruct (delimiter_at None (c :: t)) as [n|] eqn:Hm.
  - apply after_delimiter_match in Hm as (k & rest & Heq & Hrest & Hlen & ->).
    rewrite Heq in Hs |- *.
    destruct k as [|k].
    + change (repeat LF 0 ++ rest) with rest in *.
      apply search_from_suffix in Hs. f_equal.
      by apply (IH _ Hlen _ Hs).
    + exfalso. clear -Hs. by vm_compute in Hs.
  - rewrite after_delimiter_skip by done.
    apply occurs_cons_inv in Hs as [_ Hs]. f_equal.
    apply (IH t ltac:(simpl; lia) _ Hs).
Qed.

(** *** One run of line feeds in the blank-line step *)

Lemma span_lf_run n b :
  no_leading_lf b -> span is_lf (repeat LF n ++ b) = repeat LF n.
Proof.
  intros Hb. apply span_all.
  - clear. induction n; [done|]. simpl. by rewrite IHn.
  - destruct b as [|c r]; [done|]. simpl in Hb. unfold is_lf.
    destruct (char_eqb c LF) eqn:E; [|done]. by apply char_eqb_eq in E.
Qed.

Lemma absent_no_run s p :
  absent [LF; LF; LF; LF] s -> search_from blank_run_at p s = None.
Proof.
  intros Habs. apply search_from_none. intros q a b ->.
  destruct (blank_run_at q b) as [n|] eqn:Hm; [|done]. exfalso.
  apply collapse_blank_match in Hm as (Hn & Hb & _).
  apply (Habs a (repeat LF (n - 4) ++ drop n b)). rewrite Hb at 1.
  replace n with (4 + (n - 4)) at 1 by lia.
  by rewrite repeat_app, <- app_assoc.
Qed.

Lemma collapse_blank_run n b :
  no_leading_lf b ->
  collapse_blank (repeat LF n ++ b) = repeat LF (n `min` 3) ++ collapse_blank b.
Proof.
  intros Hb. destruct (decide (4 <= n)) as [Hn|Hn].
  - assert (Hm : blank_run_at None (repeat LF n ++ b) = Some n).
    { unfold blank_run_at. rewrite span_lf_run, repeat_length by done.
      by rewrite (proj2 (Nat.leb_le 4 n)). }
    apply collapse_blank_match in Hm as (_ & _ & _ & ->).
    replace (n `min` 3) with 3 by lia. f_equal.
    by rewrite drop_app_length' by (by rewrite repeat_length).
  - replace (n `min` 3) with n by lia.
    induction n as [|n IH]; [done|].
    simpl repeat. cbn [app]. rewrite collapse_blank_skip.
    + f_equal. apply IH. lia.
    + unfold blank_run_at.
      change (LF :: repeat LF n ++ b) with (repeat LF (S n) ++ b).
      rewrite span_lf_run, repeat_length by done.
      by rewrite (proj2 (Nat.leb_gt 4 (S n))) by lia.
Qed.

Lemma span_app_short (f : N -> bool) a x :
  length (span f a) < length a -> span f (a ++ x) = span f a.
Proof.
  induction a as [|c a IH]; simpl; [lia|].
  destruct (f c); simpl; [|done]. intros Hlen. f_equal. apply IH. lia.
Qed.

Lemma span_lf_short a :
  a <> [] -> last a <> Some LF -> length (span is_lf a) < length a.
Proof.
  induction a as [|c a IH]; [done|]. intros _ Hlast. simpl.
  destruct (is_lf c) eqn:Hc; simpl; [|lia].
  destruct a as [|d a].
  - apply char_eqb_eq in Hc. by subst c.
  - rewrite last_cons_cons in Hlast. specialize (IH ltac:(done) Hlast).
    simpl in *. lia.
Qed.

Lemma last_drop_short (a : list N) m : m < length a -> last (drop m a) = last a.
Proof.
  revert m; induction a as [|c a IH]; intros m Hm; simpl in Hm; [lia|].
  destruct m as [|m]; [done|]. simpl drop. rewrite IH by lia.
  destruct a; [simpl in Hm; lia|done].
Qed.

(** A run of line feeds between a text that does not end with a line feed
    and one that does not start with one: four or more become three, fewer
    stay. *)
Lemma collapse_blank_around a :
  forall n b,
    last a <> Some LF -> no_leading_lf b ->
    collapse_blank (a ++ repeat LF n ++ b)
    = collapse_blank a ++ repeat LF (n `min` 3) ++ collapse_blank b.
Proof.
  induction a as [a IH] using str_length_ind. intros n b Ha Hb.
  destruct a as [|c a']; [by apply collapse_blank_run|].
  assert (Hshort : length (span is_lf (c :: a')) < length (c :: a'))
    by by apply span_lf_short.
  assert (Hspan : span is_lf ((c :: a') ++ repeat LF n ++ b)
                  = span is_lf (c :: a')) by by apply span_app_short.
  assert (Hat : blank_run_at None ((c :: a') ++ repeat LF n ++ b)
                = blank_run_at None (c :: a')).
  { unfold blank_run_at. by rewrite Hspan. }
  destruct (blank_run_at None (c :: a')) as [m|] eqn:Hm.
  - assert (Hle : m < length (c :: a')).
    { unfold blank_run_at in Hm.
      destruct (4 <=? length (span is_lf (c :: a'))); [|done].
      injection Hm as <-. exact Hshort. }
    apply collapse_blank_match in Hat as (_ & _ & _ & ->).
    apply collapse_blank_match in Hm as (Hn & _ & _ & ->).
    rewrite drop_app_le by lia. rewrite <- app_assoc. f_equal.
    apply IH; [rewrite length_drop; lia| |done].
    by rewrite last_drop_short.
  - change ((c :: a') ++ ?x) with (c :: a' ++ x) in *.
    rewrite !collapse_blank_skip by done. simpl. f_equal.
    apply IH; [simpl; lia| |done].
    destruct a'; [done|]. by rewrite last_cons_cons in Ha.
Qed.

(** *** The whole transformation: runs and gaps *)

Lemma clean_no_run content p :
  search_from blank_run_at p (clean content) = None.
Proof.
  unfold clean. eapply squeeze_no_run; [apply after_delimiter_squeeze|].
  apply collapse_blank_no_run.
Qed.

Lemma clean_no_gap content p :
  search_from (occurs_at wide_gap) p (clean content) = None.
Proof. unfold clean. apply after_delimiter_no_gap. Qed.

(** *** The labelled bullet lines *)

Lemma is_dot_not_lf c : is_dot c = true -> c <> LF.
Proof. by intros Hc ->. Qed.

Lemma is_dot_terminator c : is_dot c = true <-> is_line_terminator c = false.
Proof. unfold is_dot. by destruct (is_line_terminator c). Qed.

Abbreviation erase_label label p s := (gsub_from (label_at label) erase p 0 s).

(** A line that starts with [b], matched up to its end. *)
Lemma line_from_spec (b : list N) p s n :
  b <> [] -> forallb is_dot b = true ->
  (if at_line_start p && startsWith b s
   then Some (length b + length (span is_dot (drop (length b) s)))
   else None) = Some n ->
  at_line_start p = true /\ 0 < n <= length s
  /\ forallb is_dot (take n s) = true
  /\ match drop n s with
     | [] => True
     | c :: _ => is_line_terminator c = true
     end.
Proof.
  intros Hne Hbd.
  destruct (at_line_start p) eqn:Hp; [|done].
  destruct (startsWith b s) eqn:Hs; [|done].
  cbn [andb]. apply startsWith_eq in Hs.
  set (r := drop (length b) s) in *.
  intros [= <-]. split; [done|].
  assert (Hb : 0 < length b) by (destruct b; [done|simpl; lia]).
  pose proof (span_app is_dot r) as Hr.
  pose proof (span_stop is_dot r) as Hstop.
  pose proof (span_forallb is_dot r) as Hdots.
  set (d := span is_dot r) in *.
  assert (Hs' : s = (b ++ d) ++ drop (length d) r)
    by (by rewrite <- app_assoc, <- Hr).
  assert (Hlen : length b + length d = length (b ++ d))
    by (by rewrite length_app).
  rewrite Hlen. split; [|split].
  - split; [rewrite length_app; lia|]. rewrite Hs' at 1. rewrite !length_app. lia.
  - rewrite Hs', take_app_length, forallb_app, Hdots. by rewrite Hbd.
  - rewrite Hs', drop_app_length.
    destruct (drop (length d) r) as [|c r']; [done|].
    by apply negb_false_iff in Hstop.
Qed.

Section Label.
Variable label : list N.
Hypothesis label_on_a_line : forallb is_dot label = true.

Lemma bullet_eq : bullet label = 45%N :: (bullet_tail label).
Proof. reflexivity. Qed.

Lemma bullet_tail_dots : forallb is_dot (bullet_tail label) = true.
Proof.
  unfold bullet_tail. rewrite !forallb_app, label_on_a_line. reflexivity.
Qed.

Lemma bullet_dots : forallb is_dot (bullet label) = true.
Proof. rewrite bullet_eq. cbn [forallb]. by rewrite bullet_tail_dots. Qed.

Lemma bullet_tail_no_lf : Forall (fun d => d <> LF) (bullet_tail label).
Proof.
  pose proof bullet_tail_dots as H. apply ExcerptFacts.forallb_Forall in H.
  eapply Forall_impl; [exact H|]. intros c Hc. by apply is_dot_not_lf.
Qed.

Lemma startsWith_bullet_cons c s :
  startsWith (bullet label) (c :: s) = char_eqb 45%N c && startsWith (bullet_tail label) s.
Proof. by rewrite bullet_eq. Qed.

Lemma label_at_none p s :
  label_at label p s = None
  <-> at_line_start p && startsWith (bullet label) s = false.
Proof. unfold label_at. by destruct (_ && _). Qed.

Lemma label_at_terminator p c s :
  is_line_terminator c = true -> label_at label p (c :: s) = None.
Proof.
  intros Hc. apply label_at_none. rewrite startsWith_bullet_cons.
  destruct (char_eqb 45%N c) eqn:E; [|by rewrite andb_false_r].
  apply char_eqb_eq in E. by subst c.
Qed.

Lemma label_at_nil p : label_at label p [] = None.
Proof. apply label_at_none. rewrite bullet_eq. by rewrite andb_false_r. Qed.

Lemma label_at_spec p s n :
  label_at label p s = Some n ->
  at_line_start p = true /\ 0 < n <= length s
  /\ forallb is_dot (take n s) = true
  /\ match drop n s with
     | [] => True
     | c :: _ => is_line_terminator c = true
     end.
Proof.
  unfold label_at. apply line_from_spec; [|apply bullet_dots].
  by rewrite bullet_eq.
Qed.

Lemma label_at_proper : proper (label_at label).
Proof. intros p s n Hn. by apply label_at_spec in Hn as (_ & ? & _). Qed.

(** The step removes whole lines. *)
Lemma erase_label_lines s : forall p, erase_lines p s (erase_label label p s).
Proof.
  induction s as [s IH] using str_length_ind. intros p.
  destruct s as [|c t]; [rewrite gsub_from_nil by apply label_at_proper; constructor|].
  destruct (label_at label p (c :: t)) as [n|] eqn:Hm.
  - destruct (gsub_from_proper _ erase _ _ _ label_at_proper Hm) as [-> Hn].
    apply label_at_spec in Hm as (Hp & _ & Hd & Hrest).
    unfold erase at 1. cbn [app].
    rewrite <- (take_drop n (c :: t)) at 1.
    destruct (drop n (c :: t)) as [|c' t'] eqn:Hdrop.
    + rewrite gsub_from_nil by apply label_at_proper. rewrite app_nil_r.
      by constructor.
    + rewrite gsub_from_no_match by by apply label_at_terminator.
      apply erase_line; try done. apply IH.
      apply (f_equal length) in Hdrop. rewrite length_drop in Hdrop.
      simpl in *. lia.
  - rewrite gsub_from_no_match by done. constructor. apply IH. simpl. lia.
Qed.

(** Removing the text of whole lines, or line feeds after line feeds, does
    not make a line start with a bullet. *)

Lemma erase_startsWith q c s s' :
  forallb is_dot q = true -> is_line_terminator c = false ->
  erase_lines (Some c) s s' -> startsWith q s' = startsWith q s.
Proof.
  revert c s s'. induction q as [|x q IH]; intros c s s' Hq Hc Hs;
    [by destruct s, s'|].
  simpl in Hq. apply andb_true_iff in Hq as [Hx Hq].
  inversion Hs as [p|p d t t' Ht|p d Hp Hd|p d e t t' Hp Hd He Ht]; subst;
    simpl in *; try congruence.
  destruct (char_eqb x d) eqn:E; [|done]. apply char_eqb_eq in E. subst d.
  simpl. apply (IH x); [done| |done]. by apply is_dot_terminator.
Qed.

Lemma erase_lines_label p s s' :
  erase_lines p s s' ->
  search_from (label_at label) p s = None ->
  search_from (label_at label) p s' = None.
Proof.
  induction 1 as [p|p c s s' Hs IH|p d Hp Hd|p d c s s' Hp Hd Hc Hs IH].
  - done.
  - intros [Hm Hn]%search_from_none_inv. cbn [search_from].
    rewrite (IH Hn).
    replace (label_at label p (c :: s')) with (@None nat); [done|].
    symmetry. apply label_at_none. apply label_at_none in Hm.
    rewrite startsWith_bullet_cons in *.
    destruct (char_eqb 45%N c) eqn:E; [|done].
    apply char_eqb_eq in E. subst c.
    rewrite (erase_startsWith _ 45%N s s'); try done.
    by apply bullet_tail_dots.
  - intros _. simpl. by rewrite label_at_nil.
  - intros Hn. cbn [search_from].
    rewrite label_at_terminator by done.
    rewrite IH; [done|].
    change (d ++ c :: s) with (d ++ [c] ++ s) in Hn. rewrite app_assoc in Hn.
    apply search_from_suffix in Hn. rewrite last_snoc in Hn.
    by destruct d.
Qed.

Lemma squeeze_label p s s' :
  squeeze p s s' ->
  search_from (label_at label) p s = None ->
  search_from (label_at label) p s' = None.
Proof.
  induction 1 as [p|p c s s' Hs IH|s s' Hs IH]; [done| |].
  - intros [Hm Hn]%search_from_none_inv. cbn [search_from].
    rewrite (IH Hn).
    replace (label_at label p (c :: s')) with (@None nat); [done|].
    symmetry. apply label_at_none. apply label_at_none in Hm.
    rewrite startsWith_bullet_cons in *.
    destruct (char_eqb 45%N c) eqn:E; [|done].
    apply char_eqb_eq in E. subst c.
    rewrite (squeeze_startsWith _ 45%N s s'); try done.
    by apply bullet_tail_no_lf.
  - intros [_ Hn]%search_from_none_inv. by apply IH.
Qed.

(** After the step, no line starts with the bullet. *)
Lemma erase_label_none s :
  forall p, search_from (label_at label) p (erase_label label p s) = None.
Proof.
  induction s as [s IH] using str_length_ind. intros p.
  destruct s as [|c t].
  { rewrite gsub_from_nil by by apply label_at_proper. simpl.
    by rewrite label_at_nil. }
  destruct (label_at label p (c :: t)) as [n|] eqn:Hm.
  - destruct (gsub_from_proper _ erase _ _ _ label_at_proper Hm) as [-> Hn].
    apply label_at_spec in Hm as (Hp & _ & Hd & Hrest).
    unfold erase at 1. cbn [app].
    destruct (drop n (c :: t)) as [|c' t'] eqn:Hdrop.
    + rewrite gsub_from_nil by by apply label_at_proper. simpl.
      by rewrite label_at_nil.
    + rewrite gsub_from_no_match by by apply label_at_terminator.
      cbn [search_from]. rewrite label_at_terminator by done.
      rewrite IH; [done|].
      apply (f_equal length) in Hdrop. rewrite length_drop in Hdrop.
      simpl in *. lia.
  - rewrite gsub_from_no_match by done. cbn [search_from].
    rewrite IH by (simpl; lia).
    replace (label_at label p (c :: erase_label label (Some c) t))
      with (@None nat); [done|].
    symmetry. apply label_at_none. apply label_at_none in Hm.
    rewrite startsWith_bullet_cons in *.
    destruct (char_eqb 45%N c) eqn:E; [|done].
    apply char_eqb_eq in E. subst c.
    rewrite (erase_startsWith _ 45%N t (erase_label label (Some 45%N) t));
      try done.
    + by apply bullet_tail_dots.
    + by apply erase_label_lines.
Qed.

End Label.

(** *** The whole transformation: a second pass *)

Lemma labels_on_a_line label : In label labels -> forallb is_dot label = true.
Proof.
  unfold labels. simpl. intros H.
  repeat (destruct H as [<-|H]; [reflexivity|]). done.
Qed.

Abbreviation unlabelled label s := (search_from (label_at label) None s = None).

Lemma remove_label_none label s :
  In label labels -> unlabelled label (remove_label label s).
Proof. intros Hl. apply erase_label_none. by apply labels_on_a_line. Qed.

Lemma remove_label_keeps label label' s :
  In label labels -> In label' labels ->
  unlabelled label' s -> unlabelled label' (remove_label label s).
Proof.
  intros Hl Hl'. apply erase_lines_label; [by apply labels_on_a_line|].
  apply erase_label_lines. by apply labels_on_a_line.
Qed.

Lemma collapse_blank_keeps label s :
  In label labels -> unlabelled label s -> unlabelled label (collapse_blank s).
Proof.
  intros Hl. apply squeeze_label; [by apply labels_on_a_line|].
  apply collapse_blank_squeeze.
Qed.

Lemma after_delimiter_keeps label s :
  In label labels -> unlabelled label s -> unlabelled label (after_delimiter s).
Proof.
  intros Hl. apply squeeze_label; [by apply labels_on_a_line|].
  apply after_delimiter_squeeze.
Qed.

Lemma clean_unlabelled label content :
  In label labels -> unlabelled label (clean content).
Proof.
  intros Hl. unfold clean, remove_labels.
  apply after_delimiter_keeps, collapse_blank_keeps; try done.
  unfold labels in Hl. simpl in Hl.
  destruct Hl as [<-|[<-|[<-|[<-|[<-|[]]]]]];
    repeat first
      [ apply remove_label_none; unfold labels; simpl; tauto
      | apply remove_label_keeps; [unfold labels; simpl; tauto
                                  |unfold labels; simpl; tauto|] ].
Qed.

Lemma remove_label_id label s : unlabelled label s -> remove_label label s = s.
Proof. intros Hs. by apply gsub_from_id. Qed.

Lemma remove_labels_id s :
  (forall label, In label labels -> unlabelled label s) -> remove_labels s = s.
Proof.
  intros Hs. unfold remove_labels.
  rewrite (remove_label_id label_words) by (apply Hs; unfold labels; simpl; tauto).
  rewrite (remove_label_id label_pov) by (apply Hs; unfold labels; simpl; tauto).
  rewrite (remove_label_id label_timeline)
    by (apply Hs; unfold labels; simpl; tauto).
  rewrite (remove_label_id label_theme) by (apply Hs; unfold labels; simpl; tauto).
  apply remove_label_id, Hs. unfold labels. simpl. tauto.
Qed.

Lemma collapse_blank_id s :
  search_from blank_run_at None s = None -> collapse_blank s = s.
Proof. intros Hs. by apply gsub_from_id. Qed.

Lemma remove_metadata_id s : metadata_block s = false -> remove_metadata s = s.
Proof.
  unfold metadata_block, search. intros Hs. apply gsub_from_id.
  by destruct (search_from metadata_at None s).
Qed.

(** A second pass changes nothing, unless the first pass left a metadata
    block. *)
Lemma clean_clean content :
  metadata_block (clean content) = false -> clean (clean content) = clean content.
Proof.
  intros Hm. unfold clean at 1.
  rewrite remove_metadata_id by done.
  rewrite remove_labels_id by (intros; by apply clean_unlabelled).
  rewrite collapse_blank_id by apply clean_no_run.
  by apply (after_delimiter_id _ None), clean_no_gap.
Qed.

(** Without an opening angle bracket there is no tag. *)
Lemma metadata_at_bracket p s :
  Forall (fun c => c <> 60%N) s -> metadata_at p s = None.
Proof.
  intros Hs. unfold metadata_at. destruct Hs as [|c s Hc _]; [done|].
  assert (Hf : startsWith_ci (lit "<metadata>") (c :: s) = false); [|by rewrite Hf].
  change (lit "<metadata>") with (60%N :: lit "metadata>"). cbn [startsWith_ci].
  assert (char_eqb (fold_case 60%N) (fold_case c) = false) as ->; [|done].
  apply not_true_iff_false. intros E%char_eqb_eq.
  change (fold_case 60%N) with 60%N in E. unfold fold_case in E.
  destruct ((97 <=? c)%N && (c <=? 122)%N) eqn:Hr; [|congruence].
  apply andb_true_iff in Hr as [H1 H2]. apply N.leb_le in H1, H2. lia.
Qed.

Lemma no_bracket_no_block s :
  Forall (fun c => c <> 60%N) s -> metadata_block s = false.
Proof.
  intros Hs. unfold metadata_block, search.
  rewrite search_from_none; [done|]. intros q a b ->.
  apply metadata_at_bracket. by apply Forall_app in Hs as [_ ?].
Qed.

Lemma clean_Forall (P : N -> Prop) content :
  P LF -> Forall P content -> Forall P (clean content).
Proof.
  intros HP Hc. unfold clean, after_delimiter, collapse_blank, remove_labels,
    remove_label, remove_metadata, gsub.
  apply gsub_from_Forall.
  { intros x Hx. apply Forall_app. split; [by apply Forall_take|].
    by repeat constructor. }
  apply gsub_from_Forall; [intros x _; by repeat constructor|].
  do 6 (apply gsub_from_Forall; [by intros x _|]). done.
Qed.

(** The first step matches no more than there is. *)
Lemma startsWith_ci_length p s :
  startsWith_ci p s = true -> length p <= length s.
Proof.
  revert s; induction p as [|x p IH]; intros [|y s]; simpl; try done; [lia|].
  intros [_ Hp]%andb_true_iff. apply IH in Hp. lia.
Qed.

Lemma indexOf_ci_length p s i :
  indexOf_ci p s = Some i -> i + length p <= length s.
Proof.
  revert i; induction s as [|c s IH]; intros i; cbn [indexOf_ci].
  - destruct (startsWith_ci p []) eqn:E; [|done].
    intros [= <-]. by apply startsWith_ci_length in E.
  - destruct (startsWith_ci p (c :: s)) eqn:E.
    + intros [= <-]. by apply startsWith_ci_length in E.
    + destruct (indexOf_ci p s) as [j|]; [|done]. simpl. intros [= <-].
      specialize (IH j eq_refl). simpl. lia.
Qed.

Lemma metadata_at_proper : proper metadata_at.
Proof.
  intros p s n. unfold metadata_at.
  destruct (startsWith_ci (lit "<metadata>") s) eqn:Hs; [|done].
  apply startsWith_ci_length in Hs. change (length (lit "<metadata>")) with 10 in Hs.
  destruct (indexOf_ci _ _) as [i|] eqn:Hi; [|done].
  apply indexOf_ci_length in Hi. change (length (lit "</metadata>")) with 11 in Hi.
  rewrite length_drop in Hi. intros [= <-].
  pose proof (span_length_le is_space (drop (i + 11) (drop 10 s))) as Hsp.
  rewrite !length_drop in Hsp. lia.
Qed.

Lemma squeeze_length p s s' : squeeze p s s' -> length s' <= length s.
Proof. induction 1; simpl; lia. Qed.

(** A metadata block left by the first pass is removed by the second. *)
Lemma clean_block_shorter content :
  metadata_block content = true -> length (clean content) < length content.
Proof.
  intros Hm. unfold clean, remove_labels, remove_label.
  eapply Nat.le_lt_trans; [apply (squeeze_length None), after_delimiter_squeeze|].
  eapply Nat.le_lt_trans; [apply (squeeze_length None), collapse_blank_squeeze|].
  unfold gsub.
  do 5 (eapply Nat.le_lt_trans; [apply gsub_erase_length|]).
  apply gsub_erase_shorter; [apply metadata_at_proper|].
  unfold metadata_block, search in Hm.
  by destruct (search_from metadata_at None content).
Qed.

Lemma after_delimiter_gap k rest :
  no_leading_lf rest ->
  after_delimiter (lit "---" ++ [LF] ++ repeat LF (S k) ++ rest)
  = lit "---" ++ [LF; LF] ++ after_delimiter rest.
Proof.
  intros Hrest.
  set (s := lit "---" ++ [LF] ++ repeat LF (S k) ++ rest).
  assert (Hdrop : drop (4 + S k) s = rest).
  { unfold s. change (lit "---" ++ [LF] ++ repeat LF (S k) ++ rest)
      with (delimiter ++ repeat LF (S k) ++ rest).
    rewrite app_assoc. apply drop_app_length'.
    rewrite length_app, repeat_length. done. }
  assert (Hm : delimiter_at None s = Some (4 + S k)).
  { apply delimiter_at_spec. exists k. rewrite Hdrop. by repeat split. }
  destruct (gsub_from_proper _ (fun m => take 4 m ++ [LF]) _ _ _
              delimiter_at_proper Hm) as [Heq _].
  unfold after_delimiter, gsub. rewrite Heq, Hdrop.
  rewrite take_take. replace (4 `min` (4 + S k)) with 4 by lia.
  change (take 4 s) with delimiter.
  change (lit "---" ++ [LF; LF] ++ ?x) with ((delimiter ++ [LF]) ++ x).
  f_equal. by apply gsub_from_prev.
Qed.

(** A run of line feeds ends where a text that starts with another
    character follows. *)
Lemma span_lf_app_dash a x :
  span is_lf (a ++ 45%N :: x) = span is_lf a.
Proof.
  induction a as [|c a IH]; [done|]. simpl. by destruct (is_lf c); rewrite ?IH.
Qed.

(** Before three dashes, the expression matches what it matches without
    them: a match does not reach into the dashes. *)
Lemma delimiter_at_before p b x :
  b <> [] -> delimiter_at p (b ++ lit "---" ++ x) = delimiter_at p b.
Proof.
  intros Hb. unfold delimiter_at.
  destruct b as [|c1 [|c2 [|c3 [|c4 b]]]]; [done| | | |].
  1-3: change (lit "---" ++ x) with (45 :: 45 :: 45 :: x)%N;
       change delimiter with [45; 45; 45; 10]%N; cbn [app startsWith];
       change (char_eqb 10%N 45%N) with false; cbn [andb];
       by rewrite !andb_false_r.
  change (startsWith delimiter ((c1 :: c2 :: c3 :: c4 :: b) ++ lit "---" ++ x))
      with (startsWith delimiter (c1 :: c2 :: c3 :: c4 :: b)).
    destruct (startsWith delimiter (c1 :: c2 :: c3 :: c4 :: b)); [|done].
    change (drop 4 ((c1 :: c2 :: c3 :: c4 :: b) ++ lit "---" ++ x))
      with (b ++ 45%N :: lit "--" ++ x).
    by rewrite span_lf_app_dash.
Qed.

Lemma after_delimiter_at s n :
  delimiter_at None s = Some n ->
  4 < n <= length s
  /\ after_delimiter s = (delimiter ++ [LF]) ++ after_delimiter (drop n s).
Proof.
  intros Hm.
  destruct (gsub_from_proper _ (fun m => take 4 m ++ [LF]) _ _ _
              delimiter_at_proper Hm) as [Heq Hn].
  apply delimiter_at_spec in Hm as (k & -> & Hs & Hrest).
  split; [lia|].
  unfold after_delimiter, gsub. rewrite Heq. f_equal.
  - f_equal. rewrite take_take. replace (4 `min` (4 + S k)) with 4 by lia.
    rewrite Hs. by change (take 4 (delimiter ++ ?x)) with delimiter.
  - by apply gsub_from_prev.
Qed.

(** The step on a text before three dashes and on what follows. *)
Lemma after_delimiter_app a :
  forall x,
    after_delimiter (a ++ lit "---" ++ x)
    = after_delimiter a ++ after_delimiter (lit "---" ++ x).
Proof.
  induction a as [a IH] using str_length_ind. intros x.
  destruct a as [|c a']; [done|].
  pose proof (delimiter_at_before None (c :: a') x ltac:(done)) as Hat.
  destruct (delimiter_at None (c :: a')) as [n|] eqn:Hm.
  - apply after_delimiter_at in Hat as [_ ->].
    apply after_delimiter_at in Hm as [Hn ->].
    rewrite drop_app_le by lia.
    rewrite <- (app_assoc (delimiter ++ [LF]) (after_delimiter (drop n (c :: a')))).
    f_equal. apply IH. rewrite length_drop. lia.
  - change ((c :: a') ++ ?y) with (c :: a' ++ y) in *.
    rewrite !after_delimiter_skip by done. simpl. f_equal.
    apply IH. simpl. lia.
Qed.

(** A delimiter line anywhere in the text, followed by blank lines. *)
Lemma after_delimiter_around a k rest :
  no_leading_lf rest ->
  after_delimiter (a ++ lit "---" ++ [LF] ++ repeat LF (S k) ++ rest)
  = after_delimiter a ++ lit "---" ++ [LF; LF] ++ after_delimiter rest.
Proof.
  intros Hrest. rewrite after_delimiter_app. f_equal.
  by apply after_delimiter_gap.
Qed.

End CleanFacts.

Section Cleaner.
Import Clean Spec CleanFacts.

(** C3, as stated, fails: removing the inner metadata block of
    [nested_metadata] puts an outer one together, which only a second pass
    removes. *)
Lemma cleaning_twice_counterexample :
  clean nested_metadata = lit "<metadata></metadata>"
  /\ clean (clean nested_metadata) = []
  /\ clean (clean nested_metadata) <> clean nested_metadata.
Proof. repeat split; by vm_compute. Qed.

(** C3 (amended): for every content whose cleaned form contains no metadata
    block, cleaning twice gives the same result as cleaning once, and a
    second run of the cleaner on the file writes nothing and reports no
    modification.  The cleaned form contains no metadata block, in
    particular, when the content has no opening angle bracket.  A metadata
    block that the first pass leaves is the only reason for a second pass
    to change anything. *)
Theorem cleaning_idempotent (content : str) :
  (metadata_block (clean content) = false ->
   clean (clean content) = clean content
   /\ forall filePath files files' modified,
        files !! filePath = Some content ->
        cleanChapter filePath files = Some (files', modified) ->
        cleanChapter filePath files' = Some (files', false))
  /\ (Forall (fun c => c <> 60%N) content ->
      metadata_block (clean content) = false)
  /\ (metadata_block (clean content) = true ->
      clean (clean content) <> clean content).
Proof.
  split; [|split].
  - intros Hm. pose proof (clean_clean content Hm) as Hcc.
    split; [done|].
    intros filePath files files' modified Hfile. unfold cleanChapter.
    rewrite Hfile. destruct (str_eqb (clean content) content) eqn:E.
    + intros [= <- _]. by rewrite Hfile, E.
    + intros [= <- _]. rewrite lookup_insert_eq, Hcc.
      by rewrite (proj2 (str_eqb_eq _ _) eq_refl).
  - intros Hc. apply no_bracket_no_block. by apply clean_Forall.
  - intros Hm Heq. apply clean_block_shorter in Hm. rewrite Heq in Hm. lia.
Qed.

Lemma cleaning_idempotent_witness :
  clean (clean sample_chapter) = clean sample_chapter
  /\ metadata_block (clean (lit "No tags here.")) = false.
Proof.
  split.
  - apply (proj1 (cleaning_idempotent sample_chapter)). by vm_compute.
  - apply (proj1 (proj2 (cleaning_idempotent (lit "No tags here.")))).
    vm_compute. repeat (apply List.Forall_cons; [discriminate|]).
    apply List.Forall_nil.
Defined.

(** The sample chapter, cleaned. *)
Example clean_sample_chapter :
  clean sample_chapter
  = lit "---" ++ [LF] ++ lit "title: One" ++ [LF] ++ lit "---" ++ [LF; LF]
    ++ lit "First." ++ [LF; LF; LF] ++ lit "Second." ++ [LF].
Proof. by vm_compute. Qed.

(** C4, as stated, fails: a run of exactly three line feeds in the input is
    still a run of three in the output. *)
Lemma blank_run_of_three_counterexample :
  clean (lit "a" ++ [LF; LF; LF] ++ lit "b") = lit "a" ++ [LF; LF; LF] ++ lit "b".
Proof. by vm_compute. Qed.

(** C4 (amended): the output of the cleaner contains no run of four or more
    consecutive line feeds; the blank-line step replaces every run of four
    or more by exactly three (two blank lines) and leaves a shorter run, a
    run of exactly three included, as it is. *)
Theorem blank_line_collapse :
  (forall content, absent [LF; LF; LF; LF] (clean content))
  /\ (forall a n b,
         last a <> Some LF -> no_leading_lf b ->
         collapse_blank (a ++ repeat LF n ++ b)
         = collapse_blank a ++ repeat LF (n `min` 3) ++ collapse_blank b).
Proof.
  split.
  - intros content. apply (no_run_absent _ None), clean_no_run.
  - intros a n b. apply collapse_blank_around.
Qed.

Lemma blank_line_collapse_witness :
  collapse_blank (lit "a" ++ repeat LF 6 ++ lit "b") = lit "a" ++ repeat LF 3 ++ lit "b"
  /\ collapse_blank (lit "a" ++ repeat LF 3 ++ lit "b") = lit "a" ++ repeat LF 3 ++ lit "b".
Proof.
  split.
  - etrans; [apply (proj2 blank_line_collapse (lit "a") 6 (lit "b"))|];
      by vm_compute.
  - etrans; [apply (proj2 blank_line_collapse (lit "a") 3 (lit "b"))|];
      by vm_compute.
Defined.

(** C5, as stated, fails: a blank line that follows a delimiter line is
    still there after cleaning. *)
Lemma delimiter_blank_line_counterexample :
  clean (lit "---" ++ [LF; LF] ++ lit "Text") = lit "---" ++ [LF; LF] ++ lit "Text"
  /\ ~ absent (lit "---" ++ [LF; LF]) (clean (lit "---" ++ [LF; LF] ++ lit "Text")).
Proof.
  split; [by vm_compute|]. intros Habs.
  apply (Habs [] (lit "Text")). by vm_compute.
Qed.

(** C5 (amended): after cleaning, no delimiter line is followed by more
    than one blank line: wherever [---] and its line feed are followed by
    one or more blank lines, the last step replaces these by exactly one
    blank line; the text before and the text after are treated on their
    own, and the text that follows the blank line kept does not start with
    another one. *)
Theorem delimiter_blank_lines :
  (forall content, absent (lit "---" ++ [LF; LF; LF]) (clean content))
  /\ (forall before k rest,
         no_leading_lf rest ->
         after_delimiter (before ++ lit "---" ++ [LF] ++ repeat LF (S k) ++ rest)
         = after_delimiter before ++ lit "---" ++ [LF; LF] ++ after_delimiter rest
         /\ no_leading_lf (after_delimiter rest)).
Proof.
  split.
  - intros content. apply (absent_search _ _ None), clean_no_gap.
  - intros before k rest Hrest. split; [by apply after_delimiter_around|].
    apply (squeeze_no_leading_lf None rest); [apply after_delimiter_squeeze|done].
Qed.

Lemma delimiter_blank_lines_witness :
  after_delimiter (lit "---" ++ [LF] ++ lit "title: One" ++ [LF]
                   ++ lit "---" ++ [LF] ++ repeat LF 4 ++ lit "Text")
  = lit "---" ++ [LF] ++ lit "title: One" ++ [LF] ++ lit "---" ++ [LF; LF] ++ lit "Text".
Proof.
  etrans; [apply (proj1 (proj2 delimiter_blank_lines
                           (lit "---" ++ [LF] ++ lit "title: One" ++ [LF])
                           3 (lit "Text") ltac:(discriminate)))|].
  by vm_compute.
Defined.

End Cleaner.

(** * Further properties of the scripts *)

(** ** Order keys: range and sorting *)

Module OrderRangeFacts.
Import Sync Spec OrderFacts.

(** Rounding keeps a number that is 0 or more that way. *)
Lemma number_of_nonneg z : (0 <= z)%Z -> nonnegative (number_of z).
Proof.
  intros Hz. unfold number_of.
  destruct (Z.abs z <=? 2 ^ 53)%Z eqn:Hsmall; [done|].
  apply Z.leb_gt in Hsmall. unfold nearest_double.
  destruct (_ <=? _)%Z.
  - destruct (z <? 0)%Z eqn:Hneg; [|done]. apply Z.ltb_lt in Hneg. lia.
  - cbn [nonnegative]. rewrite Z.sgn_pos by lia. rewrite Z.mul_1_l.
    apply Z.shiftl_nonneg.
    assert (Hq : (0 <= Z.shiftr (Z.abs z) (Z.log2 (Z.abs z) - 52))%Z)
      by (apply Z.shiftr_nonneg; lia).
    destruct (_ || _); lia.
Qed.

Lemma order_arithmetic_nonneg n sub :
  (0 <= n)%Z -> (0 <= sub)%Z ->
  nonnegative (num_add (num_mul (number_of n) (Finite 10)) (Finite sub)).
Proof.
  intros Hn Hsub. pose proof (number_of_nonneg n Hn) as Hmain.
  destruct (number_of n) as [k| | |]; try done. cbn [nonnegative] in Hmain.
  cbn [num_mul].
  pose proof (number_of_nonneg (k * 10) ltac:(lia)) as Hten.
  destruct (number_of (k * 10)) as [t| | |]; try done. cbn [nonnegative] in Hten.
  cbn [num_add]. apply number_of_nonneg. lia.
Qed.

(** What the expression of [getChapterOrder] matches. *)
Lemma chap_at_Some p s ds sub :
  chap_at p s = Some (ds, sub) ->
  ds <> [] /\ forallb is_digit ds = true
  /\ (forall l, sub = Some l -> is_upper l = true)
  /\ exists tail, s = lit "Chap_" ++ ds ++ tail.
Proof.
  unfold chap_at. destruct (startsWith (lit "Chap_") s) eqn:Hs; [|done].
  apply startsWith_eq in Hs. change (length (lit "Chap_")) with 5 in Hs.
  set (r := drop 5 s) in *.
  pose proof (span_forallb is_digit r) as Hd.
  pose proof (span_app is_digit r) as Hr.
  destruct (span is_digit r) as [|d ds'] eqn:Hspan; [done|].
  assert (Hres : forall sub', (forall l, sub' = Some l -> is_upper l = true) ->
            Some (d :: ds', sub') = Some (ds, sub) ->
            ds <> [] /\ forallb is_digit ds = true
            /\ (forall l, sub = Some l -> is_upper l = true)
            /\ exists tail, s = lit "Chap_" ++ ds ++ tail).
  { intros sub' Hsub [= <- <-]. split; [done|]. split; [done|]. split; [done|].
    exists (drop (length (d :: ds')) r). by rewrite <- Hr. }
  destruct (drop (length (d :: ds')) r) as [|x [|l t]];
    try (apply Hres; by intros ? [=]).
  destruct (char_eqb x 45%N && is_upper l) eqn:E.
  - apply Hres. intros l' [= <-]. by apply andb_true_iff in E as [_ ?].
  - apply Hres. by intros ? [=].
Qed.

Lemma is_upper_position l :
  is_upper l = true -> (1 <= Z.of_N l - 64 <= 26)%Z.
Proof.
  unfold is_upper. intros [H1 H2]%andb_true_iff. apply N.leb_le in H1, H2. lia.
Qed.

End OrderRangeFacts.

Section OrderKeyRange.
Import Sync Spec OrderFacts OrderRangeFacts SyncFacts.

(** X1: for file names of the convention whose sub-chapter letter, if any,
    is one of A to I, and whose order keys are computed without rounding
    (N*10 plus the position of the letter is at most 2^53), the order key
    sorts by chapter number first and by letter second: one key is smaller
    than the other exactly when its chapter number is smaller, or the
    numbers are equal and its letter comes first (no letter comes before
    A).  Two such names get the same key only if they have the same chapter
    number and the same letter. *)
Theorem order_key_sorts_chapters (N1 N2 : str) (L1 L2 : option char)
    (rest1 rest2 : str) :
  N1 <> [] -> forallb is_digit N1 = true ->
  N2 <> [] -> forallb is_digit N2 = true ->
  (forall l, L1 = Some l -> (65 <= l <= 73)%N) ->
  (forall l, L2 = Some l -> (65 <= l <= 73)%N) ->
  exact_key (chapter_number N1 * 10 + alphabet_position L1) ->
  exact_key (chapter_number N2 * 10 + alphabet_position L2) ->
  let key1 := getChapterOrder (chapter_name N1 L1 rest1) in
  let key2 := getChapterOrder (chapter_name N2 L2 rest2) in
  (number_lt key1 key2
   <-> (chapter_number N1 < chapter_number N2)%Z
       \/ (chapter_number N1 = chapter_number N2
           /\ (alphabet_position L1 < alphabet_position L2)%Z))
  /\ (key1 = key2 -> chapter_number N1 = chapter_number N2 /\ L1 = L2).
Proof.
  intros HN1 Hd1 HN2 Hd2 HL1 HL2 Hk1 Hk2 key1 key2.
  assert (Hup : forall L : option char,
            (forall l, L = Some l -> (65 <= l <= 73)%N) ->
            (forall l, L = Some l -> is_upper l = true)
            /\ (0 <= alphabet_position L <= 9)%Z
            /\ (forall l, L = Some l -> alphabet_position L = (Z.of_N l - 64)%Z)).
  { intros L HL.
    assert (Hu : forall l, L = Some l -> is_upper l = true).
    { intros l Hl. apply HL in Hl. unfold is_upper.
      apply andb_true_iff. split; apply N.leb_le; lia. }
    split; [done|]. destruct L as [l|]; [|by split].
    specialize (HL l eq_refl). specialize (Hu l eq_refl).
    rewrite alphabet_position_code by done. split; [lia|]. by intros ? [= <-]. }
  destruct (Hup L1 HL1) as (Hu1 & Hr1 & Hc1).
  destruct (Hup L2 HL2) as (Hu2 & Hr2 & Hc2).
  unfold key1, key2. rewrite !order_of_chapter_name by done.
  cbn [number_lt]. split; [lia|]. intros [= Heq].
  assert (Hn : chapter_number N1 = chapter_number N2) by lia. split; [done|].
  assert (Hp : alphabet_position L1 = alphabet_position L2) by lia.
  destruct L1 as [l1|], L2 as [l2|]; try done.
  - rewrite (Hc1 l1), (Hc2 l2) in Hp by done. f_equal. lia.
  - rewrite (Hc1 l1) in Hp by done. specialize (HL1 l1 eq_refl).
    change (alphabet_position None) with 0%Z in Hp. lia.
  - rewrite (Hc2 l2) in Hp by done. specialize (HL2 l2 eq_refl).
    change (alphabet_position None) with 0%Z in Hp. lia.
Qed.

Lemma order_key_sorts_chapters_witness :
  number_lt
    (getChapterOrder (chapter_name (lit "3") (Some 66%N) (lit "AB_Side.md")))
    (getChapterOrder (chapter_name (lit "4") None (lit "AB_Next.md"))).
Proof.
  apply (proj1 (order_key_sorts_chapters (lit "3") (lit "4") (Some 66%N) None
                  (lit "AB_Side.md") (lit "AB_Next.md")
                  ltac:(discriminate) ltac:(reflexivity)
                  ltac:(discriminate) ltac:(reflexivity)
                  ltac:(intros l [= <-]; lia) ltac:(intros l [=])
                  ltac:(by vm_compute) ltac:(by vm_compute))).
  left. vm_compute. reflexivity.
Defined.

(** X2: the order key of every file name is 0 or more, possibly infinite;
    it is never negative and never [NaN].  It is the sentinel 999, or the
    rounded result of ten times the number written after some [Chap_] of
    the name plus a sub-chapter index between 0 and 26; that result is
    exact when it is at most 2^53. *)
Theorem order_key_range (filename : str) :
  nonnegative (getChapterOrder filename)
  /\ (getChapterOrder filename = Finite 999
      \/ exists pre ds tail sub,
           filename = pre ++ lit "Chap_" ++ ds ++ tail
           /\ ds <> [] /\ forallb is_digit ds = true
           /\ (0 <= sub <= 26)%Z
           /\ getChapterOrder filename
              = num_add (num_mul (parseInt ds) (Finite 10)) (Finite sub)
           /\ (exact_key (chapter_number ds * 10 + sub) ->
               getChapterOrder filename = Finite (chapter_number ds * 10 + sub))).
Proof.
  unfold getChapterOrder.
  destruct (search chap_at filename) as [[pre [ds sub]]|] eqn:Hs;
    [|split; [done|by left]].
  apply search_from_Some in Hs as (p' & s' & -> & Hm).
  apply chap_at_Some in Hm as (Hne & Hd & Hsub & tail & ->).
  pose proof (integer_of_nonneg ds Hd) as Hn.
  set (subNum := match sub with Some l => (Z.of_N l - 64)%Z | None => 0%Z end).
  assert (Hb : (0 <= subNum <= 26)%Z).
  { unfold subNum. destruct sub as [l|]; [|lia].
    pose proof (is_upper_position l (Hsub l eq_refl)). lia. }
  assert (Hnum : match sub with
                 | Some l => Finite (Z.of_N l - 64)
                 | None => Finite 0
                 end = Finite subNum) by by destruct sub.
  rewrite Hnum. unfold parseInt. split.
  - apply order_arithmetic_nonneg; lia.
  - right. exists pre, ds, tail, subNum. repeat (split; [done|]).
    intros Hkey. apply exact_order_arithmetic; [done|lia|done].
Qed.

End OrderKeyRange.

(** ** The synchronizer: titles and the generated block *)

Module TitleFacts.
Import Sync Spec OrderFacts SyncFacts GsubFacts.

(** Global replacement of the characters of a class by one character. *)
Lemma gsub_class_map (f : char -> bool) (m : matcher) (x : char) :
  (forall p c t, m p (c :: t) = if f c then Some 1 else None) ->
  (forall p, m p [] = None) ->
  forall s p, gsub_from m (fun _ => [x]) p 0 s = (fun c => if f c then x else c) <$> s.
Proof.
  intros Hm Hnil. induction s as [|c s IH]; intros p; simpl.
  - by rewrite Hnil.
  - rewrite Hm. destruct (f c); simpl; by rewrite IH.
Qed.

(** Global removal of the characters of a class. *)
Lemma gsub_class_filter (f : char -> bool) (m : matcher) :
  (forall p c t, m p (c :: t) = if f c then Some 1 else None) ->
  (forall p, m p [] = None) ->
  forall s p, gsub_from m (fun _ => []) p 0 s = List.filter (fun c => negb (f c)) s.
Proof.
  intros Hm Hnil. induction s as [|c s IH]; intros p; simpl.
  - by rewrite Hnil.
  - rewrite Hm. destruct (f c); simpl; by rewrite IH.
Qed.

Lemma underscore_spaced title :
  gsub underscore (fun _ => lit " ") title = spaced title.
Proof.
  unfold gsub, spaced.
  by apply (gsub_class_map (fun c => char_eqb c 95%N) underscore 32%N).
Qed.

Lemma endsWith_app p s : endsWith p (s ++ p) = true.
Proof.
  unfold endsWith. rewrite length_app.
  rewrite (proj2 (Nat.leb_le _ _)) by lia.
  replace (length s + length p - length p) with (length s) by lia.
  rewrite drop_app_length. simpl. by apply str_eqb_eq.
Qed.

(** The title expression on a file name of the convention. *)
Lemma title_at_chapter_name p N L code title :
  N <> [] -> forallb is_digit N = true ->
  (forall l, L = Some l -> is_upper l = true) ->
  code <> [] -> Forall (fun c => c <> 95%N) code ->
  title <> [] -> forallb is_dot title = true ->
  title_at p (chapter_name N L (code ++ [95%N] ++ title ++ lit ".md")) = Some title.
Proof.
  intros HN Hd HL Hcode Hc Htitle Hdots. unfold title_at, chapter_name.
  rewrite startsWith_app. change (drop 5 (lit "Chap_" ++ ?x)) with x.
  rewrite span_all; [|done|by destruct L].
  destruct N as [|d N]; [done|]. rewrite drop_app_length.
  destruct code as [|k code]; [done|].
  set (r4 := title ++ lit ".md").
  assert (Hspan : span (fun c => negb (char_eqb c 95%N))
                    ((k :: code) ++ [95%N] ++ r4) = k :: code).
  { apply span_all; [|done]. apply forallb_forall. intros c Hin.
    rewrite List.Forall_forall in Hc. apply negb_true_iff.
    apply not_true_iff_false. intros E%char_eqb_eq. by apply (Hc c). }
  assert (Hr4 : (4 <=? length r4) = true).
  { apply Nat.leb_le. unfold r4. rewrite length_app.
    change (length (lit ".md")) with 3. destruct title; [done|simpl; lia]. }
  assert (Htake : take (length r4 - 3) r4 = title).
  { unfold r4. rewrite length_app. change (length (lit ".md")) with 3.
    replace (length title + 3 - 3) with (length title) by lia.
    by rewrite take_app_length. }
  assert (Hend : endsWith (lit ".md") r4 = true) by apply endsWith_app.
  assert (Hdrop : drop (length (k :: code)) (k :: code ++ 95%N :: r4) = 95%N :: r4)
    by apply (drop_app_length (k :: code)).
  destruct L as [l|]; cbn [app].
  - rewrite char_eqb_refl, (HL l eq_refl). cbn [andb].
    change (k :: code ++ 95%N :: r4) with ((k :: code) ++ [95%N] ++ r4).
    rewrite Hspan. change ((k :: code) ++ [95%N] ++ r4) with (k :: code ++ 95%N :: r4).
    rewrite Hdrop, Htake, Hr4, Hend, Hdots. done.
  - change (char_eqb 95%N 45%N) with false. cbn [andb].
    change (k :: code ++ 95%N :: r4) with ((k :: code) ++ [95%N] ++ r4).
    rewrite Hspan. change ((k :: code) ++ [95%N] ++ r4) with (k :: code ++ 95%N :: r4).
    rewrite Hdrop, Htake, Hr4, Hend, Hdots. done.
Qed.

Lemma absent_suffix (x a b : str) : absent x (a ++ b) -> absent x b.
Proof. intros Habs a' b' ->. apply (Habs (a ++ a') b'). by rewrite <- app_assoc. Qed.

Lemma no_chap_no_title filename :
  absent (lit "Chap_") filename -> search title_at filename = None.
Proof.
  intros Habs. apply search_from_none. intros p a b ->.
  unfold title_at. destruct (startsWith (lit "Chap_") b) eqn:Hs; [|done].
  apply startsWith_eq in Hs. destruct (Habs a (drop (length (lit "Chap_")) b)).
  by rewrite <- Hs.
Qed.

Lemma no_chap_no_number filename :
  absent (lit "Chap_") filename -> NoChapterNumber filename.
Proof. intros Habs a b c ->. by destruct (Habs a (c :: b)). Qed.

Lemma join_two (sep a b : str) : join sep [a; b] = a ++ sep ++ b.
Proof. reflexivity. Qed.

(** The generated block when nothing is taken from the source. *)
Lemma generateFrontmatter_plain filename fm :
  truthy (parseYamlFrontmatter fm) (lit "title") = None ->
  (forall key, In key cover_keys -> truthy (parseYamlFrontmatter fm) key = None) ->
  generateFrontmatter filename fm
  = lit "---" ++ [LF] ++ lit "title: " ++ [34%N] ++ defaultTitle filename ++ [34%N]
    ++ [LF] ++ lit "order: " ++ Number_toString (getChapterOrder filename)
    ++ [LF] ++ lit "---".
Proof.
  intros Ht Hc. unfold generateFrontmatter, fields_of.
  rewrite Ht, !Hc by (unfold cover_keys; simpl; tauto).
  cbn [default app fmap list_fmap]. rewrite join_two. unfold yaml_line.
  by rewrite <- !app_assoc.
Qed.

End TitleFacts.

Section TitlesFromNames.
Import Sync Spec OrderFacts SyncFacts TitleFacts.

(** X3: for a file named [Chap_<N>[-<L>]_<code>_<title>.md], with a code
    that is not empty and has no underscore and a title that is not empty
    and stays on one line, the default title is the title part with every
    underscore replaced by a space.  For a source without front matter, and
    when N*10 plus the alphabet position of L is at most 2^53, the
    generated front matter is the opening dashes, the title line with that
    title between double quotes, the order line with that number, and the
    closing dashes. *)
Theorem front_matter_from_file_name (N : str) (L : option char) (code title : str) :
  N <> [] -> forallb is_digit N = true ->
  (forall l, L = Some l -> is_upper l = true) ->
  code <> [] -> Forall (fun c => c <> 95%N) code ->
  title <> [] -> forallb is_dot title = true ->
  let filename := chapter_name N L (code ++ [95%N] ++ title ++ lit ".md") in
  defaultTitle filename = spaced title
  /\ (exact_key (chapter_number N * 10 + alphabet_position L) ->
      generateFrontmatter filename None
      = lit "---" ++ [LF] ++ lit "title: " ++ [34%N] ++ spaced title ++ [34%N]
        ++ [LF] ++ lit "order: "
        ++ number_to_string (chapter_number N * 10 + alphabet_position L)
        ++ [LF] ++ lit "---").
Proof.
  intros HN Hd HL Hcode Hc Htitle Hdots filename.
  assert (Hdef : defaultTitle filename = spaced title).
  { unfold defaultTitle, filename.
    rewrite (search_here _ _ _
               (title_at_chapter_name None N L code title HN Hd HL Hcode Hc Htitle Hdots)).
    apply underscore_spaced. }
  split; [done|]. intros Hkey.
  rewrite generateFrontmatter_plain by done. rewrite Hdef.
  unfold filename. rewrite order_of_chapter_name by done.
  unfold number_to_string. rewrite number_of_exact; [done|].
  pose proof (integer_of_nonneg N Hd). pose proof (alphabet_position_nonneg L).
  unfold exact_key, chapter_number in *. lia.
Qed.

Lemma front_matter_from_file_name_witness :
  defaultTitle (lit "Chap_12-B_AB_The_Long_Night.md") = lit "The Long Night"
  /\ generateFrontmatter (lit "Chap_12-B_AB_The_Long_Night.md") None
     = lit "---" ++ [LF] ++ lit "title: " ++ [34%N] ++ lit "The Long Night" ++ [34%N]
       ++ [LF] ++ lit "order: 122" ++ [LF] ++ lit "---".
Proof.
  pose proof (front_matter_from_file_name (lit "12") (Some 66%N) (lit "AB")
                (lit "The_Long_Night")
                ltac:(discriminate) ltac:(reflexivity)
                ltac:(intros l [= <-]; reflexivity)
                ltac:(discriminate)
                ltac:(repeat (apply List.Forall_cons; [discriminate|]);
                      apply List.Forall_nil)
                ltac:(discriminate) ltac:(reflexivity)) as [Htitle Hblock].
  split; [exact Htitle|].
  etrans; [apply Hblock; by vm_compute|]. by vm_compute.
Defined.

(** X4: for a file named [<base>.md] that nowhere contains [Chap_] and
    whose base has no dot, the default title is the base and the order is
    the sentinel 999; for a source without front matter the generated front
    matter has these two lines. *)
Theorem front_matter_of_other_file_names (base : str) :
  absent (lit "Chap_") (base ++ lit ".md") ->
  Forall (fun c => c <> 46%N) base ->
  defaultTitle (base ++ lit ".md") = base
  /\ getChapterOrder (base ++ lit ".md") = Finite 999
  /\ generateFrontmatter (base ++ lit ".md") None
     = lit "---" ++ [LF] ++ lit "title: " ++ [34%N] ++ base ++ [34%N]
       ++ [LF] ++ lit "order: 999" ++ [LF] ++ lit "---".
Proof.
  intros Habs Hdot.
  assert (Hdef : defaultTitle (base ++ lit ".md") = base).
  { unfold defaultTitle. rewrite no_chap_no_title by done.
    unfold replace_string. rewrite indexOf_skip by done.
    rewrite indexOf_here by done. cbn [fmap option_fmap option_map].
    rewrite Nat.add_0_r, take_app_length.
    replace (length base + length (lit ".md")) with (length (base ++ lit ".md"))
      by (by rewrite length_app).
    by rewrite drop_all, app_nil_r. }
  assert (Hord : getChapterOrder (base ++ lit ".md") = Finite 999)
    by by apply order_sentinel, no_chap_no_number.
  split; [done|]. split; [done|].
  rewrite generateFrontmatter_plain by done. by rewrite Hdef, Hord.
Qed.

Lemma front_matter_of_other_file_names_witness :
  defaultTitle (lit "prologue.md") = lit "prologue".
Proof.
  apply (proj1 (front_matter_of_other_file_names (lit "prologue")
                  ltac:(apply (CleanFacts.absent_search _ _ None); reflexivity)
                  ltac:(repeat (apply List.Forall_cons; [discriminate|]);
                        apply List.Forall_nil))).
Defined.

(** X5: when the front matter of the source has no title and no cover
    field (or only empty ones), the later variant of the synchronizer
    generates exactly the front matter that the earlier variant generates
    for every source. *)
Theorem generateFrontmatter_extends_v1 (filename : str) (fm : option str) :
  truthy (parseYamlFrontmatter fm) (lit "title") = None ->
  (forall key, In key cover_keys -> truthy (parseYamlFrontmatter fm) key = None) ->
  generateFrontmatter filename fm = SyncV1.generateFrontmatter filename fm.
Proof.
  intros Ht Hc. rewrite generateFrontmatter_plain by done.
  reflexivity.
Qed.

Lemma generateFrontmatter_extends_v1_witness :
  generateFrontmatter (lit "Chap_1_AB_Dawn.md") None
  = SyncV1.generateFrontmatter (lit "Chap_1_AB_Dawn.md") None.
Proof.
  apply (generateFrontmatter_extends_v1 (lit "Chap_1_AB_Dawn.md") None).
  - reflexivity.
  - intros key _. reflexivity.
Defined.

End TitlesFromNames.

(** ** The synchronizer: reading a synchronized file again *)

Module ResyncFacts.
Import Sync Spec SyncFacts ExcerptFacts.

Lemma trim_space_cons c s : is_space c = true -> trim (c :: s) = trim s.
Proof. intros Hc. unfold trim. simpl. by rewrite Hc. Qed.

Lemma trimStart_fixed s :
  match s with [] => True | c :: _ => is_space c = false end -> trimStart s = s.
Proof. destruct s as [|c s]; simpl; [done|]. by intros ->. Qed.

Lemma trimStart_idem s : trimStart (trimStart s) = trimStart s.
Proof.
  apply trimStart_fixed. destruct (trimStart s) as [|c t] eqn:E; [done|].
  by apply trimStart_head in E.
Qed.

Lemma trim_idem s : trim (trim s) = trim s.
Proof.
  assert (Hstart : trimStart (trim s) = trim s).
  { apply trimStart_fixed. destruct (trim s) as [|c t] eqn:E; [done|].
    by apply trim_head in E. }
  unfold trim at 1. rewrite Hstart. unfold trim, trimEnd.
  by rewrite rev_involutive, trimStart_idem.
Qed.

(** The generated file, read back by [parseFrontmatter]. *)
Lemma parseFrontmatter_newContent file content :
  no_lf file ->
  parseFrontmatter (newContent file content)
  = {| frontmatter :=
         Some (join [LF] (yaml_line <$> fields_of file (front_matter_of content)));
       body := trim (body (parseFrontmatter content)) |}.
Proof.
  intros Hfile. unfold newContent, generateFrontmatter.
  fold (front_matter_of content).
  pose proof (fields_good file (frontmatter (parseFrontmatter content)) Hfile)
    as Hgood.
  fold (front_matter_of content) in Hgood.
  set (fields := fields_of file (front_matter_of content)) in *.
  assert (Hlines : Forall (fun l => no_lf l /\ exists c t, l = c :: t /\ c <> 45%N)
                     (yaml_line <$> fields)).
  { apply Forall_fmap. eapply Forall_impl; [exact Hgood|].
    intros kv Hkv. by apply good_field_line. }
  assert (Hne : yaml_line <$> fields <> []) by done.
  rewrite frontmatter_at_generated by by apply indexOf_block_end.
  reflexivity.
Qed.

(** The fields generated from a generated block are the same fields. *)
Lemma fields_of_newContent file content :
  no_lf file ->
  fields_of file (front_matter_of (newContent file content))
  = fields_of file (front_matter_of content).
Proof.
  intros Hfile. rewrite front_matter_of_newContent by done.
  set (existing := front_matter_of content).
  unfold fields_of, kept, truthy.
  destruct (existing !! lit "cover") as [[|? ?]|],
           (existing !! lit "cover_url") as [[|? ?]|],
           (existing !! lit "cover_media_id") as [[|? ?]|],
           (existing !! lit "title") as [[|? ?]|];
    simplify_map_eq; try done;
    by destruct (defaultTitle file).
Qed.

Lemma sync_files_app before after site :
  sync_files (before ++ after) site
  = match sync_files before site with
    | (site', Finished) => sync_files after site'
    | r => r
    end.
Proof.
  revert site; induction before as [|[file [content|]] before IH]; intros site;
    simpl; [done| |done].
  apply IH.
Qed.

Lemma sync_files_frame l site f :
  f ∉ names l -> (sync_files l site).1 !! f = site !! f.
Proof.
  revert site; induction l as [|[file [content|]] l IH]; intros site Hf;
    simpl; [done| |done].
  apply not_elem_of_cons in Hf as [Hne Hf]. rewrite IH by done.
  by apply lookup_insert_ne.
Qed.

Lemma sync_files_keeps l site f :
  is_Some (site !! f) -> is_Some ((sync_files l site).1 !! f).
Proof.
  revert site; induction l as [|[file [content|]] l IH]; intros site Hf;
    simpl; [done| |done].
  apply IH. destruct (decide (file = f)) as [->|Hne].
  - rewrite lookup_insert_eq. by eexists.
  - by rewrite lookup_insert_ne.
Qed.

Lemma sync_files_readable l site :
  Forall (fun f => is_Some f.2) l -> (sync_files l site).2 = Finished.
Proof.
  intros Hl. revert site. induction Hl as [|[file [content|]] l Hf Hl IH];
    intros site; simpl; [done|apply IH|]. by destruct Hf.
Qed.

End ResyncFacts.

Section RoundTrip.
Import Sync Spec SyncFacts ResyncFacts.

(** X6: for a file whose name contains no line feed, the synchronized
    file, read again by the synchronizer, gives back what was generated: the
    front matter generated from it is the front matter generated from the
    source, and its body is the body of the source, trimmed.  So
    synchronizing the result once more changes nothing when the source had
    front matter, and in every case a third pass changes nothing. *)
Theorem synchronized_file_round_trip (file content : str) :
  Forall (fun c => c <> LF) file ->
  let source := parseFrontmatter content in
  let new := newContent file content in
  generateFrontmatter file (frontmatter (parseFrontmatter new))
  = generateFrontmatter file (frontmatter source)
  /\ body (parseFrontmatter new) = trim (body source)
  /\ (frontmatter source <> None -> newContent file new = new)
  /\ newContent file (newContent file new) = newContent file new.
Proof.
  intros Hfile source new.
  assert (Hgen : forall c,
            generateFrontmatter file (frontmatter (parseFrontmatter (newContent file c)))
            = generateFrontmatter file (frontmatter (parseFrontmatter c))).
  { intros c. unfold generateFrontmatter.
    fold (front_matter_of (newContent file c)). fold (front_matter_of c).
    by rewrite fields_of_newContent. }
  assert (Hbody : forall c,
            body (parseFrontmatter (newContent file c))
            = trim (body (parseFrontmatter c))).
  { intros c. by rewrite parseFrontmatter_newContent. }
  assert (Hre : forall c,
            newContent file (newContent file c)
            = generateFrontmatter file (frontmatter (parseFrontmatter c))
              ++ [LF; LF] ++ trim (body (parseFrontmatter c))).
  { intros c. unfold newContent at 1. by rewrite Hgen, Hbody. }
  split; [apply Hgen|]. split; [apply Hbody|]. split.
  - intros Hfm. unfold new. rewrite Hre. unfold newContent. do 2 f_equal.
    fold source. unfold source, parseFrontmatter in *.
    destruct (frontmatter_at content) as [[fm n]|]; [|done].
    apply trim_idem.
  - unfold new. rewrite !Hre, Hgen, Hbody. by rewrite trim_idem.
Qed.

Lemma synchronized_file_round_trip_witness :
  let new := newContent (lit "Chap_1_AB_Dawn.md") (lit "  Body text.  ") in
  newContent (lit "Chap_1_AB_Dawn.md") (newContent (lit "Chap_1_AB_Dawn.md") new)
  = newContent (lit "Chap_1_AB_Dawn.md") new.
Proof.
  apply (proj2 (proj2 (proj2
    (synchronized_file_round_trip (lit "Chap_1_AB_Dawn.md") (lit "  Body text.  ")
       ltac:(repeat (apply List.Forall_cons; [discriminate|]);
             apply List.Forall_nil))))).
Defined.

(** X7: [syncNovel] writes no file other than the [.md] files of the
    project listing, whatever its outcome: a file of the content directory
    whose name does not end with [.md], or that is not in the listing, is
    left as it was; and no file of the content directory is removed. *)
Theorem synchronizer_touches_only_chapters
    (project : option (list (str * option str))) (site : gmap str str) (f : str) :
  let site' := (syncNovel project site).1 in
  (endsWith (lit ".md") f = false -> site' !! f = site !! f)
  /\ ((forall files, project = Some files -> f ∉ names files) ->
      site' !! f = site !! f)
  /\ (is_Some (site !! f) -> is_Some (site' !! f)).
Proof.
  intros site'. unfold site', syncNovel.
  destruct project as [files|]; [|done]. split; [|split].
  - intros Hmd. apply sync_files_frame. unfold names.
    intros ([g c] & -> & Hin)%list_elem_of_fmap.
    apply list_elem_of_In, filter_In in Hin as [_ Hg]. simpl in *. congruence.
  - intros Hf. apply sync_files_frame. intros Hin%names_filter_sub.
    by apply (Hf files).
  - apply sync_files_keeps.
Qed.

(** X8: when a chapter of the project cannot be read, the synchronizer
    stops at that chapter: the run ends with the rejection (and the exit
    code 0), the chapters listed before it have been written, and every
    other file of the content directory, the chapters listed after it
    included, is as it was. *)
Theorem synchronizer_stops_at_unreadable_chapter
    (files before after : list (str * option str)) (file : str)
    (site : gmap str str) :
  List.filter (fun f => endsWith (lit ".md") f.1) files
  = before ++ (file, None) :: after ->
  Forall (fun f => is_Some f.2) before ->
  syncNovel (Some files) site = ((sync_files before site).1, Rejected)
  /\ exit_code (syncNovel (Some files) site).2 = 0%Z
  /\ (forall f content,
        In (f, Some content) before -> NoDup (names before) ->
        (syncNovel (Some files) site).1 !! f = Some (newContent f content))
  /\ (forall f, f ∉ names before ->
        (syncNovel (Some files) site).1 !! f = site !! f).
Proof.
  intros Hmd Hread. unfold syncNovel. rewrite Hmd, sync_files_app.
  pose proof (sync_files_readable before site Hread) as Hfin.
  destruct (sync_files before site) as [site1 o] eqn:Hs. simpl in Hfin. subst o.
  simpl. split; [done|]. split; [done|]. split.
  - intros f content Hin Hnd.
    by apply (proj1 (sync_files_lookup before site site1 Hs Hnd)).
  - intros f Hf. pose proof (sync_files_frame before site f Hf) as Hfr.
    by rewrite Hs in Hfr.
Qed.

Lemma synchronizer_stops_at_unreadable_chapter_witness :
  let files := [(lit "a.md", Some (lit "A")); (lit "b.md", None);
                (lit "c.md", Some (lit "C"))] in
  (syncNovel (Some files) ∅).2 = Rejected
  /\ (syncNovel (Some files) ∅).1 !! lit "c.md" = None.
Proof.
  intros files.
  destruct (synchronizer_stops_at_unreadable_chapter files
              [(lit "a.md", Some (lit "A"))] [(lit "c.md", Some (lit "C"))]
              (lit "b.md") ∅ eq_refl
              ltac:(repeat constructor; by eexists))
    as (Heq & _ & _ & Hframe).
  split; [by rewrite Heq|].
  rewrite Hframe; [done|]. by vm_compute; intros ?%list_elem_of_singleton.
Defined.

End RoundTrip.

(** ** Asset mirroring: directories *)

Module MirrorFacts.
Import Sync Spec AssetFacts.

Lemma copies_into_mono made made' ops :
  (forall d, In d made -> In d made') ->
  copies_into made ops -> copies_into made' ops.
Proof.
  revert made made'; induction ops as [|[d|from to] ops IH];
    intros made made' Hsub; simpl; [done| |].
  - apply IH. intros d' [<-|Hd]; [by left|right; by apply Hsub].
  - intros [(dir & name & -> & Hin) Hops]. split; [|by apply (IH made)].
    exists dir, name. split; [done|by apply Hsub].
Qed.

Lemma copies_into_app made a b :
  copies_into made a -> copies_into made b -> copies_into made (a ++ b).
Proof.
  revert made; induction a as [|[d|from to] a IH]; intros made; simpl; [done| |].
  - intros Ha Hb. apply IH; [done|].
    apply (copies_into_mono made); [|done]. intros d' Hd. by right.
  - intros [Hto Ha] Hb. split; [done|]. by apply IH.
Qed.

Lemma copies_into_split made l1 from to l2 :
  copies_into made (l1 ++ CopyFile from to :: l2) ->
  exists dir name, to = dir ++ [name] /\ (In dir made \/ In (Mkdir dir) l1).
Proof.
  revert made; induction l1 as [|[d|from' to'] l1 IH]; intros made; simpl.
  - intros [(dir & name & -> & Hin) _]. exists dir, name. tauto.
  - intros Hops. destruct (IH _ Hops) as (dir & name & Hto & Hin).
    exists dir, name. simpl in Hin. split; [done|].
    destruct Hin as [[<-|Hin]|Hin]; tauto.
  - intros [_ Hops]. destruct (IH _ Hops) as (dir & name & Hto & Hin).
    exists dir, name. tauto.
Qed.

Section WithLower.
Variable toLowerCase : str -> str.

Lemma copyEntries_into es :
  Forall (fun e => forall src dest made,
            In dest made -> copies_into made (copyEntry toLowerCase src dest e).2) es ->
  forall src dest made,
    In dest made -> copies_into made (copyEntries toLowerCase src dest es).2.
Proof.
  induction 1 as [|e es He _ IH]; intros src dest made Hin; simpl; [done|].
  apply copies_into_app; [by apply He|by apply IH].
Qed.

Lemma copyEntry_into e :
  forall src dest made,
    In dest made -> copies_into made (copyEntry toLowerCase src dest e).2.
Proof.
  induction e as [name|name entries IH] using entry_induction;
    intros src dest made Hin.
  - simpl. destruct (is_image toLowerCase name); simpl; [|done].
    split; [|done]. by exists dest, name.
  - rewrite copyEntry_dir. simpl. apply copyEntries_into; [done|by left].
Qed.

Lemma entry_dirs_dir name entries :
  entry_dirs (Dir name entries)
  = [name] :: ((fun d => name :: d) <$> dirs_under entries).
Proof.
  simpl. do 2 f_equal. unfold dirs_under.
  induction entries as [|e es IH]; simpl; [done|]. by rewrite IH.
Qed.

Lemma copyEntries_dirs es :
  Forall (fun e => forall src dest d,
            In (Mkdir d) (copyEntry toLowerCase src dest e).2
            <-> exists rel, In rel (entry_dirs e) /\ d = dest ++ rel) es ->
  forall src dest d,
    In (Mkdir d) (copyEntries toLowerCase src dest es).2
    <-> exists rel, In rel (dirs_under es) /\ d = dest ++ rel.
Proof.
  induction 1 as [|e es He _ IH]; intros src dest d; simpl.
  - split; [done|]. by intros (? & [] & _).
  - rewrite in_app_iff, He, IH. unfold dirs_under. simpl.
    setoid_rewrite in_app_iff. split.
    + intros [(r & ? & ?)|(r & ? & ?)]; exists r; tauto.
    + intros (r & [?|?] & ?); [left|right]; exists r; tauto.
Qed.

Lemma copyEntry_dirs e :
  forall src dest d,
    In (Mkdir d) (copyEntry toLowerCase src dest e).2
    <-> exists rel, In rel (entry_dirs e) /\ d = dest ++ rel.
Proof.
  induction e as [name|name entries IH] using entry_induction;
    intros src dest d.
  - simpl. destruct (is_image toLowerCase name); simpl.
    + split; [by intros [[=]|[]]|]. by intros (? & [] & _).
    + split; [done|]. by intros (? & [] & _).
  - rewrite copyEntry_dir, entry_dirs_dir. simpl.
    rewrite (copyEntries_dirs _ IH). split.
    + intros [[= <-]|(r & Hin & ->)].
      * exists [name]. split; [by left|done].
      * exists (name :: r). split; [|by rewrite <- app_assoc].
        right. apply in_map_iff. by exists r.
    + intros (r & [<-|Hin] & ->); [by left|]. right.
      apply in_map_iff in Hin as (r' & <- & Hin).
      exists r'. split; [done|]. by rewrite <- app_assoc.
Qed.

End WithLower.
End MirrorFacts.

Section MirroredTree.
Import Sync Spec AssetFacts MirrorFacts.

(** X9: in the calls of [syncAssets], every copy of a file comes after
    the creation of the directory it copies into. *)
Theorem copies_go_into_created_directories (toLowerCase : str -> str)
    (assetsDir publicDir : path) (assets : option (list entry))
    (before after : list op) (from to : path) :
  syncAssets toLowerCase assetsDir publicDir assets
  = before ++ CopyFile from to :: after ->
  exists dir name, to = dir ++ [name] /\ In (Mkdir dir) before.
Proof.
  unfold syncAssets, copyDir. destruct assets as [entries|]; [|by destruct before].
  simpl. intros Hops.
  assert (Hinto : copies_into [publicDir]
                    (copyEntries toLowerCase assetsDir publicDir entries).2).
  { apply copyEntries_into; [|by left].
    apply List.Forall_forall. intros e _. apply copyEntry_into. }
  destruct before as [|o [|o' before]]; try discriminate Hops.
  injection Hops as <- <- Hops. rewrite Hops in Hinto.
  apply copies_into_split in Hinto as (dir & name & Hto & Hin).
  exists dir, name. split; [done|]. simpl in *.
  destruct Hin as [[<-|[]]|Hin]; tauto.
Qed.

Lemma copies_go_into_created_directories_witness :
  exists dir name,
    [lit "public"; lit "maps"; lit "front.png"] = dir ++ [name]
    /\ In (Mkdir dir) [Mkdir [lit "public"]; Mkdir [lit "public"];
                       Mkdir [lit "public"; lit "maps"]].
Proof.
  apply (copies_go_into_created_directories demo_lower [lit "assets"] [lit "public"]
           (Some [Dir (lit "maps") [File (lit "front.png")]])
           [Mkdir [lit "public"]; Mkdir [lit "public"];
            Mkdir [lit "public"; lit "maps"]]
           [] [lit "assets"; lit "maps"; lit "front.png"]).
  reflexivity.
Defined.

(** X10: [copyDir] creates the destination directory and, below it, one
    directory for every directory of the source tree, whether or not it
    holds an image, and no other directory. *)
Theorem every_directory_is_mirrored (toLowerCase : str -> str)
    (src dest : path) (entries : list entry) (d : path) :
  In (Mkdir d) (copyDir toLowerCase src dest entries).2
  <-> d = dest \/ exists rel, In rel (dirs_under entries) /\ d = dest ++ rel.
Proof.
  unfold copyDir. simpl.
  rewrite (copyEntries_dirs toLowerCase entries).
  - split; [intros [[= <-]|?]; tauto|intros [->|?]; tauto].
  - apply List.Forall_forall. intros e _. apply copyEntry_dirs.
Qed.

End MirroredTree.

(** ** The cleaner: what it deletes, and a whole run *)

Module CleanRunFacts.
Import Clean Spec GsubFacts CleanFacts.

Lemma gsub_erase_sublist m s p k :
  gsub_from m erase p k s `sublist_of` s.
Proof.
  revert p k; induction s as [|c s IH]; intros p k; simpl.
  - destruct k; [|done]. by destruct (m p []).
  - destruct k as [|k]; [|by apply sublist_cons].
    destruct (m p (c :: s)) as [[|n]|]; simpl.
    + by apply sublist_skip.
    + by apply sublist_cons.
    + by apply sublist_skip.
Qed.

Lemma squeeze_sublist p s s' : squeeze p s s' -> s' `sublist_of` s.
Proof.
  induction 1; [done|by apply sublist_skip|by apply sublist_cons].
Qed.

Lemma sublist_same_length (l1 l2 : str) :
  l1 `sublist_of` l2 -> length l2 <= length l1 -> l1 = l2.
Proof.
  induction 1 as [|x l1 l2 Hs IH|x l1 l2 Hs IH]; simpl; intros Hlen; [done| |].
  - f_equal. apply IH. lia.
  - apply sublist_length in Hs. lia.
Qed.

Lemma clean_sublist content : clean content `sublist_of` content.
Proof.
  unfold clean, remove_labels, remove_label, remove_metadata, gsub.
  etrans; [apply (squeeze_sublist None), after_delimiter_squeeze|].
  etrans; [apply (squeeze_sublist None), collapse_blank_squeeze|].
  do 5 (etrans; [apply gsub_erase_sublist|]). apply gsub_erase_sublist.
Qed.

(** A text without the start of a bullet has no labelled line. *)
Lemma no_bullet_unlabelled label s p :
  absent (lit "- **") s -> search_from (label_at label) p s = None.
Proof.
  intros Habs. apply search_from_none. intros q a b ->.
  unfold label_at. destruct (startsWith (bullet label) b) eqn:Hs;
    [|by rewrite andb_false_r].
  apply startsWith_eq in Hs. exfalso.
  apply (Habs a (label ++ lit "**" ++ [65306%N] ++ drop (length (bullet label)) b)).
  rewrite Hs at 1. unfold bullet. by rewrite <- !app_assoc.
Qed.

Lemma cleanChapter_lookup file files files' modified :
  cleanChapter file files = Some (files', modified) ->
  exists content,
    files !! file = Some content
    /\ files' !! file = Some (clean content)
    /\ (forall g, g <> file -> files' !! g = files !! g)
    /\ modified = needs_cleaning files file.
Proof.
  unfold cleanChapter, needs_cleaning.
  destruct (files !! file) as [content|] eqn:Hf; [|done].
  destruct (str_eqb (clean content) content) eqn:E; intros [= <- <-];
    exists content; (split; [done|]).
  - apply str_eqb_eq in E. by rewrite Hf, E.
  - rewrite lookup_insert_eq. split; [done|]. split; [|done].
    intros g Hg. by rewrite lookup_insert_ne.
Qed.

Lemma clean_each_spec l : forall files k files' n,
  clean_each l files k = (files', Some n) -> NoDup l ->
  (forall f, In f l ->
     exists content, files !! f = Some content /\ files' !! f = Some (clean content))
  /\ (forall f, ~ In f l -> files' !! f = files !! f)
  /\ n = (k + Z.of_nat (length (List.filter (needs_cleaning files) l)))%Z.
Proof.
  induction l as [|file l IH]; intros files k files' n; simpl.
  - intros [= <- <-] _. split; [done|]. split; [done|]. lia.
  - destruct (cleanChapter file files) as [[files1 modified]|] eqn:Hc; [|done].
    apply cleanChapter_lookup in Hc as (content & Hf & Hf1 & Hother & ->).
    intros Hrest [Hnot Hnd]%NoDup_cons.
    rewrite list_elem_of_In in Hnot.
    destruct (IH _ _ _ _ Hrest Hnd) as (IH1 & IH2 & ->).
    split; [|split].
    + intros f [<-|Hin].
      * exists content. split; [done|]. by rewrite IH2.
      * destruct (IH1 f Hin) as (c & Hc1 & Hc2). exists c. split; [|done].
        rewrite <- Hother; [done|]. by intros ->.
    + intros f Hf'. rewrite IH2 by tauto. apply Hother. intros ->. tauto.
    + assert (Hext : List.filter (needs_cleaning files1) l
                     = List.filter (needs_cleaning files) l).
      { apply filter_ext_in. intros g Hg. unfold needs_cleaning.
        rewrite Hother; [done|]. by intros ->. }
      rewrite Hext. destruct (needs_cleaning files file); simpl; lia.
Qed.

End CleanRunFacts.

Section CleanerRuns.
Import Clean Spec GsubFacts CleanFacts CleanRunFacts.

(** X11: the cleaner only deletes characters.  Its output is the input
    with some characters left out, in the same order; it is never longer
    than the input, and it has the length of the input only if it is the
    input. *)
Theorem cleaner_only_deletes (content : str) :
  clean content `sublist_of` content
  /\ length (clean content) <= length content
  /\ (length (clean content) = length content -> clean content = content).
Proof.
  pose proof (clean_sublist content) as Hs. split; [done|].
  split; [by apply sublist_length|].
  intros Hlen. apply sublist_same_length; [done|lia].
Qed.

(** X12: a text without an opening angle bracket, without [- **], without
    four consecutive line feeds and without three dashes followed by three
    line feeds is left as it is; on a file with such a content
    [cleanChapter] writes nothing and reports no modification. *)
Theorem cleaner_leaves_prose_alone (content : str) :
  Forall (fun c => c <> 60%N) content ->
  absent (lit "- **") content ->
  absent [LF; LF; LF; LF] content ->
  absent (lit "---" ++ [LF; LF; LF]) content ->
  clean content = content
  /\ forall filePath files,
       files !! filePath = Some content ->
       cleanChapter filePath files = Some (files, false).
Proof.
  intros Hangle Hbullet Hrun Hgap.
  assert (Hclean : clean content = content).
  { unfold clean.
    rewrite remove_metadata_id by by apply no_bracket_no_block.
    rewrite remove_labels_id by (intros; by apply no_bullet_unlabelled).
    rewrite collapse_blank_id by by apply absent_no_run.
    by apply (after_delimiter_id _ None), absent_search. }
  split; [done|]. intros filePath files Hfile. unfold cleanChapter.
  rewrite Hfile, Hclean. by rewrite (proj2 (str_eqb_eq _ _) eq_refl).
Qed.

Lemma cleaner_leaves_prose_alone_witness :
  clean (lit "One." ++ [LF; LF] ++ lit "Two.") = lit "One." ++ [LF; LF] ++ lit "Two.".
Proof.
  apply (proj1 (cleaner_leaves_prose_alone (lit "One." ++ [LF; LF] ++ lit "Two.")
                  ltac:(repeat (apply List.Forall_cons; [discriminate|]);
                        apply List.Forall_nil)
                  ltac:(apply (absent_search _ _ None); reflexivity)
                  ltac:(apply (absent_search _ _ None); reflexivity)
                  ltac:(apply (absent_search _ _ None); reflexivity))).
Defined.

(** X13: after cleaning, none of the five labelled bullets stands at the
    start of a line: wherever one of them occurs in the output, the
    character before it is not a line terminator. *)
Theorem cleaner_removes_labelled_lines (content label before after : str) :
  In label labels ->
  clean content = before ++ bullet label ++ after ->
  exists c, last before = Some c /\ is_line_terminator c = false.
Proof.
  intros Hl Heq. pose proof (clean_unlabelled label content Hl) as Hs.
  rewrite Heq in Hs. apply search_from_suffix in Hs.
  assert (Hm : label_at label (if before is [] then None else last before)
                 (bullet label ++ after) = None).
  { destruct (bullet label ++ after) as [|c t] eqn:E.
    - exfalso. clear -E. unfold bullet in E. by vm_compute in E.
    - by apply search_from_none_inv in Hs as [? _]. }
  unfold label_at in Hm. rewrite startsWith_app, andb_true_r in Hm.
  destruct before as [|b before]; [done|].
  destruct (last (b :: before)) as [c|] eqn:Hlast.
  - exists c. split; [done|]. simpl in Hm. by destruct (is_line_terminator c).
  - done.
Qed.

Lemma cleaner_removes_labelled_lines_witness :
  exists c, last (lit "x") = Some c /\ is_line_terminator c = false.
Proof.
  apply (cleaner_removes_labelled_lines (lit "x" ++ bullet label_pov ++ lit "y")
           label_pov (lit "x") (lit "y")).
  - right. by left.
  - by vm_compute.
Defined.

(** X14: after a run of the cleaner's [main] that completes, every [.md]
    file of the listing holds the cleaned form of its previous content,
    every other file of the store is as it was, and the count reported is
    the number of [.md] files of the listing that cleaning changes. *)
Theorem cleaner_run (listing : list str) (files files' : gmap str str) (n : Z) :
  main (Some listing) files = (files', Some n) ->
  NoDup listing ->
  (forall f, In f listing -> endsWith (lit ".md") f = true ->
     exists content, files !! f = Some content /\ files' !! f = Some (clean content))
  /\ (forall f, endsWith (lit ".md") f = false \/ ~ In f listing ->
        files' !! f = files !! f)
  /\ n = Z.of_nat (length (List.filter
                             (fun f => endsWith (lit ".md") f && needs_cleaning files f)
                             listing)).
Proof.
  unfold main. intros Hrun Hnd.
  apply clean_each_spec in Hrun as (H1 & H2 & Hn).
  2: { apply NoDup_ListNoDup, List.NoDup_filter, NoDup_ListNoDup, Hnd. }
  split; [|split].
  - intros f Hin Hmd. apply H1, filter_In. by split.
  - intros f Hf. apply H2. rewrite filter_In. intros [Hin Hmd].
    destruct Hf as [Hf|Hf]; [congruence|done].
  - rewrite Hn, Z.add_0_l. do 2 f_equal. clear.
    induction listing as [|f l IH]; [done|]. cbn [List.filter].
    destruct (endsWith (lit ".md") f); cbn [andb List.filter]; [|done].
    destruct (needs_cleaning files f); by rewrite IH.
Qed.

Lemma cleaner_run_witness :
  let files : gmap str str :=
    {[ lit "a.md" := lit "A" ++ [LF; LF; LF; LF; LF] ++ lit "B";
       lit "b.md" := lit "Fine.";
       lit "notes.txt" := lit "<metadata>x</metadata>" ]} in
  exists content,
    files !! lit "a.md" = Some content
    /\ (main (Some [lit "a.md"; lit "b.md"; lit "notes.txt"]) files).1 !! lit "a.md"
       = Some (clean content).
Proof.
  intros files.
  apply (proj1 (cleaner_run [lit "a.md"; lit "b.md"; lit "notes.txt"] files
                  (main (Some [lit "a.md"; lit "b.md"; lit "notes.txt"]) files).1 1
                  ltac:(by vm_compute)
                  ltac:(apply NoDup_ListNoDup; repeat constructor;
                        simpl; intuition discriminate))
           (lit "a.md")).
  - by left.
  - reflexivity.
Defined.

End CleanerRuns.

(** ** The front matter, read by the publisher and by the synchronizer *)

Module ParseFacts.
Import Sync Spec SyncFacts ResyncFacts.

Lemma split_cons_inv sep s : exists l ls, split sep s = l :: ls.
Proof.
  destruct s as [|c s]; simpl; [by eexists _, _|].
  destruct (char_eqb c sep); [by eexists _, _|].
  destruct (split sep s); by eexists _, _.
Qed.

Lemma join_split sep s : join [sep] (split sep s) = s.
Proof.
  induction s as [|c s IH]; [done|]. cbn [split].
  destruct (split_cons_inv sep s) as (l & ls & Hs). rewrite Hs in *.
  destruct (char_eqb c sep) eqn:E.
  - apply char_eqb_eq in E. subst c.
    change (join [sep] ([] :: l :: ls)) with ([] ++ [sep] ++ join [sep] (l :: ls)).
    by rewrite IH.
  - destruct ls as [|l' ls].
    + simpl in *. by rewrite IH.
    + change (join [sep] ((c :: l) :: l' :: ls))
        with (c :: l ++ [sep] ++ join [sep] (l' :: ls)).
      change (join [sep] (l :: l' :: ls))
        with (l ++ [sep] ++ join [sep] (l' :: ls)) in IH.
      by rewrite IH.
Qed.

(** The first separator: what [indexOf] finds is where [split] cuts. *)
Lemma split_at_first sep s :
  match indexOf [sep] s with
  | None => split sep s = [s]
  | Some i =>
      i < length s /\ split sep s = take i s :: split sep (drop (S i) s)
  end.
Proof.
  induction s as [|c s IH]; [done|]. cbn [indexOf startsWith split].
  rewrite andb_true_r.
  assert (Hsym : char_eqb sep c = char_eqb c sep) by apply N.eqb_sym.
  rewrite Hsym. destruct (char_eqb c sep) eqn:E; [simpl; split; [lia|done]|].
  destruct (indexOf [sep] s) as [i|]; cbn [fmap option_fmap option_map].
  - destruct IH as [Hi ->]. simpl. split; [lia|done].
  - by rewrite IH.
Qed.

Lemma parse_line_agree obj line :
  Publish.parse_line obj line = Sync.parse_line obj line.
Proof.
  unfold Publish.parse_line, Sync.parse_line.
  change (lit ":") with [58%N].
  pose proof (split_at_first 58%N line) as Hs.
  destruct (indexOf [58%N] line) as [[|i]|].
  - destruct Hs as [_ ->]. by rewrite take_0.
  - destruct Hs as [Hi ->].
    destruct line as [|k line]; [simpl in Hi; lia|].
    cbn [take]. destruct (split_cons_inv 58%N (drop (S (S i)) (k :: line)))
      as (v & value & Hv).
    rewrite Hv, <- Hv, join_split.
    by replace (S i + 1) with (S (S i)) by lia.
  - rewrite Hs. by destruct line.
Qed.

Lemma fold_parse_line_agree lines obj :
  fold_left Publish.parse_line lines obj = fold_left Sync.parse_line lines obj.
Proof.
  revert obj; induction lines as [|l ls IH]; intros obj; [done|].
  simpl. by rewrite parse_line_agree, IH.
Qed.

Lemma startsWith_app_l p q s : startsWith (p ++ q) s = true -> startsWith p s = true.
Proof.
  intros [r ->]%startsWith_iff. rewrite <- app_assoc. apply startsWith_app.
Qed.

Lemma indexOf_extend p q s i :
  indexOf p s = Some i -> startsWith (p ++ q) (drop i s) = true ->
  indexOf (p ++ q) s = Some i.
Proof.
  revert i; induction s as [|c s IH]; intros i; cbn [indexOf].
  - destruct (startsWith p []) eqn:Hp; [|done]. intros [= <-] Hq.
    rewrite drop_0 in Hq. by rewrite Hq.
  - destruct (startsWith p (c :: s)) eqn:Hp.
    + intros [= <-] Hq. rewrite drop_0 in Hq. by rewrite Hq.
    + destruct (indexOf p s) as [j|] eqn:Hj; [|done]. intros [= <-] Hq.
      destruct (startsWith (p ++ q) (c :: s)) eqn:Hpq.
      * apply startsWith_app_l in Hpq. congruence.
      * by rewrite (IH j).
Qed.

Lemma indexOf_none_extend p q s :
  indexOf p s = None -> indexOf (p ++ q) s = None.
Proof.
  induction s as [|c s IH]; cbn [indexOf].
  - destruct (startsWith p []) eqn:Hp; [done|]. intros _.
    destruct (startsWith (p ++ q) []) eqn:Hpq; [|done].
    apply startsWith_app_l in Hpq. congruence.
  - destruct (startsWith p (c :: s)) eqn:Hp; [done|].
    destruct (indexOf p s) as [j|]; [done|]. intros _.
    destruct (startsWith (p ++ q) (c :: s)) eqn:Hpq.
    + apply startsWith_app_l in Hpq. congruence.
    + by rewrite IH.
Qed.

End ParseFacts.

Section TwoParsers.
Import Sync Spec SyncFacts ResyncFacts ParseFacts.

(** X15: the publisher and the synchronizer read front matter alike.  They
    read every line the same way; when the closing delimiter of the front
    matter is followed by a line feed, [parseMarkdown] returns the fields
    and the body that the synchronizer reads; and when the synchronizer
    finds no front matter, the publisher finds none either and takes the
    whole content as the body. *)
Theorem publisher_reads_front_matter (content : str) :
  (forall obj line, Publish.parse_line obj line = Sync.parse_line obj line)
  /\ (forall fm tail,
        frontmatter (parseFrontmatter content) = Some fm ->
        content = lit "---" ++ [LF] ++ fm ++ [LF] ++ lit "---" ++ [LF] ++ tail ->
        Publish.parseMarkdown content
        = (front_matter_of content, body (parseFrontmatter content)))
  /\ (frontmatter (parseFrontmatter content) = None ->
      Publish.parseMarkdown content = (∅, content)).
Proof.
  split; [exact parse_line_agree|]. split.
  - intros fm tail Hfm Hcontent.
    unfold front_matter_of. rewrite Hfm.
    unfold parseFrontmatter, frontmatter_at in *.
    unfold Publish.parseMarkdown, Publish.markdown_at.
    destruct (startsWith (lit "---" ++ [LF]) content); [|done].
    set (rest := drop 4 content) in *.
    assert (Hrest : rest = fm ++ (LF :: lit "---" ++ [LF]) ++ tail).
    { unfold rest. by rewrite Hcontent. }
    destruct (indexOf (LF :: lit "---") rest) as [i|] eqn:Hi; [|done].
    cbn [frontmatter body] in *. injection Hfm as Hfm.
    assert (Hlen : i = length fm).
    { apply (f_equal length) in Hfm. rewrite length_take in Hfm.
      rewrite Hrest, !length_app in Hfm.
      change (length (LF :: lit "---" ++ [LF])) with 5 in Hfm. lia. }
    assert (Hi' : indexOf (LF :: lit "---" ++ [LF]) rest = Some i).
    { apply (indexOf_extend (LF :: lit "---") [LF]); [done|].
      rewrite Hlen, Hrest, drop_app_length. apply startsWith_app. }
    rewrite Hi', Hfm. f_equal.
    + rewrite fold_parse_line_agree. unfold parseYamlFrontmatter.
      by destruct fm.
    + replace (drop (4 + i + 4) content) with (drop (i + 4) rest)
        by (unfold rest; rewrite drop_drop; f_equal; lia).
      rewrite Hlen, Hrest, <- !drop_drop, !drop_app_length.
      change (drop 4 ((LF :: lit "---" ++ [LF]) ++ tail)) with (LF :: tail).
      change (drop 5 ((LF :: lit "---" ++ [LF]) ++ tail)) with tail.
      by rewrite trim_space_cons.
  - unfold parseFrontmatter, frontmatter_at.
    unfold Publish.parseMarkdown, Publish.markdown_at.
    destruct (startsWith (lit "---" ++ [LF]) content); [|done].
    destruct (indexOf (LF :: lit "---") (drop 4 content)) as [i|] eqn:Hi; [done|].
    intros _.
    change (LF :: lit "---" ++ [LF]) with ((LF :: lit "---") ++ [LF]).
    by rewrite (indexOf_none_extend (LF :: lit "---") [LF] _ Hi).
Qed.

End TwoParsers.

(** ** The excerpt as plain text *)

Module PlainTextFacts.
Import Publish Spec GsubFacts SyncFacts ExcerptFacts CleanFacts TitleFacts.

Abbreviation plain_char := (fun c : char => is_markup c = false).

Lemma newlines_at_proper : proper newlines_at.
Proof.
  intros p s n. unfold newlines_at.
  pose proof (span_length_le Clean.is_lf s) as Hle.
  destruct (span Clean.is_lf s) as [|c run]; [done|].
  intros [= <-]. simpl in *. lia.
Qed.

(** After the third replacement no line feed is left. *)
Lemma newlines_replaced s :
  forall p, Forall (fun c => c <> LF)
              (gsub_from newlines_at (fun _ => lit " ") p 0 s).
Proof.
  induction s as [s IH] using str_length_ind. intros p.
  destruct s as [|c t]; [by rewrite gsub_from_nil by apply newlines_at_proper|].
  destruct (newlines_at p (c :: t)) as [n|] eqn:Hm.
  - destruct (gsub_from_proper _ (fun _ => lit " ") _ _ _ newlines_at_proper Hm)
      as [-> Hn].
    apply Forall_app. split; [by repeat constructor|].
    apply IH. rewrite length_drop. lia.
  - rewrite gsub_from_no_match by done. constructor; [|apply IH; simpl; lia].
    intros ->. unfold newlines_at in Hm. simpl in Hm.
    change (Clean.is_lf LF) with true in Hm. done.
Qed.

Lemma markers_removed s :
  forall p, Forall (fun c => Publish.marker_at None [c] = None)
              (gsub_from marker_at Clean.erase p 0 s).
Proof.
  intros p.
  rewrite (gsub_class_filter
             (fun c => (c =? 35)%N || (c =? 42)%N || (c =? 95)%N || (c =? 96)%N)
             marker_at); [|done|done].
  apply List.Forall_forall. intros c [_ Hc]%filter_In.
  simpl. by apply negb_true_iff in Hc as ->.
Qed.

Lemma plainText_plain content : Forall plain_char (plainText content).
Proof.
  unfold plainText, gsub. apply trim_Forall.
  set (s2 := gsub_from marker_at Clean.erase None 0 _).
  assert (H2 : Forall (fun c => Publish.marker_at None [c] = None) s2)
    by apply markers_removed.
  assert (H3 : Forall (fun c => Publish.marker_at None [c] = None)
                 (gsub_from newlines_at (fun _ => lit " ") None 0 s2)).
  { apply gsub_from_Forall; [|done]. intros _ _. by repeat constructor. }
  pose proof (newlines_replaced s2 None) as H4.
  revert H3 H4. generalize (gsub_from newlines_at (fun _ => lit " ") None 0 s2).
  intros s H3 H4. induction H3 as [|c s Hc _ IH]; [done|].
  apply Forall_cons in H4 as [Hlf H4]. constructor; [|by apply IH].
  unfold is_markup. simpl in Hc.
  destruct ((c =? 35)%N || (c =? 42)%N || (c =? 95)%N || (c =? 96)%N); [done|].
  simpl. by apply N.eqb_neq.
Qed.

Lemma replace_first_erase_Forall (P : char -> Prop) m s :
  Forall P s -> Forall P (replace_first m Clean.erase s).
Proof.
  intros Hs. unfold replace_first. destruct (search m s) as [[pre n]|] eqn:E; [|done].
  apply search_from_Some in E as (p' & s' & -> & _).
  apply Forall_app in Hs as [Hpre Hs']. apply Forall_app. split; [done|].
  unfold Clean.erase. simpl. apply Forall_drop. by apply Forall_app.
Qed.

Lemma createExcerpt_length body : length (createExcerpt body) <= 503.
Proof.
  unfold createExcerpt, createExcerpt_max.
  destruct (length (plainText body) <=? 500) eqn:E; [apply Nat.leb_le in E; lia|].
  rewrite length_app. change (length (lit "...")) with 3.
  assert (Hlen : length (take 500 (plainText body)) <= 500)
    by (rewrite length_take; lia).
  destruct (word_tail_cut (take 500 (plainText body)))
    as [[_ ->]|(kept & ws & word & Hcut & _ & _ & _ & _ & ->)]; [lia|].
  rewrite Hcut, length_app in Hlen. lia.
Qed.

End PlainTextFacts.

Section PlainText.
Import Publish Spec ExcerptFacts PlainTextFacts.

(** X16: the excerpt is plain text: it contains none of the characters
    [#], [*], [_] and the backquote and no line feed, and it does not start
    with white space. *)
Theorem excerpt_is_plain_text (body : str) :
  Forall (fun c => is_markup c = false) (createExcerpt body)
  /\ match createExcerpt body with
     | [] => True
     | c :: _ => is_space c = false
     end.
Proof.
  pose proof (plainText_plain body) as Hplain.
  unfold createExcerpt, createExcerpt_max.
  destruct (length (plainText body) <=? 500) eqn:E.
  - split; [done|]. destruct (plainText body) as [|c t] eqn:Hp; [done|].
    by apply trim_head in Hp.
  - apply Nat.leb_gt in E. split.
    + apply Forall_app. split; [|by repeat constructor].
      by apply replace_first_erase_Forall, Forall_take.
    + destruct (plainText body) as [|c t] eqn:Hp; [simpl in E; lia|].
      pose proof (trim_head _ _ _ Hp) as Hc.
      destruct (word_tail_cut (take 500 (c :: t)))
        as [[_ ->]|(kept & ws & word & Hcut & Hne & Hws & _ & _ & ->)]; [done|].
      destruct kept as [|k kept]; [|simpl in Hcut; by injection Hcut as <- _].
      simpl. done.
Qed.

End PlainText.

(** ** The publisher: the requests it sends *)

Module RequestFacts.
Import Publish Spec PublishFacts.

Section WithRuntime.
Context `{Runtime}.

Lemma sends_silent {A} (T : list request -> Prop) (m : M A) :
  (forall st, sent (m st).2 = sent st) -> T [] -> sends T m.
Proof. intros Hm HT st. exists []. by rewrite Hm, app_nil_r. Qed.

Lemma sends_ret {A} T (a : A) : T [] -> sends T (ret a).
Proof. by apply sends_silent. Qed.

Lemma sends_throw {A} T e : T [] -> sends T (@throw _ A e).
Proof. by apply sends_silent. Qed.

Lemma sends_console_log T s : T [] -> sends T (console_log s).
Proof. by apply sends_silent. Qed.

Lemma sends_console_error T s : T [] -> sends T (console_error s).
Proof. by apply sends_silent. Qed.

Lemma sends_await {A} T (io : World -> (str + A) * World) :
  T [] -> sends T (await io).
Proof.
  apply sends_silent. intros st. unfold await.
  by destruct (io (world st)) as [[e|a] w].
Qed.

Lemma sends_await_json {A} T (j : str + A) : T [] -> sends T (await_json j).
Proof. destruct j; [apply sends_throw|apply sends_ret]. Qed.

Lemma sends_await_fetch T rq : T [rq] -> sends T (await_fetch rq).
Proof.
  intros HT st. exists [rq]. split; [|done]. unfold await_fetch.
  by destruct (fetch rq (world st)) as [[e|a] w].
Qed.

Lemma sends_bind {A B} (T1 T2 T : list request -> Prop) (m : M A) (k : A -> M B) :
  sends T1 m -> (forall a, sends T2 (k a)) ->
  (forall x, T1 x -> T x) -> (forall x y, T1 x -> T2 y -> T (x ++ y)) ->
  sends T (bind m k).
Proof.
  intros Hm Hk Hone Hboth st. unfold bind.
  destruct (Hm st) as (x & Hx & HTx).
  destruct (m st) as [[a|e|c] st1]; simpl in Hx.
  - destruct (Hk a st1) as (y & Hy & HTy). exists (x ++ y).
    split; [|by apply Hboth]. by rewrite Hy, Hx, app_assoc.
  - exists x. split; [done|by apply Hone].
  - exists x. split; [done|by apply Hone].
Qed.

Lemma sends_try_catch (T1 T2 T : list request -> Prop) m handler :
  sends T1 m -> (forall e, sends T2 (handler e)) ->
  (forall x, T1 x -> T x) -> (forall x y, T1 x -> T2 y -> T (x ++ y)) ->
  sends T (try_catch m handler).
Proof.
  intros Hm Hh Hone Hboth st. unfold try_catch.
  destruct (Hm st) as (x & Hx & HTx).
  destruct (m st) as [[a|e|c] st1]; simpl in Hx.
  - exists x. split; [done|by apply Hone].
  - destruct (Hh e st1) as (y & Hy & HTy). exists (x ++ y).
    split; [|by apply Hboth]. by rewrite Hy, Hx, app_assoc.
  - exists x. split; [done|by apply Hone].
Qed.

(** Counting the posts saved and the images uploaded. *)
Lemma within_nil a b : within a b [].
Proof. split; [done|]. simpl. lia. Qed.

Lemma within_app a b c d x y :
  within a b x -> within c d y -> within (a + c) (b + d) (x ++ y).
Proof.
  intros (Hx & Hxs & Hxu) (Hy & Hys & Hyu). split; [by apply Forall_app|].
  rewrite !List.filter_app, !length_app. lia.
Qed.

Lemma within_le a b a' b' x : a <= a' -> b <= b' -> within a b x -> within a' b' x.
Proof. intros Ha Hb (Hx & Hxs & Hxu). split; [done|]. lia. Qed.

Lemma within_bind {A B} a b c d (m : M A) (k : A -> M B) :
  sends (within a b) m -> (forall x, sends (within c d) (k x)) ->
  sends (within (a + c) (b + d)) (bind m k).
Proof.
  intros Hm Hk. apply (sends_bind (within a b) (within c d)); try done.
  - intros x. apply within_le; lia.
  - intros x y. apply within_app.
Qed.

(** A step that sends nothing, within a computation. *)
Lemma within_bind_silent {A B} a b (m : M A) (k : A -> M B) :
  sends (within 0 0) m -> (forall x, sends (within a b) (k x)) ->
  sends (within a b) (bind m k).
Proof. intros Hm Hk. by apply (within_bind 0 0 a b). Qed.

(** A computation followed by steps that send nothing. *)
Lemma within_bind_then_silent {A B} a b (m : M A) (k : A -> M B) :
  sends (within a b) m -> (forall x, sends (within 0 0) (k x)) ->
  sends (within a b) (bind m k).
Proof.
  intros Hm Hk. apply (sends_bind (within a b) (within 0 0)); try done.
  intros x y Hx Hy. apply (within_le (a + 0) (b + 0)); [lia|lia|].
  by apply within_app.
Qed.

Lemma posts_api rest :
  exists rest', posts_url ++ rest = WP_URL ++ lit "/wp-json/wp/v2/" ++ rest'.
Proof. exists (lit "posts" ++ rest). unfold posts_url. by rewrite <- !app_assoc. Qed.

Lemma media_api rest :
  exists rest', media_url ++ rest = WP_URL ++ lit "/wp-json/wp/v2/" ++ rest'.
Proof. exists (lit "media" ++ rest). unfold media_url. by rewrite <- !app_assoc. Qed.

Ltac silent_step :=
  first
    [ apply sends_ret; apply within_nil
    | apply sends_throw; apply within_nil
    | apply sends_console_log; apply within_nil
    | apply sends_console_error; apply within_nil
    | apply sends_await; apply within_nil
    | apply sends_await_json; apply within_nil
    | apply within_bind_silent; [|intros ?] ].

Lemma sends_findExistingPost slug : sends (within 0 0) (findExistingPost slug).
Proof.
  unfold findExistingPost. apply within_bind_silent.
  - apply sends_await_fetch. split; [|simpl; lia].
    constructor; [|done]. split; [apply posts_api|by left].
  - intros response. destruct (negb (ok response)); repeat silent_step.
Qed.

Lemma sends_findExistingMedia filename : sends (within 0 0) (findExistingMedia filename).
Proof.
  unfold findExistingMedia. apply within_bind_silent.
  - apply sends_await_fetch. split; [|simpl; lia].
    constructor; [|done]. split; [apply media_api|by left].
  - intros response. destruct (negb (ok response)); repeat silent_step.
Qed.

Lemma sends_uploadImageToWordPress imagePath altText :
  sends (within 0 1) (uploadImageToWordPress imagePath altText).
Proof.
  unfold uploadImageToWordPress. silent_step; [silent_step|].
  destruct (negb x); [repeat silent_step|].
  silent_step; [apply sends_findExistingMedia|].
  destruct x0 as [m|]; [repeat silent_step|].
  silent_step; [silent_step|].
  apply (within_bind 0 1 0 0).
  { apply sends_await_fetch. split; [|simpl; lia].
    constructor; [|done]. split; [|by left].
    by exists (lit "media"). }
  intros response. destruct (negb (ok response)); [repeat silent_step|].
  silent_step; [silent_step|]. silent_step; [|repeat silent_step].
  destruct altText as [|c altText]; [silent_step|].
  silent_step; [|silent_step].
  apply sends_await_fetch. split; [|simpl; lia].
  constructor; [|done]. split; [apply media_api|by left].
Qed.

Lemma sends_postToWordPress title content excerpt slug mediaId :
  sends (within 1 0) (postToWordPress title content excerpt slug mediaId).
Proof.
  unfold postToWordPress.
  apply within_bind_silent; [apply sends_findExistingPost|]. intros existingPost.
  apply (within_bind 1 0 0 0).
  { apply sends_await_fetch. unfold save_request.
    destruct existingPost as [p|]; (split; [|simpl; lia]);
      (constructor; [|done]); (split; [|by left]); simpl.
    - apply posts_api.
    - by exists (lit "posts"). }
  intros response. destruct (negb (ok response)); repeat silent_step.
Qed.

Lemma sends_publishFile file : sends (within 1 1) (publishFile file).
Proof.
  unfold publishFile.
  destruct (novel_title (getNovelSlug file)) as [novelTitle|];
    [|apply sends_console_log, within_nil].
  silent_step; [silent_step|]. silent_step; [silent_step|].
  destruct (parseMarkdown x0) as [frontmatter body].
  apply (within_bind 0 1 1 0).
  - destruct (Sync.truthy frontmatter (lit "cover")).
    + apply (within_bind 0 0 0 1); [silent_step|]. intros _.
      apply sends_uploadImageToWordPress.
    + apply sends_ret. apply within_nil.
  - intros featuredMediaId.
    apply (within_bind 1 0 0 0); [apply sends_postToWordPress|].
    intros result. repeat silent_step.
Qed.

Lemma sends_report_failure file e : sends (within 0 0) (report_failure file e).
Proof. unfold report_failure. repeat silent_step. Qed.

Lemma sends_publish_each files :
  sends (within (length files) (length files)) (publish_each files).
Proof.
  induction files as [|file rest IH]; [apply sends_ret, within_nil|].
  cbn [publish_each length].
  apply (within_bind 1 1 (length rest) (length rest)); [|by intros _].
  apply (sends_try_catch (within 1 1) (within 0 0)).
  - apply sends_publishFile.
  - intros e. apply sends_report_failure.
  - done.
  - intros x y Hx Hy. by apply (within_app 1 1 0 0).
Qed.

Lemma sends_main argv :
  sends (within (length (List.filter (endsWith (lit ".md")) argv))
           (length (List.filter (endsWith (lit ".md")) argv)))
    (main argv).
Proof.
  unfold main.
  destruct (List.filter (endsWith (lit ".md")) argv) as [|f files];
    [apply sends_console_log, within_nil|].
  destruct (negb (is_set WP_USER) || negb (is_set WP_APP_PASSWORD)).
  - apply sends_silent; [done|apply within_nil].
  - silent_step; [silent_step|]. silent_step; [silent_step|].
    silent_step; [silent_step|].
    apply within_bind_then_silent; [apply sends_publish_each|].
    intros _. silent_step.
Qed.

Lemma sends_run argv st :
  exists new,
    sent (run argv st).2 = sent st ++ new
    /\ within (length (List.filter (endsWith (lit ".md")) argv))
         (length (List.filter (endsWith (lit ".md")) argv)) new.
Proof.
  destruct (sends_main argv st) as (new & Hnew & Hwithin).
  exists new. split; [|done]. unfold run.
  by destruct (main argv st) as [[[]|e|c] st'].
Qed.

End WithRuntime.
End RequestFacts.

Section RequestLog.
Import Publish Spec PublishFacts RequestFacts.

(** X17: every request the publisher sends goes to the REST API of the
    configured site, [WP_URL/wp-json/wp/v2/...], and carries the
    authorization header; the requests sent before the run are kept. *)
Theorem publisher_talks_to_the_site_only `{Runtime} (argv : list str) (st : state) :
  exists new,
    sent (run argv st).2 = sent st ++ new
    /\ Forall (fun rq =>
                 (exists rest,
                     endpoint rq = WP_URL ++ lit "/wp-json/wp/v2/" ++ rest)
                 /\ In (lit "Authorization", getAuthHeader) (headers rq))
         new.
Proof.
  destruct (sends_run argv st) as (new & Hnew & Hall & _). by exists new.
Qed.

(** X18: the publisher saves at most one post and uploads at most one
    image for each [.md] file it is given. *)
Theorem publisher_saves_one_post_per_file `{Runtime} (argv : list str) (st : state) :
  exists new,
    sent (run argv st).2 = sent st ++ new
    /\ length (List.filter is_save new)
       <= length (List.filter (endsWith (lit ".md")) argv)
    /\ length (List.filter is_upload new)
       <= length (List.filter (endsWith (lit ".md")) argv).
Proof.
  destruct (sends_run argv st) as (new & Hnew & _ & Hcount). by exists new.
Qed.

End RequestLog.

(** ** The publisher: novel slugs *)

Module SlugFacts.
Import Publish Spec PublishFacts GsubFacts SyncFacts CleanFacts.

(** The leftmost match is at the end of a prefix in which nothing
    matches. *)
Lemma search_from_app {A} (m : option char -> str -> option A) pre s a :
  (forall q x y, pre = x ++ y -> y <> [] -> m q (y ++ s) = None) ->
  (forall q, m q s = Some a) ->
  forall p, search_from m p (pre ++ s) = Some (pre, a).
Proof.
  intros Hpre Hs. induction pre as [|c pre IH]; intros p.
  - simpl. destruct s; simpl; by rewrite Hs.
  - pose proof (Hpre p [] (c :: pre) eq_refl ltac:(done)) as Hc.
    cbn [app search_from] in *. rewrite Hc.
    rewrite IH; [done|]. intros q x y -> Hy. by apply (Hpre q (c :: x) y).
Qed.

Lemma novel_at_prev p q s : novel_at p s = novel_at q s.
Proof. reflexivity. Qed.

Lemma novel_at_chapter_path p name rest :
  name <> [] -> Forall (fun c => c <> 47%N) name ->
  novel_at p (chapter_path [] name rest) = Some name.
Proof.
  intros Hne Hname. unfold novel_at, chapter_path. cbn [app].
  rewrite startsWith_app.
  change (drop 9 (lit "projects/" ++ ?x)) with x.
  assert (Hspan : span (fun c => negb (char_eqb c 47%N))
                    (name ++ lit "/chapters" ++ rest) = name).
  { apply span_all; [|done]. apply forallb_forall. intros c Hin.
    rewrite List.Forall_forall in Hname. apply negb_true_iff.
    apply not_true_iff_false. intros E%char_eqb_eq. by apply (Hname c). }
  rewrite Hspan. destruct name as [|c name]; [done|].
  by rewrite drop_app_length, startsWith_app.
Qed.

Lemma novel_at_occurs p s : is_Some (novel_at p s) -> startsWith (lit "projects/") s = true.
Proof. unfold novel_at. destruct (startsWith _ s); [done|by intros []]. Qed.

(** An occurrence that starts within [y] lies within [y] and the next
    characters. *)
Lemma startsWith_straddle (x y z w : str) :
  length x <= length y + length z ->
  startsWith x (y ++ z ++ w) = true -> exists t, y ++ z = x ++ t.
Proof.
  intros Hlen Hs. apply startsWith_eq in Hs.
  exists (drop (length x) (y ++ z)).
  rewrite app_assoc in Hs.
  apply (f_equal (take (length x))) in Hs.
  rewrite take_app_length in Hs.
  rewrite take_app_le in Hs by (rewrite length_app; lia).
  rewrite <- Hs at 1. by rewrite take_drop.
Qed.

Lemma getNovelSlug_none filepath :
  absent (lit "projects/") filepath -> getNovelSlug filepath = None.
Proof.
  intros Habs. unfold getNovelSlug, search.
  rewrite search_from_none; [done|]. intros p a b ->.
  destruct (novel_at p b) as [name|] eqn:E; [|done].
  assert (Hs : startsWith (lit "projects/") b = true)
    by (apply (novel_at_occurs p); by rewrite E).
  apply startsWith_eq in Hs. destruct (Habs a (drop (length (lit "projects/")) b)).
  by rewrite <- Hs.
Qed.

End SlugFacts.

Section NovelSlugs.
Import Publish Spec PublishFacts RequestFacts SlugFacts.

(** X19: the novel slug of a path is the name of the directory between
    the first [projects/] of the path and the [/chapters] that follows it;
    a path without [projects/] has no novel slug. *)
Theorem novel_slug_of_path (pre name rest filepath : str) :
  (absent (lit "projects/") (pre ++ lit "projects") ->
   name <> [] -> Forall (fun c => c <> 47%N) name ->
   getNovelSlug (chapter_path pre name rest) = Some name)
  /\ (absent (lit "projects/") filepath -> getNovelSlug filepath = None).
Proof.
  split; [|apply getNovelSlug_none].
  intros Hpre Hne Hname. unfold getNovelSlug, search.
  change (chapter_path pre name rest) with (pre ++ chapter_path [] name rest).
  rewrite (search_from_app novel_at pre _ name); [done| |].
  - intros q x y -> Hy.
    destruct (novel_at q (y ++ chapter_path [] name rest)) as [n|] eqn:E; [|done].
    assert (Hs : startsWith (lit "projects/") (y ++ chapter_path [] name rest) = true)
      by (apply (novel_at_occurs q); by rewrite E).
    exfalso. unfold chapter_path in Hs. cbn [app] in Hs.
    change (lit "projects/" ++ ?t) with (lit "projects" ++ [47%N] ++ t) in Hs.
    apply (startsWith_straddle _ y (lit "projects")) in Hs as [t Ht].
    + apply (Hpre x t). by rewrite <- app_assoc, Ht.
    + destruct y; [done|]. simpl. lia.
  - intros q. by apply novel_at_chapter_path.
Qed.

Lemma novel_slug_of_path_witness :
  getNovelSlug (lit "/repo/projects/2028ww3/chapters/Chap_1_AB_Dawn.md")
  = Some (lit "2028ww3")
  /\ getNovelSlug (lit "notes/Chap_1_AB_Dawn.md") = None.
Proof.
  split.
  - apply (proj1 (novel_slug_of_path (lit "/repo/") (lit "2028ww3")
                    (lit "/Chap_1_AB_Dawn.md") [])).
    + apply (CleanFacts.absent_search _ _ None). reflexivity.
    + discriminate.
    + repeat (apply List.Forall_cons; [discriminate|]). apply List.Forall_nil.
  - apply (proj2 (novel_slug_of_path [] [] [] (lit "notes/Chap_1_AB_Dawn.md"))).
    apply (CleanFacts.absent_search _ _ None). reflexivity.
Defined.

End NovelSlugs.

(** ** The publisher: runs without a request *)

Module QuietFacts.
Import Publish Spec PublishFacts SlugFacts.

Section WithRuntime.
Context `{Runtime}.

Lemma quiet_bind {A B} (m : M A) (k : A -> M B) :
  quiet m -> (forall a, quiet (k a)) -> quiet (bind m k).
Proof.
  intros Hm Hk st. unfold bind. destruct (Hm st) as [Hs Hw].
  destruct (m st) as [[a|e|c] st1]; simpl in *; [|done|done].
  destruct (Hk a st1) as [Hs' Hw']. split; congruence.
Qed.

Lemma quiet_console_log s : quiet (console_log s).
Proof. done. Qed.

Lemma quiet_console_error s : quiet (console_error s).
Proof. done. Qed.

Lemma quiet_try_catch m handler :
  quiet m -> (forall e, quiet (handler e)) -> quiet (try_catch m handler).
Proof.
  intros Hm Hh st. unfold try_catch. destruct (Hm st) as [Hs Hw].
  destruct (m st) as [[a|e|c] st1]; simpl in *; [done| |done].
  destruct (Hh e st1) as [Hs' Hw']. split; congruence.
Qed.

Lemma quiet_report_failure file e : quiet (report_failure file e).
Proof. done. Qed.

(** A file that is not below a [projects/] directory is skipped. *)
Lemma quiet_publishFile file :
  absent (lit "projects/") file -> quiet (publishFile file).
Proof.
  intros Habs. unfold publishFile. by rewrite getNovelSlug_none.
Qed.

Lemma quiet_publish_each files :
  Forall (absent (lit "projects/")) files -> quiet (publish_each files).
Proof.
  induction 1 as [|file rest Hfile _ IH]; [done|]. cbn [publish_each].
  apply quiet_bind; [|done].
  apply quiet_try_catch; [by apply quiet_publishFile|].
  apply quiet_report_failure.
Qed.

End WithRuntime.
End QuietFacts.

Section QuietRuns.
Import Publish Spec PublishFacts SlugFacts QuietFacts.

(** X20: the publisher sends no request and touches nothing of the
    outside world when it is given no [.md] file, when a credential is
    missing, or when none of the files it is given is below a [projects/]
    directory. *)
Theorem publisher_sends_nothing `{Runtime} (argv : list str) (st : state) :
  List.filter (endsWith (lit ".md")) argv = []
  \/ is_set WP_USER = false \/ is_set WP_APP_PASSWORD = false
  \/ Forall (absent (lit "projects/")) argv ->
  sent (run argv st).2 = sent st /\ world (run argv st).2 = world st.
Proof.
  intros Hcase.
  assert (Hmain : quiet (main argv)).
  { unfold main.
    destruct (List.filter (endsWith (lit ".md")) argv) as [|f files] eqn:Hf;
      [done|].
    destruct (negb (is_set WP_USER) || negb (is_set WP_APP_PASSWORD)) eqn:Hc;
      [done|].
    apply orb_false_iff in Hc as [Hu Hp]. apply negb_false_iff in Hu, Hp.
    destruct Hcase as [?|[?|[?|Hout]]]; try congruence.
    repeat (apply quiet_bind; [apply quiet_console_log|intros _]).
    apply quiet_bind; [|intros _; apply quiet_console_log].
    apply quiet_publish_each. rewrite <- Hf.
    apply List.Forall_forall. intros g [Hg _]%filter_In.
    by apply (proj1 (List.Forall_forall _ _) Hout). }
  destruct (Hmain st) as [Hs Hw]. unfold run.
  by destruct (main argv st) as [[[]|e|c] st'].
Qed.

Lemma publisher_sends_nothing_witness :
  let R := demo_runtime None [] [] in
  sent (@run R [lit "projects/2028ww3/chapters/a.md"] (demo_state None [] [])).2 = [].
Proof.
  intros R.
  apply (proj1 (@publisher_sends_nothing R [lit "projects/2028ww3/chapters/a.md"]
                  (demo_state None [] []) (or_intror (or_introl eq_refl)))).
Defined.

End QuietRuns.

(** ** The publisher: cover images *)

Section CoverUpload.
Import Publish Spec PublishFacts.

Ltac sent_leaf :=
  cbn [sent world console fst snd];
  first
    [ exists []; split; [by rewrite app_nil_r|]
    | eexists; split; [rewrite <- ?app_assoc; reflexivity|] ];
  (split; [simpl; auto 6|done]).

(** X21: [uploadImageToWordPress] sends at most three requests, in this
    order: the search of the media library, the upload and the request that
    sets the alternative text.  It sends none, and returns no media
    identifier, when the cover cannot be accessed, and it does not send the
    third one when the alternative text is empty. *)
Theorem cover_upload_requests `{Runtime} (imagePath altText : str) (st : state) :
  let r := uploadImageToWordPress imagePath altText st in
  exists new,
    sent r.2 = sent st ++ new
    /\ In (method_of <$> new) [[]; [GET]; [GET; POST]; [GET; POST; PUT]]
    /\ ((access imagePath (world st)).1 = false -> new = [] /\ r.1 = Ok None)
    /\ (altText = [] -> method_of <$> new <> [GET; POST; PUT]).
Proof.
  unfold uploadImageToWordPress, findExistingMedia, bind, await, await_fetch,
    await_json, console_log, ret, throw.
  destruct (access imagePath (world st)) as [[|] w1]; cbn [negb fst snd world];
    [|sent_leaf].
  destruct (fetch _ w1) as [[e|resp] w2]; [sent_leaf|].
  destruct (negb (ok resp)).
  2: destruct (json_media_list resp) as [e|library]; [sent_leaf|].
  2: cbn [sent world console fst snd];
     destruct (List.find _ library) as [m|]; [sent_leaf|].
  all: cbn [sent world console fst snd];
    destruct (readFile imagePath w2) as [[e|bytes] w3]; [sent_leaf|];
    cbn [sent world console fst snd];
    destruct (fetch _ w3) as [[e|resp'] w4]; [sent_leaf|];
    destruct (negb (ok resp')); [sent_leaf|];
    destruct (json_media resp') as [e|media]; [sent_leaf|];
    cbn [sent world console fst snd];
    destruct altText as [|c altText]; [sent_leaf|];
    cbn [sent world console fst snd];
    destruct (fetch _ w4) as [[e|resp''] w5]; sent_leaf.
Qed.

(** X22: a cover that the media library already has is not uploaded again:
    when the search succeeds and the name searched for is part of the slug
    of a media of the answer, the only request sent is the search, and the
    result is the identifier of the first such media. *)
Theorem cover_in_library_is_not_uploaded `{Runtime}
    (imagePath altText : str) (st : state) (w1 w2 : World)
    (resp : response) (library : list media) (m : media) :
  access imagePath (world st) = (true, w1) ->
  fetch (media_search (basename imagePath)) w1 = (inr resp, w2) ->
  ok resp = true ->
  json_media_list resp = inr library ->
  List.find (fun m => includes (toLowerCase (media_search_name (basename imagePath)))
                        (media_slug m)) library = Some m ->
  let r := uploadImageToWordPress imagePath altText st in
  r.1 = Ok (Some (media_id m))
  /\ sent r.2 = sent st ++ [media_search (basename imagePath)]
  /\ world r.2 = w2.
Proof.
  intros Haccess Hfetch Hok Hjson Hfind.
  unfold uploadImageToWordPress, findExistingMedia, bind, await, await_fetch,
    await_json, console_log, ret.
  rewrite Haccess. cbn [negb fst snd world].
  change (fetch _ w1) with (fetch (media_search (basename imagePath)) w1).
  rewrite Hfetch, Hok. cbn [negb]. rewrite Hjson.
  cbn [sent world console fst snd].
  change (List.find _ library)
    with (List.find (fun m => includes (toLowerCase (media_search_name (basename imagePath)))
                                (media_slug m)) library).
  by rewrite Hfind.
Qed.

Lemma cover_in_library_is_not_uploaded_witness :
  let library := [ {| media_id := 5%Z; media_slug := lit "ch01-cover" |} ] in
  let R := library_runtime library in
  (@uploadImageToWordPress R (lit "projects/2028ww3/_assets/chapters/ch01-cover.jpg")
     (lit "Alt") (@Build_state R tt [] [])).1
  = Ok (Some 5%Z).
Proof.
  intros library R.
  apply (@cover_in_library_is_not_uploaded R
           (lit "projects/2028ww3/_assets/chapters/ch01-cover.jpg") (lit "Alt")
           (@Build_state R tt [] []) tt tt (library_response library) library
           {| media_id := 5%Z; media_slug := lit "ch01-cover" |});
    reflexivity.
Defined.

End CoverUpload.

(** ** The publisher: inline images *)

Module ImageFacts.
Import Publish Spec GsubFacts SyncFacts CleanFacts SlugFacts.




(** Where the literal part occurs, the text [_assets/] occurs. *)
Lemma link_start_Some s i n :
  link_start s = Some (i, n) -> exists a b, s = a ++ lit "_assets/" ++ b.
Proof.
  revert i n; induction s as [|c s IH]; intros i n; cbn [link_start].
  - destruct (startsWith _ []) eqn:E1; [done|].
    by destruct (startsWith _ []) eqn:E2.
  - destruct (startsWith (lit "](./_assets/") (c :: s)) eqn:E1.
    { intros _. apply startsWith_eq in E1. rewrite E1.
      by exists (lit "](./"), (drop (length (lit "](./_assets/")) (c :: s)). }
    destruct (startsWith (lit "](../_assets/") (c :: s)) eqn:E2.
    { intros _. apply startsWith_eq in E2. rewrite E2.
      by exists (lit "](../"), (drop (length (lit "](../_assets/")) (c :: s)). }
    destruct (link_start s) as [[j m]|] eqn:E; [|done]. intros _.
    destruct (IH j m eq_refl) as (a & b & ->). by exists (c :: a), b.
Qed.

Lemma asset_link_occurs p s :
  is_Some (asset_link p s) -> exists a b, s = a ++ lit "_assets/" ++ b.
Proof.
  unfold asset_link, asset_link_at.
  destruct (startsWith (lit "![") s) eqn:Hs; [|by intros []].
  apply startsWith_eq in Hs.
  destruct (link_start (drop 2 s)) as [[i n]|] eqn:E; [|by intros []].
  intros _. apply link_start_Some in E as (a & b & E).
  exists (lit "![" ++ a), b. rewrite Hs. change (length (lit "![")) with 2.
  by rewrite E, <- app_assoc.
Qed.






(** The groups of the expression on the matched text are the groups of
    the match. *)
Lemma startsWith_take p s n :
  length p <= n -> startsWith p (take n s) = startsWith p s.
Proof.
  revert s n; induction p as [|x p IH]; intros [|y s] [|n] Hn; simpl in *;
    try done; try lia.
  destruct (char_eqb x y); [|done]. simpl. apply IH. lia.
Qed.

Lemma startsWith_of_take p s n :
  startsWith p (take n s) = true -> startsWith p s = true.
Proof.
  intros [r Hr]%startsWith_iff. apply startsWith_iff.
  exists (r ++ drop n s). by rewrite app_assoc, <- Hr, take_drop.
Qed.

Lemma startsWith_take_false p s n :
  startsWith p s = false -> startsWith p (take n s) = false.
Proof.
  intros Hs. destruct (startsWith p (take n s)) eqn:E; [|done].
  apply startsWith_of_take in E. congruence.
Qed.

Lemma link_start_take s i m n :
  link_start s = Some (i, m) -> i + m <= n -> (m = 12 \/ m = 13) ->
  link_start (take n s) = Some (i, m).
Proof.
  revert i n; induction s as [|c s IH]; intros i n; cbn [link_start].
  - rewrite take_nil. cbn [link_start]. done.
  - destruct (startsWith (lit "](./_assets/") (c :: s)) eqn:E1.
    { intros [= <- <-] Hn _. destruct n as [|n]; [lia|]. cbn [take link_start].
      change (c :: take n s) with (take (S n) (c :: s)).
      by rewrite startsWith_take, E1 by (simpl; lia). }
    destruct (startsWith (lit "](../_assets/") (c :: s)) eqn:E2.
    { intros [= <- <-] Hn _. destruct n as [|n]; [lia|]. cbn [take link_start].
      change (c :: take n s) with (take (S n) (c :: s)).
      rewrite (startsWith_take_false _ _ _ E1).
      by rewrite startsWith_take, E2 by (simpl; lia). }
    destruct (link_start s) as [[j m']|] eqn:E; [|done].
    intros [= <- <-] Hn Hm. destruct n as [|n]; [lia|]. cbn [take link_start].
    change (c :: take n s) with (take (S n) (c :: s)).
    rewrite (startsWith_take_false _ _ _ E1), (startsWith_take_false _ _ _ E2).
    by rewrite (IH j n eq_refl) by (done || lia).
Qed.

Lemma link_start_length s i m : link_start s = Some (i, m) -> m = 12 \/ m = 13.
Proof.
  revert i; induction s as [|c s IH]; intros i; [by vm_compute|].
  cbn [link_start].
  destruct (startsWith (lit "](./_assets/") (c :: s)); [intros [= _ <-]; tauto|].
  destruct (startsWith (lit "](../_assets/") (c :: s)); [intros [= _ <-]; tauto|].
  destruct (link_start s) as [[j m']|]; [|done]. intros [= _ <-]. by apply (IH j).
Qed.

Lemma indexOf_take p s k n :
  indexOf p s = Some k -> k + length p <= n -> indexOf p (take n s) = Some k.
Proof.
  revert k n; induction s as [|c s IH]; intros k n; cbn [indexOf].
  - rewrite take_nil. cbn [indexOf]. done.
  - destruct (startsWith p (c :: s)) eqn:E.
    { intros [= <-] Hn. apply indexOf_here. by rewrite startsWith_take by lia. }
    destruct (indexOf p s) as [j|] eqn:Ej; [|done]. intros [= <-] Hn.
    destruct n as [|n]; [lia|]. cbn [take].
    rewrite indexOf_next.
    2: { change (c :: take n s) with (take (S n) (c :: s)).
         by apply startsWith_take_false. }
    by rewrite (IH j n eq_refl) by lia.
Qed.

Lemma asset_link_at_take s alt path n :
  asset_link_at s = Some (alt, path, n) ->
  asset_link_at (take n s) = Some (alt, path, n).
Proof.
  unfold asset_link_at.
  destruct (startsWith (lit "![") s) eqn:Hs; [|done].
  destruct (link_start (drop 2 s)) as [[i m]|] eqn:Hl; [|done].
  destruct (indexOf (lit ")") (drop (i + m) (drop 2 s))) as [k|] eqn:Hk; [|done].
  destruct (forallb is_dot (take i (drop 2 s))
            && forallb is_dot (take k (drop (i + m) (drop 2 s)))) eqn:Hd; [|done].
  intros [= <- <- <-].
  rewrite startsWith_take, Hs by (simpl; lia).
  rewrite skipn_firstn_comm.
  rewrite (link_start_take _ i m) by (done || lia || by eapply link_start_length).
  rewrite skipn_firstn_comm.
  rewrite (indexOf_take _ _ k) by (done || simpl; lia).
  rewrite !take_take, !Nat.min_l by lia. by rewrite Hd.
Qed.

End ImageFacts.

Section InlineImages.
Import Publish Spec GsubFacts SyncFacts CleanFacts ImageFacts.



(** X24: a text in which [_assets/] does not occur, such as an image with
    an absolute address, is returned by [convertInlineImages] as it is. *)
Theorem other_text_is_not_converted `{Runtime} (markdown novelSlug : str) :
  absent (lit "_assets/") markdown ->
  convertInlineImages markdown novelSlug = markdown.
Proof.
  intros Habs. unfold convertInlineImages, gsub. apply gsub_from_id.
  apply search_from_none. intros p a b ->.
  destruct (asset_link p b) as [n|] eqn:E; [|done]. exfalso.
  destruct (asset_link_occurs p b) as (x & y & ->); [by rewrite E|].
  apply (Habs (a ++ x) y). by rewrite <- app_assoc.
Qed.

Lemma other_text_is_not_converted_witness :
  let R := demo_runtime None [] [] in
  @convertInlineImages R (lit "![logo](https://example.org/logo.png)") (lit "2028ww3")
  = lit "![logo](https://example.org/logo.png)".
Proof.
  intros R.
  apply (@other_text_is_not_converted R).
  apply (CleanFacts.absent_search _ _ None). reflexivity.
Defined.

End InlineImages.

(** ** Front-matter lines *)

Module QuoteFacts.
Import Sync Spec GsubFacts SyncFacts ParseFacts.

Lemma strip_quotes_tail p u c :
  gsub_from quote_edge (fun _ => []) (Some p) 0 (u ++ [c])
  = u ++ (if is_quote c then [] else [c]).
Proof.
  revert p; induction u as [|x u IH]; intros p.
  - cbn [app gsub_from quote_edge].
    rewrite (bool_decide_true (@nil N = [])) by done.
    rewrite orb_true_r, andb_true_r. by destruct (is_quote c).
  - simpl app. rewrite gsub_from_no_match; [by rewrite IH|].
    cbn [quote_edge]. rewrite (bool_decide_false (u ++ [c] = [])) by (by destruct u).
    rewrite (bool_decide_false (Some p = None)) by done.
    by rewrite andb_false_r.
Qed.

Lemma unquote_end_snoc u c :
  unquote_end (u ++ [c]) = u ++ (if is_quote c then [] else [c]).
Proof.
  unfold unquote_end. rewrite last_snoc, length_app. simpl.
  replace (length u + 1 - 1) with (length u) by lia.
  rewrite take_app_length. by destruct (is_quote c); rewrite ?app_nil_r.
Qed.

Lemma strip_quotes_inside p s :
  gsub_from quote_edge (fun _ => []) (Some p) 0 s = unquote_end s.
Proof.
  destruct s as [|c u _] using rev_ind; [done|].
  by rewrite strip_quotes_tail, unquote_end_snoc.
Qed.

Lemma strip_quotes_unquote s : strip_quotes s = unquote s.
Proof.
  unfold strip_quotes, gsub, unquote, unquote_start.
  destruct s as [|c t]; [done|]. cbn [gsub_from quote_edge].
  rewrite bool_decide_true by done. rewrite orb_true_l, andb_true_r.
  destruct (is_quote c) eqn:Hc.
  - apply strip_quotes_inside.
  - destruct t as [|d t]; [unfold unquote_end; simpl; by rewrite Hc|].
    rewrite (strip_quotes_inside c (d :: t)).
    unfold unquote_end. rewrite last_cons_cons.
    destruct (proj2 (last_is_Some (d :: t)) ltac:(done)) as [e Hl]. rewrite Hl.
    destruct (is_quote e); [|done]. simpl. by rewrite Nat.sub_0_r.
Qed.

End QuoteFacts.

Section FrontMatterLines.
Import Sync Spec SyncFacts ParseFacts QuoteFacts.

(** X25: a front-matter line [key: value] whose key has no colon sets the
    trimmed key to the value after the first colon, trimmed and without the
    quote it starts with and the quote it ends with, if any, also when the
    value itself contains colons; a line without a colon and a line that
    starts with a colon are ignored.  The synchronizer and the publisher
    agree on all of it. *)
Theorem front_matter_line (obj : gmap str str) :
  (forall key rest,
      key <> [] -> Forall (fun c => c <> 58%N) key ->
      Sync.parse_line obj (key ++ lit ":" ++ rest)
      = obj_set (trim key) (unquote (trim rest)) obj
      /\ Publish.parse_line obj (key ++ lit ":" ++ rest)
         = obj_set (trim key) (unquote (trim rest)) obj)
  /\ (forall line,
        Forall (fun c => c <> 58%N) line ->
        Sync.parse_line obj line = obj /\ Publish.parse_line obj line = obj)
  /\ (forall rest,
        Sync.parse_line obj (lit ":" ++ rest) = obj
        /\ Publish.parse_line obj (lit ":" ++ rest) = obj).
Proof.
  split; [|split].
  - intros key rest Hne Hkey. rewrite parse_line_agree.
    change (key ++ lit ":" ++ rest) with (key ++ 58%N :: rest).
    by rewrite parse_line_field, strip_quotes_unquote.
  - intros line Hline. rewrite parse_line_agree.
    assert (Hs : Sync.parse_line obj line = obj); [|done].
    unfold Sync.parse_line.
    destruct (indexOf (lit ":") line) as [i|] eqn:Hi; [|done]. exfalso.
    rewrite <- (app_nil_r line) in Hi. rewrite indexOf_skip in Hi by done.
    by vm_compute in Hi.
  - intros rest. by rewrite parse_line_agree.
Qed.

Lemma front_matter_line_witness :
  Sync.parse_line ∅ (lit "cover_url: 'https://example.org/a.png" ++ [34%N])
  = {[ lit "cover_url" := lit "https://example.org/a.png" ]}.
Proof.
  etrans; [apply (proj1 (proj1 (front_matter_line ∅) (lit "cover_url")
                           (lit " 'https://example.org/a.png" ++ [34%N])
                           ltac:(discriminate)
                           ltac:(repeat (apply List.Forall_cons; [discriminate|]);
                                 apply List.Forall_nil)))|].
  by vm_compute.
Defined.

End FrontMatterLines.
